(** * UI Copilot: the policy validator, the code normaliser and the snapshot
    history, embedded from the JavaScript / TypeScript sources.

    - [src/backend/validator/validate.js]   : module [Validator]
    - [src/frontend/src/App.tsx]            : module [App]
    - the first file of [src/unnamed/part_000] (the build with fence
      extraction and theme adaptation)      : module [ThemedApp]
    - the second file of [src/unnamed/part_000] (the build that hands the
      preview an expression)                : module [ExpressionApp]

    JavaScript strings are sequences of UTF-16 code units; a code unit is a
    number [N].  Regular expressions are kept as syntax and run by a
    backtracking matcher that follows the ECMAScript matching order. *)

From Stdlib Require Import String Ascii List NArith ZArith Lia Bool.
Import ListNotations.

Set Implicit Arguments.

(* ================================================================== *)
(** * Text: JavaScript strings as lists of code units *)
(* ================================================================== *)

Module Text.

Local Open Scope N_scope.

Definition text := list N.

(** A string literal of the source, as code units (ASCII literals only). *)
Definition lit (s : string) : text := map N_of_ascii (list_ascii_of_string s).
Arguments lit s%_string.

(** ECMAScript WhiteSpace and LineTerminator: what [\s] matches and what
    [String.prototype.trim] removes. *)
Definition is_space (c : N) : bool :=
  ((9 <=? c) && (c <=? 13)) || (c =? 32) || (c =? 160) || (c =? 5760)
  || ((8192 <=? c) && (c <=? 8202)) || (c =? 8232) || (c =? 8233)
  || (c =? 8239) || (c =? 8287) || (c =? 12288) || (c =? 65279).

(** [[a-zA-Z]] *)
Definition is_alpha (c : N) : bool :=
  ((65 <=? c) && (c <=? 90)) || ((97 <=? c) && (c <=? 122)).

(** A word character of [\b] and [\w]: [[A-Za-z0-9_]]. *)
Definition is_word (c : N) : bool :=
  is_alpha c || ((48 <=? c) && (c <=? 57)) || (c =? 95).

(** [[\s\S]] *)
Definition any_char (c : N) : bool := is_space c || negb (is_space c).

Definition newline : N := 10.

Fixpoint text_eqb (a b : text) : bool :=
  match a, b with
  | [], [] => true
  | x :: a', y :: b' => (x =? y) && text_eqb a' b'
  | _, _ => false
  end.

(** [s.startsWith(p)] *)
Fixpoint starts_with (p s : text) : bool :=
  match p, s with
  | [], _ => true
  | x :: p', y :: s' => (x =? y) && starts_with p' s'
  | _ :: _, [] => false
  end.

Fixpoint drop_while (f : N -> bool) (s : text) : text :=
  match s with
  | [] => []
  | c :: s' => if f c then drop_while f s' else s
  end.

Fixpoint take_while (f : N -> bool) (s : text) : text :=
  match s with
  | [] => []
  | c :: s' => if f c then c :: take_while f s' else []
  end.

(** [s.trim()] *)
Definition trim (s : text) : text :=
  rev (drop_while is_space (rev (drop_while is_space s))).

(** [s.split("\n")]: the pieces between the separators, at least one. *)
Fixpoint split (sep : N) (s : text) : list text :=
  match s with
  | [] => [[]]
  | c :: s' =>
      if c =? sep then [] :: split sep s'
      else match split sep s' with
           | [] => [[c]]
           | l :: ls => (c :: l) :: ls
           end
  end.

(** [lines.join("\n")] *)
Fixpoint join (sep : N) (ls : list text) : text :=
  match ls with
  | [] => []
  | [l] => l
  | l :: ls' => l ++ sep :: join sep ls'
  end.

(** [s.includes(q)]: [q] occurs somewhere in [s]. *)
Fixpoint includes (q s : text) : bool :=
  starts_with q s ||
  match s with
  | [] => false
  | _ :: s' => includes q s'
  end.

(** The text before the first occurrence of [q] in [s], when there is one. *)
Fixpoint before_first (q s : text) : option text :=
  if starts_with q s then Some []
  else match s with
       | [] => None
       | c :: s' => option_map (cons c) (before_first q s')
       end.

(** JavaScript truthiness of a string: [!s] holds of the empty string only. *)
Definition is_empty (s : text) : bool :=
  match s with [] => true | _ => false end.

End Text.

(* ================================================================== *)
(** * Regex: the regular expressions of the sources and their matcher *)
(* ================================================================== *)

Module Regex.
Import Text.

(** The pattern syntax the sources use. *)
Inductive regex : Type :=
| Lit (w : text)              (* a run of pattern characters *)
| Class (p : N -> bool)       (* a character class: [\s], [[a-zA-Z]], [[\s\S]] *)
| Cat (r1 r2 : regex)         (* juxtaposition *)
| Opt (r : regex)             (* [r?]  (greedy) *)
| Star (r : regex)            (* [r*]  (greedy) *)
| Plus (r : regex)            (* [r+]  (greedy) *)
| LazyStar (r : regex)        (* [r*?] *)
| Group (r : regex)           (* the capture group, number 1 *)
| WordBoundary                (* [\b] *)
| NotBehind (w : text).       (* [(?<!w)] for a literal [w] *)

(** The matcher's state: the input on both sides of the current position
    (the part before it reversed, nearest character first) and the
    capture. *)
Record mstate : Type := MState {
  before : text;
  after : text;
  group1 : option text
}.

Definition cont := mstate -> option mstate.

Definition shorter (st' st : mstate) : bool :=
  (length (after st') <? length (after st))%nat.

(** Greedy repetition: another round of the body first, the rest of the
    pattern when that fails.  A round that consumes nothing is not taken.
    [n] bounds the rounds; each consumes a character, so the length of the
    remaining input is enough. *)
Fixpoint star_loop (body : cont -> cont) (k : cont) (n : nat) (st : mstate)
  : option mstate :=
  match n with
  | O => k st
  | S n' =>
      match body (fun st' => if shorter st' st then star_loop body k n' st'
                             else None) st with
      | Some r => Some r
      | None => k st
      end
  end.

(** Lazy repetition: the rest of the pattern first, another round of the
    body when that fails. *)
Fixpoint lazy_loop (body : cont -> cont) (k : cont) (n : nat) (st : mstate)
  : option mstate :=
  match k st with
  | Some r => Some r
  | None =>
      match n with
      | O => None
      | S n' => body (fun st' => if shorter st' st then lazy_loop body k n' st'
                                 else None) st
      end
  end.

Definition word_before (st : mstate) : bool :=
  match before st with c :: _ => is_word c | [] => false end.

Definition word_after (st : mstate) : bool :=
  match after st with c :: _ => is_word c | [] => false end.

(** Consume [w] from the input. *)
Definition advance (w : text) (st : mstate) : mstate :=
  MState (rev w ++ before st) (skipn (length w) (after st)) (group1 st).

(** [m r k st]: match [r] at the position of [st], then the rest of the
    pattern [k]; [None] is failure, after all alternatives were tried in
    the order of the ECMAScript semantics. *)
Fixpoint m (r : regex) (k : cont) (st : mstate) {struct r} : option mstate :=
  match r with
  | Lit w => if starts_with w (after st) then k (advance w st) else None
  | Class p =>
      match after st with
      | c :: rest => if p c then k (MState (c :: before st) rest (group1 st))
                     else None
      | [] => None
      end
  | Cat r1 r2 => m r1 (m r2 k) st
  | Opt r' =>
      match m r' k st with
      | Some res => Some res
      | None => k st
      end
  | Star r' => star_loop (m r') k (length (after st)) st
  | Plus r' => m r' (fun st' => star_loop (m r') k (length (after st')) st') st
  | LazyStar r' => lazy_loop (m r') k (length (after st)) st
  | Group r' =>
      m r' (fun st' =>
              k (MState (before st') (after st')
                   (Some (firstn (length (after st) - length (after st'))
                            (after st))))) st
  | WordBoundary => if xorb (word_before st) (word_after st) then k st else None
  | NotBehind w => if starts_with (rev w) (before st) then None else k st
  end.

(** One match attempt at a position: the state after the match. *)
Definition exec_at (r : regex) (bef aft : text) : option mstate :=
  m r (fun st => Some st) (MState bef aft None).

(** A successful match, as [RegExp.prototype.exec] reports it. *)
Record match_result : Type := MatchResult {
  m_pre : text;            (* the input before the match *)
  m_text : text;           (* the matched text, [match[0]] *)
  m_group : option text;   (* [match[1]] *)
  m_post : text            (* the input after the match *)
}.

(** The matched text is what was consumed between the two states. *)
Definition matched (aft : text) (st' : mstate) : text :=
  firstn (length aft - length (after st')) aft.

(** [re.exec(s)] for a pattern without the [g] flag: the first position,
    from the left, at which the pattern matches. *)
Fixpoint search_from (r : regex) (bef aft : text) : option match_result :=
  match exec_at r bef aft with
  | Some st' =>
      Some (MatchResult (rev bef) (matched aft st') (group1 st') (after st'))
  | None =>
      match aft with
      | [] => None
      | c :: aft' => search_from r (c :: bef) aft'
      end
  end.

Definition search (r : regex) (s : text) : option match_result :=
  search_from r [] s.

(** [re.test(s)] *)
Definition test (r : regex) (s : text) : bool :=
  match search r s with Some _ => true | None => false end.

(** [s.replace(re, by)] for a pattern without the [g] flag and a
    replacement with no [$] pattern in it: the first match is replaced. *)
Definition replace (r : regex) (by_ : text) (s : text) : text :=
  match search r s with
  | Some res => m_pre res ++ by_ ++ m_post res
  | None => s
  end.

(** [s.replace(re, by)] for a pattern with the [g] flag: matches are looked
    for from the end of the previous one; an empty match moves the position
    on by one character.  [fuel] bounds the positions visited. *)
Fixpoint replace_loop (fuel : nat) (r : regex) (by_ : text) (bef aft : text)
  : text :=
  match fuel with
  | O => aft
  | S fuel' =>
      let step :=
        match aft with
        | [] => []
        | c :: aft' => c :: replace_loop fuel' r by_ (c :: bef) aft'
        end in
      match exec_at r bef aft with
      | Some st' =>
          if shorter st' (MState bef aft None)
          then by_ ++ replace_loop fuel' r by_ (before st') (after st')
          else by_ ++ step
      | None => step
      end
  end.

Definition replace_all (r : regex) (by_ : text) (s : text) : text :=
  replace_loop (S (length s)) r by_ [] s.

End Regex.

(* ================================================================== *)
(** * Validator: [src/backend/validator/validate.js] *)
(* ================================================================== *)

Module Validator.

Local Open Scope string_scope.

(** The syntax tree [@babel/parser] returns, reduced to what the traversal
    looks at.  The three node types that have a visitor keep the
    attributes the visitor reads; any other node type is [Other], with its
    sub-nodes in the order of its visitor keys.  [source] of an import
    declaration is the [value] of its [StringLiteral]. *)
Inductive node : Type :=
| Identifier (name : string)
| StringLiteral (value : string)
| MemberExpression (object property : node) (computed : bool)
| ImportDeclaration (specifiers : list node) (source : string)
| Other (type : string) (children : list node).

(** What a call either returns or throws. *)
Inductive outcome (A : Type) : Type :=
| Throw (error : string)
| Return (a : A).
Arguments Throw {A} error.
Arguments Return {A} a.

Definition forbiddenIdentifiers : list string :=
  ["eval"; "Function"; "setTimeout"; "setInterval"].

Definition forbiddenMembers : list string :=
  ["dangerouslySetInnerHTML"; "localStorage"; "sessionStorage"; "window";
   "document"].

Definition allowedModules : list string := ["react"].

(** [Set.prototype.has] and [Array.prototype.includes] on strings. *)
Definition has (set : list string) (x : string) : bool :=
  existsb (String.eqb x) set.

(** The two variables the visitors close over: [safe] and [reasons]. *)
Record verdict : Type := Verdict {
  safe : bool;
  reasons : list string
}.

(** [safe = false; reasons.push(reason)] *)
Definition flag (reason : string) (v : verdict) : verdict :=
  Verdict false (reasons v ++ [reason]).

(** [node.name], [undefined] for a node that has no such attribute. *)
Definition name_of (n : node) : option string :=
  match n with
  | Identifier name => Some name
  | _ => None
  end.

Definition visit_Identifier (name : string) (v : verdict) : verdict :=
  if has forbiddenIdentifiers name
  then flag ("Forbidden identifier: " ++ name) v
  else v.

Definition visit_MemberExpression (property : node) (v : verdict) : verdict :=
  match name_of property with
  | Some name =>
      if has forbiddenMembers name
      then flag ("Forbidden member: " ++ name) v
      else v
  | None => v
  end.

Definition visit_ImportDeclaration (source : string) (v : verdict) : verdict :=
  if negb (has allowedModules source)
  then flag ("Forbidden import: " ++ source) v
  else v.

(** The visitor object handed to [traverse]: the handler of the node's
    type, when there is one. *)
Definition enter (n : node) (v : verdict) : verdict :=
  match n with
  | Identifier name => visit_Identifier name v
  | MemberExpression _ property _ => visit_MemberExpression property v
  | ImportDeclaration _ source => visit_ImportDeclaration source v
  | StringLiteral _ | Other _ _ => v
  end.

(** [traverse] below a node: the handler on entering it, then its
    sub-nodes in the order of the visitor keys. *)
Fixpoint traverse_node (n : node) (v : verdict) : verdict :=
  let v := enter n v in
  let fix traverse_list (ns : list node) (v : verdict) : verdict :=
    match ns with
    | [] => v
    | n' :: ns' => traverse_list ns' (traverse_node n' v)
    end in
  match n with
  | Identifier _ | StringLiteral _ => v
  | MemberExpression object property _ =>
      traverse_node property (traverse_node object v)
  | ImportDeclaration specifiers _ => traverse_list specifiers v
  | Other _ children => traverse_list children v
  end.

Definition children_of (n : node) : list node :=
  match n with
  | Identifier _ | StringLiteral _ => []
  | MemberExpression object property _ => [object; property]
  | ImportDeclaration specifiers source => specifiers ++ [StringLiteral source]
  | Other _ children => children
  end.

(** [traverse(ast, visitor)]: the root itself gets no handler call, its
    sub-nodes are traversed. *)
Definition traverse (ast : node) (v : verdict) : verdict :=
  fold_left (fun v n => traverse_node n v) (children_of ast) v.

(** The part of [validate] after the parse. *)
Definition validate_ast (ast : node) : verdict :=
  traverse ast (Verdict true []).

(** The nodes below a node, itself first, in source order. *)
Fixpoint subnodes (n : node) : list node :=
  n ::
  match n with
  | Identifier _ | StringLiteral _ => []
  | MemberExpression object property _ => subnodes object ++ subnodes property
  | ImportDeclaration specifiers source =>
      flat_map subnodes specifiers ++ [StringLiteral source]
  | Other _ children => flat_map subnodes children
  end.

(** The nodes of a tree: everything below its root. *)
Definition nodes_of (ast : node) : list node :=
  flat_map subnodes (children_of ast).

(** A member access is flagged when its handler records a violation. *)
Definition member_flagged (n : node) : bool :=
  match n with
  | MemberExpression _ _ _ => negb (safe (enter n (Verdict true [])))
  | _ => false
  end.

Section Validate.

(** [parser.parse(code, { sourceType: "module", plugins: ["jsx"] })]: the
    [File] node, or the [SyntaxError] it throws. *)
Variable parse : string -> outcome node.

Definition validate (code : string) : outcome verdict :=
  match parse code with
  | Throw e => Throw e
  | Return ast => Return (validate_ast ast)
  end.

End Validate.

(** Syntax trees of small programs, as the parser builds them. *)
Definition File (body : list node) : node := Other "File" [Other "Program" body].
Definition ExpressionStatement (e : node) : node := Other "ExpressionStatement" [e].
Definition CallExpression (callee : node) (args : list node) : node :=
  Other "CallExpression" (callee :: args).

(** [x["localStorage"]] *)
Definition ast_computed_string : node :=
  File [ExpressionStatement
          (MemberExpression (Identifier "x") (StringLiteral "localStorage") true)].
(** [x[window]] *)
Definition ast_computed_identifier : node :=
  File [ExpressionStatement
          (MemberExpression (Identifier "x") (Identifier "window") true)].
(** [window.location] *)
Definition ast_window_location : node :=
  File [ExpressionStatement
          (MemberExpression (Identifier "window") (Identifier "location") false)].
(** [document.write] *)
Definition ast_document_write : node :=
  File [ExpressionStatement
          (MemberExpression (Identifier "document") (Identifier "write") false)].
(** [x.window] *)
Definition ast_x_window : node :=
  File [ExpressionStatement
          (MemberExpression (Identifier "x") (Identifier "window") false)].
(** [eval("1")] *)
Definition ast_eval_call : node :=
  File [ExpressionStatement
          (CallExpression (Identifier "eval") [StringLiteral "1"])].

(** A parser for the examples: it knows two sources and rejects the rest. *)
Definition example_parse (code : string) : outcome node :=
  if String.eqb code "eval('1')" then Return ast_eval_call
  else if String.eqb code "x.window" then Return ast_x_window
  else Throw "SyntaxError: Unexpected token".

End Validator.

(* ================================================================== *)
(** * Patterns shared by the front-end builds *)
(* ================================================================== *)

Module Patterns.
Import Text Regex.

Infix ">>" := Cat (at level 61, right associativity).

Definition str (s : string) : regex := Lit (lit s).
Arguments str s%_string.

(** [\s] *)
Definition ws : regex := Class is_space.

(** [/export\s+default\s+function\s+GeneratedComponent\s*\(/] *)
Definition export_default_function_re : regex :=
  str "export" >> Plus ws >> str "default" >> Plus ws >> str "function" >>
  Plus ws >> str "GeneratedComponent" >> Star ws >> str "(".

(** [/export\s+default\s+/g] *)
Definition export_default_re : regex :=
  str "export" >> Plus ws >> str "default" >> Plus ws.

(** [/```(?:[a-zA-Z]+)?\s*([\s\S]*?)```/] *)
Definition fence_re : regex :=
  str "```" >> Opt (Plus (Class is_alpha)) >> Star ws >>
  Group (LazyStar (Class any_char)) >> str "```".

(** [/(?<!React\.)\bHOOK\b/g] *)
Definition hook_re (hook : string) : regex :=
  NotBehind (lit "React.") >> WordBoundary >> str hook >> WordBoundary.
Arguments hook_re hook%_string.

(** The predicate of the line filter: what [filter] keeps. *)
Definition fence_marker : text := lit "```".
Definition import_marker : text := lit "import ".

End Patterns.

(* ================================================================== *)
(** * App: [src/frontend/src/App.tsx] *)
(* ================================================================== *)

Module App.
Import Text Regex Patterns.

(** The keys of [reactLiveScope], each with the member of [React] it is
    bound to ([React] itself for the first). *)
Definition reactLiveScope : list (string * string) :=
  [("React", "React");
   ("useState", "React.useState");
   ("useEffect", "React.useEffect");
   ("useCallback", "React.useCallback");
   ("useMemo", "React.useMemo");
   ("useRef", "React.useRef");
   ("useContext", "React.useContext");
   ("useReducer", "React.useReducer");
   ("createElement", "React.createElement");
   ("Fragment", "React.Fragment");
   ("Component", "React.Component");
   ("createContext", "React.createContext");
   ("forwardRef", "React.forwardRef");
   ("memo", "React.memo");
   ("Children", "React.Children");
   ("cloneElement", "React.cloneElement");
   ("isValidElement", "React.isValidElement")]%string.

Definition scope_keys : list string := map fst reactLiveScope.

(** The hook names [normalizeGeneratedCode] qualifies, in the order of its
    replacements. *)
Definition hooks : list string :=
  ["useState"; "useEffect"; "useCallback"; "useMemo"; "useRef"; "useContext";
   "useReducer"]%string.

(** The callback of [filter]. *)
Definition keep_line (line : text) : bool :=
  let trimmed := trim line in
  if starts_with fence_marker trimmed then false
  else if starts_with import_marker trimmed then false
  else true.

(** The first statement: the lines that are neither fence nor import. *)
Definition strip_lines (raw : text) : text :=
  join newline (filter keep_line (split newline raw)).

(** The two replacements of the export forms. *)
Definition strip_exports (code : text) : text :=
  let code :=
    replace export_default_function_re (lit "function GeneratedComponent(") code in
  replace_all export_default_re [] code.

(** [code.replace(/(?<!React\.)\bHOOK\b/g, "React.HOOK")] *)
Definition qualify (hook : string) (code : text) : text :=
  replace_all (hook_re hook) (lit "React." ++ lit hook) code.
Arguments qualify hook%_string code.

(** The seven hook replacements, in order. *)
Definition qualify_hooks (code : text) : text :=
  fold_left (fun code hook => qualify hook code) hooks code.

Definition normalizeGeneratedCode (raw : text) : text :=
  if is_empty raw then []
  else
    let code := strip_lines raw in
    let code := strip_exports code in
    let code := qualify_hooks code in
    trim code.

(** [previewCode]: what is handed to the live preview. *)
Definition previewCode (editableCode : text) : text :=
  if is_empty (trim editableCode) then []
  else
    let cleaned := normalizeGeneratedCode editableCode in
    trim (cleaned ++ newline :: lit "render(<GeneratedComponent />);").

(** ** The snapshot history *)

Local Open Scope Z_scope.

(** A string-valued JavaScript value; [history[i]] is [undefined] outside
    the array. *)
Inductive value : Type :=
| Undefined
| Str (s : text).

(** The component state the history handlers read and write. *)
Record state : Type := State {
  history : list text;
  historyIndex : Z;
  editableCode : value
}.

(** The initial [useState] values. *)
Definition initial : state := State [] (-1) (Str []).

(** [history[i]] *)
Definition at_index (h : list text) (i : Z) : value :=
  if i <? 0 then Undefined
  else match nth_error h (Z.to_nat i) with
       | Some s => Str s
       | None => Undefined
       end.

(** [commitToHistory] as the render that showed the cursor [index] made
    it: [useCallback] with the dependency [historyIndex] closes over the
    cursor of that render, while the updater of [setHistory] gets the
    latest log.  A handler that keeps the function across an [await] calls
    it with the cursor of the render in which it was clicked. *)
Definition commitToHistory (index : Z) (code : text) (st : state) : state :=
  let prev := history st in
  let base :=
    if (index >=? 0) && (index <? Z.of_nat (length prev))
    then firstn (Z.to_nat (index + 1)) prev
    else prev in
  let next := base ++ [code] in
  let newIndex := Z.of_nat (length next) - 1 in
  State next newIndex (editableCode st).

Definition handleUndo (st : state) : state :=
  let idx := historyIndex st in
  if idx <=? 0 then st
  else
    let newIdx := idx - 1 in
    State (history st) newIdx (at_index (history st) newIdx).

Definition handleRedo (st : state) : state :=
  let idx := historyIndex st in
  if (idx <? 0) || (idx >=? Z.of_nat (length (history st)) - 1) then st
  else
    let newIdx := idx + 1 in
    State (history st) newIdx (at_index (history st) newIdx).

(** [handleCommitSnapshot]: nothing happens for blank text (and none for
    [undefined], on which [trim] throws before any update).  The handler
    runs at once, with the [commitToHistory] of the render on screen. *)
Definition handleCommitSnapshot (st : state) : state :=
  match editableCode st with
  | Undefined => st
  | Str s => if is_empty (trim s) then st
             else commitToHistory (historyIndex st) s st
  end.

(** The state updates of [handleGenerate] once the response [data.code]
    is there (the empty string when the response has none).  The handler
    is the one of the render in which the button was clicked: [index] is
    the cursor of that render, which its [commitToHistory] closed over;
    [st] is the state when the response arrives. *)
Definition handleGenerate (index : Z) (code : text) (st : state) : state :=
  if is_empty code then State (history st) (historyIndex st) (Str [])
  else commitToHistory index code
         (State (history st) (historyIndex st) (Str code)).

(** The state updates of [handleScreenshotGenerate], likewise. *)
Definition handleScreenshotGenerate (index : Z) (code : text) (st : state)
  : state :=
  if is_empty code then st
  else commitToHistory index code
         (State (history st) (historyIndex st) (Str code)).

(** The editor's [onChange]. *)
Definition handleEdit (s : text) (st : state) : state :=
  State (history st) (historyIndex st) (Str s).

(** The events that reach the history.  The response of a request comes
    with the cursor of the render in which the request was made; the other
    events are handled at once.  Every interleaving of clicks and responses
    of the program is a sequence of these events. *)
Inductive event : Type :=
| Generate (index : Z) (code : text)
| ScreenshotGenerate (index : Z) (code : text)
| CommitSnapshot
| Undo
| Redo
| Edit (s : text).

Definition handle (e : event) (st : state) : state :=
  match e with
  | Generate index code => handleGenerate index code st
  | ScreenshotGenerate index code => handleScreenshotGenerate index code st
  | CommitSnapshot => handleCommitSnapshot st
  | Undo => handleUndo st
  | Redo => handleRedo st
  | Edit s => handleEdit s st
  end.

(** The state after a sequence of events, oldest first. *)
Definition run (es : list event) (st : state) : state :=
  fold_left (fun st e => handle e st) es st.

(** The operations of the history, as the handlers provide them: [push]
    is [commitToHistory] with the cursor of the render on screen, as the
    save button calls it and as a response does when the cursor has not
    moved since the click; [undo] and [redo] give the snapshot the handler
    puts into the editor, or nothing when the cursor stays. *)
Definition push (snapshot : text) (st : state) : state :=
  commitToHistory (historyIndex st) snapshot st.

Definition shown (st st' : state) : option value :=
  if historyIndex st' =? historyIndex st then None
  else Some (editableCode st').

Definition undo (st : state) : state * option value :=
  (handleUndo st, shown st (handleUndo st)).

Definition redo (st : state) : state * option value :=
  (handleRedo st, shown st (handleRedo st)).

(** The snapshot at the cursor. *)
Definition current (st : state) : value :=
  at_index (history st) (historyIndex st).

End App.

(* ================================================================== *)
(** * ThemedApp: the first file of [src/unnamed/part_000] *)
(* ================================================================== *)

Module ThemedApp.
Import Text Regex Patterns.

(** The callback of [filter]; this build drops [export {] lines too. *)
Definition keep_line (line : text) : bool :=
  let trimmed := trim line in
  if starts_with fence_marker trimmed then false
  else if starts_with import_marker trimmed then false
  else if starts_with (lit "export {") trimmed then false
  else true.

(** Steps 2 and 3, on the text step 1 leaves. *)
Definition clean (code : text) : text :=
  let code := join newline (filter keep_line (split newline code)) in
  let code :=
    replace export_default_function_re (lit "function GeneratedComponent(") code in
  let code := replace_all export_default_re [] code in
  trim code.

(** [fenceMatch[1]]; the group takes part in every match of [fence_re]. *)
Definition capture (res : match_result) : text :=
  match m_group res with
  | Some g => g
  | None => []
  end.

Definition normalizeGeneratedCode (raw : text) : text :=
  if is_empty raw then []
  else
    let code :=
      match search fence_re raw with
      | Some fenceMatch => capture fenceMatch
      | None => raw
      end in
    clean code.

Definition adaptCodeForTheme (code : text) (isDark : bool) : text :=
  if is_empty code then code
  else if isDark then
    replace_all (str "bg-white") (lit "bg-slate-900")
      (replace_all (str "text-black") (lit "text-slate-50") code)
  else
    replace_all (str "bg-slate-900") (lit "bg-slate-100")
      (replace_all (str "text-white") (lit "text-slate-900") code).

(** [previewCode]: what is handed to the live preview. *)
Definition previewCode (editableCode : text) (isDark : bool) : text :=
  if is_empty (trim editableCode) then []
  else
    let cleaned := normalizeGeneratedCode editableCode in
    let themed := adaptCodeForTheme cleaned isDark in
    themed ++ newline :: newline :: lit "<GeneratedComponent />".

End ThemedApp.

(* ================================================================== *)
(** * ExpressionApp: the second file of [src/unnamed/part_000] *)
(* ================================================================== *)

Module ExpressionApp.
Import Text Regex Patterns.

(** The double quote, as a code unit. *)
Definition quote : N := 34%N.

Definition DEFAULT_SNIPPET : text :=
  lit "() => (" ++ newline ::
  lit "  <div className=" ++ quote ::
  lit "flex items-center justify-center min-h-[200px] bg-slate-100 text-slate-900"
  ++ quote :: lit ">" ++ newline ::
  lit "    <p className=" ++ quote :: lit "text-sm text-slate-600" ++ quote ::
  lit ">Generated UI will appear here</p>" ++ newline ::
  lit "  </div>" ++ newline ::
  lit ")".

(** [/function\s+GeneratedComponent\s*\(/] *)
Definition component_re : regex :=
  str "function" >> Plus ws >> str "GeneratedComponent" >> Star ws >> str "(".

(** [fenceMatch[1]]; the group takes part in every match of [fence_re]. *)
Definition capture (res : match_result) : text :=
  match m_group res with
  | Some g => g
  | None => []
  end.

(** Step 1 and the [trim] before it: the trimmed input, or the trimmed
    content of its first fenced block. *)
Definition first_block (raw : text) : text :=
  let code := trim raw in
  match search fence_re code with
  | Some fenceMatch => trim (capture fenceMatch)
  | None => code
  end.

Definition normalizeGeneratedCode (raw : text) : text :=
  if is_empty raw then DEFAULT_SNIPPET
  else
    let code := first_block raw in
    let code :=
      replace export_default_function_re (lit "function GeneratedComponent(") code in
    if test component_re code then
      trim (code ++ newline :: newline :: lit "(() => <GeneratedComponent />)" ++
            newline :: lit "    ")
    else
      let code :=
        if negb (starts_with (lit "(") code) &&
           negb (starts_with (lit "() =>") code) && includes (lit "<") code
        then lit "() => (" ++ newline :: code ++ newline :: lit ")"
        else code in
      if is_empty code then DEFAULT_SNIPPET else code.

Definition applyThemeContrastFix (code : text) (isDark : bool) : text :=
  if is_empty code then code
  else if isDark then replace_all (str "text-black") (lit "text-slate-50") code
  else replace_all (str "text-white") (lit "text-slate-900") code.

(** [previewCode]: what is handed to the live preview. *)
Definition previewCode (generatedCode : text) (isDark : bool) : text :=
  applyThemeContrastFix (normalizeGeneratedCode generatedCode) isDark.

End ExpressionApp.

(* ================================================================== *)
(** * Controls: the [disabled] attributes of the history buttons of [App] *)
(* ================================================================== *)

Module Controls.
Import Text App.

Local Open Scope Z_scope.

(** [disabled={historyIndex <= 0}] of the undo button. *)
Definition undo_disabled (st : state) : bool := historyIndex st <=? 0.

(** [disabled={historyIndex < 0 || historyIndex >= history.length - 1}] of
    the redo button. *)
Definition redo_disabled (st : state) : bool :=
  (historyIndex st <? 0) || (historyIndex st >=? Z.of_nat (length (history st)) - 1).

(** [disabled={!editableCode.trim()}] of the save button, for the string
    in the editor. *)
Definition save_disabled (editableCode : text) : bool := is_empty (trim editableCode).

End Controls.

(* ================================================================== *)
(** * Notions: what the statements and the proofs speak of *)
(* ================================================================== *)

Module ValidatorNotions.
Import Validator.

(** The handlers called on a list of nodes, in order. *)
Definition enter_all (ns : list node) (v : verdict) : verdict :=
  fold_left (fun v n => enter n v) ns v.

(** What the handler of one node adds to [reasons]. *)
Definition report (n : node) : list string :=
  reasons (enter n (Verdict true [])).

(** The rule for member accesses in the words of the specification: the
    property is a non-computed identifier with a forbidden name. *)
Definition non_computed_forbidden_property (n : node) : Prop :=
  match n with
  | MemberExpression _ property computed =>
      computed = false /\
      exists name, property = Identifier name /\ In name forbiddenMembers
  | _ => False
  end.

End ValidatorNotions.

Module HistoryNotions.
Import Text App.

Local Open Scope Z_scope.

(** The cursor is [-1] on the empty log and an index of the log otherwise,
    and the editor holds a string. *)
Definition well_formed (st : state) : Prop :=
  ((history st = [] /\ historyIndex st = -1) \/
   0 <= historyIndex st < Z.of_nat (length (history st))) /\
  editableCode st <> Undefined.

End HistoryNotions.

Module Notions.
Import Text Regex Patterns.

(** ** Occurrences and overlaps *)

(** Two texts that start a common text: one starts the other. *)
Definition compatible (u v : text) : bool := starts_with u v || starts_with v u.

(** No occurrence of [q] overlaps an occurrence of [r], in any text. *)
Definition no_overlap (q r : text) : Prop :=
  forall a b x y,
    a ++ r ++ b = x ++ q ++ y ->
    length x + length q <= length a \/ length a + length r <= length x.

(** The same, decided on the two texts: [q] laid over [r] at any offset
    disagrees with it somewhere. *)
Definition overlapb (q r : text) : bool :=
  existsb (fun d => compatible (skipn d q) r) (seq 0 (length q)) ||
  existsb (fun d => compatible (skipn d r) q) (seq 1 (length r - 1)).

(** The weaker condition a replacement of [p] by [r] needs: an occurrence
    of [q] may overlap [r] when it starts before [r] and its part inside
    [r] also starts [p], for then the input had the same occurrence. *)
Definition harmless_overlap (q p r : text) : Prop :=
  forall a b x y,
    a ++ r ++ b = x ++ q ++ y ->
    length x + length q <= length a \/ length a + length r <= length x \/
    (length x < length a < length x + length q /\
     starts_with (skipn (length a - length x) q) p = true).

Definition harmfulb (q p r : text) : bool :=
  existsb (fun d => compatible (skipn d q) r &&
                    negb ((0 <? d)%nat && starts_with (skipn d q) p))
    (seq 0 (length q)) ||
  existsb (fun d => compatible (skipn d r) q) (seq 1 (length r - 1)).

(** ** The theme literals *)

(** The low-contrast combinations of the four literals the code knows:
    dark text on a dark background, light text on a light background. *)
Definition leaves_low_contrast (out : text) : bool :=
  (includes (lit "text-black") out && includes (lit "bg-slate-900") out) ||
  (includes (lit "text-white") out && includes (lit "bg-white") out).

(** ** The fence pattern *)

(** Greedy repetition of a class, by recursion on the input. *)
Fixpoint greedy_class (p : N -> bool) (k : cont) (bef aft : text)
    (g : option text) : option mstate :=
  match aft with
  | c :: aft' =>
      if p c then
        match greedy_class p k (c :: bef) aft' g with
        | Some r => Some r
        | None => k (MState bef aft g)
        end
      else k (MState bef aft g)
  | [] => k (MState bef [] g)
  end.

(** A continuation that fails before a character of the class whenever it
    fails after it: giving characters back cannot help. *)
Definition back_fail (p : N -> bool) (k : cont) : Prop :=
  forall bef c aft g,
    p c = true ->
    k (MState (c :: bef) aft g) = None -> k (MState bef (c :: aft) g) = None.

(** Lazy repetition of [[\s\S]], by recursion on the input. *)
Fixpoint lazy_any (k : cont) (bef aft : text) (g : option text)
  : option mstate :=
  match k (MState bef aft g) with
  | Some r => Some r
  | None =>
      match aft with
      | c :: aft' => lazy_any k (c :: bef) aft' g
      | [] => None
      end
  end.

(** What follows the tag: [([\s\S]*?)```]. *)
Definition content_re : regex := Group (LazyStar (Class any_char)) >> str "```".

(** The continuation of the group: the closing marker, with the text the
    group has taken from [a0] as the capture. *)
Definition close_fence (a0 : text) : cont :=
  fun st' =>
    m (str "```") (fun st => Some st)
      (MState (before st') (after st')
         (Some (firstn (length a0 - length (after st')) a0))).

(** The text after the tag and the white space that follows the opening
    marker. *)
Definition after_tag (rest : text) : text :=
  drop_while is_space (drop_while is_alpha rest).

(** The marker that follows [prefix] is the first one of the text. *)
Definition first_fence_after (prefix : text) : Prop :=
  before_first fence_marker (prefix ++ fence_marker) = Some prefix.

(** The text between the markers that the pattern captures: [body] without
    its tag and leading white space, up to a marker inside it if there is
    one. *)
Definition fence_content (body : text) : text :=
  match before_first fence_marker (after_tag body ++ fence_marker) with
  | Some pre => pre
  | None => []
  end.

(** ** Hook references *)

Definition react_dot : text := lit "React.".

(** The character next to a position is a word character; the text on
    the left of a position is kept reversed, so this serves both sides. *)
Definition wordc (s : text) : bool :=
  match s with
  | c :: _ => is_word c
  | [] => false
  end.

(** A bare reference to [h] at a position, with [L] on its left (reversed)
    and [y] from it on: [h] as a whole word, not right after [React.]. *)
Definition bare (h L y : text) : bool :=
  negb (starts_with (rev react_dot) L) && negb (wordc L) &&
  starts_with h y && negb (wordc (skipn (length h) y)).

Fixpoint bare_from (h L s : text) : bool :=
  bare h L s ||
  match s with
  | [] => false
  | c :: s' => bare_from h (c :: L) s'
  end.

(** Some position of [s] is a bare reference to [h]. *)
Definition has_bare_reference (h s : text) : bool := bare_from h [] s.

(** The replacement in the words of the specification: [React.] is put in
    front of every bare reference to [h], and nothing else changes. *)
Fixpoint insert_at_bare (h L s : text) : text :=
  match s with
  | [] => []
  | c :: s' =>
      (if bare h L s then react_dot else []) ++ c :: insert_at_bare h (c :: L) s'
  end.

Definition qualify_spec (h s : text) : text := insert_at_bare h [] s.

(** What the proofs need of a hook name: word characters only, the first
    one a [u], and at least as long as [React.]. *)
Definition hook_like (h : text) : bool :=
  (6 <=? length h)%nat && forallb is_word h && starts_with [117%N] h.

(** ** Import lines *)

(** Some character of [s] is no white space. *)
Definition nonspace (s : text) : bool := existsb (fun c => negb (is_space c)) s.

(** [s.trimEnd()]; [trim] is [trim_end] after the leading white space is
    dropped. *)
Definition trim_end (s : text) : text := rev (drop_while is_space (rev s)).

(** The test of the line filter for import lines. *)
Definition import_line (line : text) : bool :=
  starts_with import_marker (trim line).

(** [inserted s' s]: [s'] is [s] with [React.] put in front of some of its
    [u]s. *)
Inductive inserted : text -> text -> Prop :=
| inserted_nil : inserted [] []
| inserted_copy c s' s : inserted s' s -> inserted (c :: s') (c :: s)
| inserted_block s' s :
    inserted s' s -> hd_error s = Some 117%N -> inserted (react_dot ++ s') s.

(** ** Lines *)

(** Some line of [s] is an import line: its trimmed content begins with
    the import marker. *)
Definition has_import_line (s : text) : bool :=
  existsb (fun line => starts_with import_marker (trim line)) (split newline s).

(** No line is an import line or a fence line. *)
Definition lines_clean (s : text) : bool :=
  forallb (fun line => negb (starts_with import_marker (trim line)) &&
                       negb (starts_with fence_marker (trim line)))
    (split newline s).

End Notions.

(* ================================================================== *)
(** * Further notions: offending nodes, log events, fenced blocks *)
(* ================================================================== *)

Module PolicyNotions.
Import Validator.

Local Open Scope string_scope.

(** A node that breaks the policy, read off the tree alone: an identifier
    with a forbidden name, a member access whose property is an
    identifier with a forbidden member name, an import from a module
    other than [react]. *)
Definition violation (n : node) : bool :=
  match n with
  | Identifier name => has forbiddenIdentifiers name
  | MemberExpression _ (Identifier name) _ => has forbiddenMembers name
  | ImportDeclaration _ source => negb (String.eqb source "react")
  | _ => false
  end.

(** The reason recorded for such a node. *)
Definition message (n : node) : string :=
  match n with
  | Identifier name => "Forbidden identifier: " ++ name
  | MemberExpression _ (Identifier name) _ => "Forbidden member: " ++ name
  | ImportDeclaration _ source => "Forbidden import: " ++ source
  | _ => ""
  end.

End PolicyNotions.

Module LogNotions.
Import Text App.

Local Open Scope Z_scope.

(** The events that only move the cursor or change the editor. *)
Definition keeps_log (e : event) : bool :=
  match e with
  | Undo | Redo | Edit _ => true
  | Generate _ _ | ScreenshotGenerate _ _ | CommitSnapshot => false
  end.

(** The event is in step with the screen: it is handled at once, or it is
    a response whose request was made at the cursor now on screen. *)
Definition in_step (e : event) (st : state) : bool :=
  match e with
  | Generate index _ | ScreenshotGenerate index _ => index =? historyIndex st
  | CommitSnapshot | Undo | Redo | Edit _ => true
  end.

End LogNotions.

Module FenceNotions.
Import Text Patterns.

(** Some marker of [s] has another marker after it: [s] has a fenced
    block. *)
Fixpoint has_fenced_block (s : text) : bool :=
  (starts_with fence_marker s && includes fence_marker (skipn 3 s)) ||
  match s with
  | [] => false
  | _ :: s' => has_fenced_block s'
  end.

End FenceNotions.

Module QualifyNotions.
Import Text Patterns Notions.

(** The seven hook names of the specification. *)
Definition hook_names : list string :=
  ["useState"; "useEffect"; "useCallback"; "useMemo"; "useRef"; "useContext";
   "useReducer"]%string.

(** A bare reference to one of the names [hs] at a position. *)
Definition bare_any (hs : list text) (L y : text) : bool :=
  existsb (fun h => bare h L y) hs.

(** [React.] put in front of every bare reference to one of the names
    [hs], in one pass over the text; nothing else changes. *)
Fixpoint insert_at_bare_any (hs : list text) (L s : text) : text :=
  match s with
  | [] => []
  | c :: s' =>
      (if bare_any hs L s then react_dot else []) ++
      c :: insert_at_bare_any hs (c :: L) s'
  end.

(** The rewriting of the hook references in the words of the
    specification: every bare reference to one of the seven names gets
    [React.] in front. *)
Definition qualify_all_spec (s : text) : text :=
  insert_at_bare_any (map lit hook_names) [] s.

(** Two left contexts, nearest character first, that are the same or
    agree up to a [u] they both have: no test at the position tells them
    apart. *)
Definition same_left (L' L : text) : Prop :=
  L' = L \/ exists a X' X, L' = a ++ 117%N :: X' /\ L = a ++ 117%N :: X.

(** The part of the test for a bare reference that looks to the right. *)
Definition whole_word_at (g y : text) : bool :=
  starts_with g y && negb (wordc (skipn (length g) y)).

End QualifyNotions.

(* ================================================================== *)
(** * TextFacts: prefixes and occurrences *)
(* ================================================================== *)

Module TextFacts.
Import Text Notions.

Lemma starts_with_spec p s :
  starts_with p s = true <-> exists r, s = p ++ r.
Proof.
  revert s. induction p as [| x p IH]; intro s; cbn.
  - split; [intros _; now exists s | reflexivity].
  - destruct s as [| y s].
    + split; [discriminate | intros (r & E); discriminate].
    + rewrite andb_true_iff, N.eqb_eq, IH. split.
      * intros (-> & r & ->). now exists r.
      * intros (r & E). injection E as -> ->. split; [reflexivity | now exists r].
Qed.

Lemma starts_with_app p r : starts_with p (p ++ r) = true.
Proof. apply starts_with_spec. now exists r. Qed.

(** Only the first [length p] characters matter. *)
Lemma starts_with_long p t s :
  length p <= length t -> starts_with p (t ++ s) = starts_with p t.
Proof.
  revert t. induction p as [| x p IH]; intros t Hlen; [reflexivity |].
  destruct t as [| y t]; cbn in Hlen; [lia |].
  cbn. rewrite IH by lia. reflexivity.
Qed.

Lemma starts_with_skipn p s :
  starts_with p s = true -> s = p ++ skipn (length p) s.
Proof.
  intro H. apply starts_with_spec in H. destruct H as (r & ->).
  now rewrite skipn_app, skipn_all, Nat.sub_diag.
Qed.

(** ** Runs of characters *)

Lemma drop_while_app (p : N -> bool) c u v :
  p c = false -> drop_while p (u ++ c :: v) = drop_while p u ++ c :: v.
Proof.
  intro Hc. induction u as [| d u IH]; cbn.
  - now rewrite Hc.
  - destruct (p d); [exact IH | reflexivity].
Qed.

Lemma take_while_all (p : N -> bool) s : Forall (fun c => p c = true) (take_while p s).
Proof.
  induction s as [| c s IH]; cbn; [constructor |].
  destruct (p c) eqn:E; constructor; assumption.
Qed.

Lemma take_drop_while (p : N -> bool) s : take_while p s ++ drop_while p s = s.
Proof.
  induction s as [| c s IH]; cbn; [reflexivity |].
  destruct (p c); cbn; [now rewrite IH | reflexivity].
Qed.

Lemma app_eq_compatible (u v b y : text) :
  u ++ b = v ++ y -> compatible u v = true.
Proof.
  unfold compatible. revert v. induction u as [| c u IH]; intros v E; [reflexivity |].
  destruct v as [| d v]; [now rewrite orb_true_r |].
  cbn in E. injection E as -> E. cbn. rewrite N.eqb_refl. cbn. now apply IH.
Qed.

(** [includes] finds an occurrence. *)
Lemma includes_spec q s :
  includes q s = true <-> exists x y, s = x ++ q ++ y.
Proof.
  induction s as [| c s IH].
  - cbn. rewrite orb_false_r, starts_with_spec. split.
    + intros (r & E). now exists [], r.
    + intros (x & y & E). destruct x; [now exists y |]. discriminate.
  - cbn [includes]. rewrite orb_true_iff, starts_with_spec, IH. split.
    + intros [(r & E) | (x & y & E)].
      * now exists [], r.
      * exists (c :: x), y. now rewrite E.
    + intros (x & y & E). destruct x as [| d x].
      * left. now exists y.
      * right. injection E as _ E. now exists x, y.
Qed.

Lemma includes_false q s :
  includes q s = false <-> forall x y, s <> x ++ q ++ y.
Proof.
  split.
  - intros H x y E. assert (includes q s = true) by (apply includes_spec; eauto).
    congruence.
  - intro H. destruct (includes q s) eqn:E; [| reflexivity].
    apply includes_spec in E. destruct E as (x & y & E). now apply H in E.
Qed.

(** An occurrence that ends inside the left part lies in the left part. *)
Lemma occurrence_in_left (q L rest x y : text) :
  L ++ rest = x ++ q ++ y ->
  length x + length q <= length L ->
  L = x ++ q ++ skipn (length x + length q) L.
Proof.
  intros E H.
  rewrite <- (firstn_skipn (length x + length q) L) at 1.
  rewrite app_assoc. f_equal.
  apply (f_equal (firstn (length x + length q))) in E.
  rewrite firstn_app in E.
  replace (length x + length q - length L) with 0 in E by lia.
  cbn in E. rewrite app_nil_r in E. rewrite E, app_assoc.
  rewrite firstn_app, firstn_all2 by (rewrite length_app; lia).
  rewrite length_app, Nat.sub_diag. cbn. now rewrite app_nil_r.
Qed.

(** A part of a text has only occurrences of the text. *)
Lemma includes_part q a t b :
  includes q t = true -> includes q (a ++ t ++ b) = true.
Proof.
  rewrite !includes_spec. intros (x & y & ->).
  exists (a ++ x), (y ++ b). now rewrite <- !app_assoc.
Qed.

(** ** A replacement that cannot take part in an occurrence *)

Lemma overlapb_no_overlap q r : overlapb q r = false -> no_overlap q r.
Proof.
  intros Hb a b x y E. unfold overlapb in Hb. apply orb_false_iff in Hb.
  destruct Hb as [Hq Hr].
  destruct (Nat.le_gt_cases (length x + length q) (length a)) as [| H1]; [now left |].
  destruct (Nat.le_gt_cases (length a + length r) (length x)) as [| H2]; [now right |].
  exfalso. destruct (Nat.le_gt_cases (length x) (length a)) as [Hxa | Hxa].
  - (* the occurrence of [q] starts first *)
    assert (Hc : compatible (skipn (length a - length x) q) r = true).
    { apply (f_equal (skipn (length a))) in E.
      rewrite skipn_app, skipn_all, Nat.sub_diag in E. cbn in E.
      rewrite skipn_app, skipn_all2 in E by lia. cbn in E.
      rewrite skipn_app in E.
      symmetry in E. eapply app_eq_compatible. exact E. }
    assert (Hex : existsb (fun d => compatible (skipn d q) r) (seq 0 (length q)) = true).
    { apply existsb_exists. exists (length a - length x). split; [| exact Hc].
      apply in_seq. lia. }
    congruence.
  - (* the occurrence of [r] starts first *)
    assert (Hc : compatible (skipn (length x - length a) r) q = true).
    { apply (f_equal (skipn (length x))) in E.
      rewrite (skipn_app (length x) x), skipn_all, Nat.sub_diag in E. cbn in E.
      rewrite skipn_app, skipn_all2 in E by lia. cbn in E.
      rewrite skipn_app in E.
      eapply app_eq_compatible. exact E. }
    assert (Hex : existsb (fun d => compatible (skipn d r) q)
                    (seq 1 (length r - 1)) = true).
    { apply existsb_exists. exists (length x - length a). split; [| exact Hc].
      apply in_seq. lia. }
    congruence.
Qed.

Lemma existsb_false_In (A : Type) (f : A -> bool) (l : list A) :
  existsb f l = false -> forall x, In x l -> f x = false.
Proof.
  intros H x Hx. destruct (f x) eqn:E; [| reflexivity].
  assert (existsb f l = true) by (apply existsb_exists; eauto). congruence.
Qed.

Lemma harmfulb_harmless_overlap q p r :
  harmfulb q p r = false -> harmless_overlap q p r.
Proof.
  intros Hb a b x y E. unfold harmfulb in Hb. apply orb_false_iff in Hb.
  destruct Hb as [Hq Hr].
  destruct (Nat.le_gt_cases (length x + length q) (length a)) as [| H1]; [now left |].
  destruct (Nat.le_gt_cases (length a + length r) (length x)) as [| H2];
    [now right; left |].
  right; right. destruct (Nat.le_gt_cases (length x) (length a)) as [Hxa | Hxa].
  - (* the occurrence of [q] starts first *)
    assert (Hc : compatible (skipn (length a - length x) q) r = true).
    { apply (f_equal (skipn (length a))) in E.
      rewrite skipn_app, skipn_all, Nat.sub_diag in E. cbn in E.
      rewrite skipn_app, skipn_all2 in E by lia. cbn in E.
      rewrite skipn_app in E.
      symmetry in E. eapply app_eq_compatible. exact E. }
    assert (Hin : In (length a - length x) (seq 0 (length q))) by (apply in_seq; lia).
    pose proof (existsb_false_In _ _ Hq _ Hin) as Hd.
    cbv beta in Hd. rewrite Hc in Hd. cbn [andb] in Hd.
    apply negb_false_iff, andb_true_iff in Hd. destruct Hd as [Hpos Hp].
    apply Nat.ltb_lt in Hpos. split; [lia | exact Hp].
  - (* the occurrence of [r] starts first *)
    exfalso.
    assert (Hc : compatible (skipn (length x - length a) r) q = true).
    { apply (f_equal (skipn (length x))) in E.
      rewrite (skipn_app (length x) x), skipn_all, Nat.sub_diag in E. cbn in E.
      rewrite skipn_app, skipn_all2 in E by lia. cbn in E.
      rewrite skipn_app in E.
      eapply app_eq_compatible. exact E. }
    assert (Hex : existsb (fun d => compatible (skipn d r) q)
                    (seq 1 (length r - 1)) = true).
    { apply existsb_exists. exists (length x - length a). split; [| exact Hc].
      apply in_seq. lia. }
    congruence.
Qed.

(** A text without [q], followed by a text that [q] cannot overlap, has no
    [q]. *)
Lemma includes_app_false q t sfx :
  q <> [] -> no_overlap q sfx ->
  includes q t = false -> includes q (t ++ sfx) = false.
Proof.
  intros Hq Hno Ht. apply includes_false. intros x y E.
  assert (E' : t ++ sfx ++ [] = x ++ q ++ y) by now rewrite app_nil_r.
  destruct (Hno _ _ _ _ E') as [H | H].
  - (* the occurrence lies in [t] *)
    exact (proj1 (includes_false q t) Ht x _ (occurrence_in_left _ _ _ _ _ E H)).
  - apply (f_equal (@length N)) in E. rewrite !length_app in E.
    destruct q; [congruence | cbn in E; lia].
Qed.

End TextFacts.

(* ================================================================== *)
(** * RegexFacts: what the matcher does on the patterns of the sources *)
(* ================================================================== *)

Module RegexFacts.
Import Text Regex Notions TextFacts.

(** ** The equations of the matcher *)

Lemma m_Lit w k st :
  m (Lit w) k st = if starts_with w (after st) then k (advance w st) else None.
Proof. reflexivity. Qed.

Lemma m_Class p k bef aft g :
  m (Class p) k (MState bef aft g) =
  match aft with
  | c :: rest => if p c then k (MState (c :: bef) rest g) else None
  | [] => None
  end.
Proof. reflexivity. Qed.

Lemma m_Cat r1 r2 k st : m (Cat r1 r2) k st = m r1 (m r2 k) st.
Proof. reflexivity. Qed.

Lemma m_Opt r k st :
  m (Opt r) k st = match m r k st with Some res => Some res | None => k st end.
Proof. reflexivity. Qed.

Lemma m_Star r k st : m (Star r) k st = star_loop (m r) k (length (after st)) st.
Proof. reflexivity. Qed.

Lemma m_Plus r k st :
  m (Plus r) k st =
  m r (fun st' => star_loop (m r) k (length (after st')) st') st.
Proof. reflexivity. Qed.

Lemma m_LazyStar r k st :
  m (LazyStar r) k st = lazy_loop (m r) k (length (after st)) st.
Proof. reflexivity. Qed.

Lemma m_Group r k st :
  m (Group r) k st =
  m r (fun st' =>
         k (MState (before st') (after st')
              (Some (firstn (length (after st) - length (after st')) (after st)))))
    st.
Proof. reflexivity. Qed.

Lemma m_WordBoundary k st :
  m WordBoundary k st =
  if xorb (word_before st) (word_after st) then k st else None.
Proof. reflexivity. Qed.

Lemma m_NotBehind w k st :
  m (NotBehind w) k st = if starts_with (rev w) (before st) then None else k st.
Proof. reflexivity. Qed.

Lemma search_from_eq r bef aft :
  search_from r bef aft =
  match exec_at r bef aft with
  | Some st' =>
      Some (MatchResult (rev bef) (matched aft st') (group1 st') (after st'))
  | None =>
      match aft with
      | [] => None
      | c :: aft' => search_from r (c :: bef) aft'
      end
  end.
Proof. now destruct aft. Qed.

(** ** Literal patterns, replaced everywhere *)

Lemma exec_at_lit p bef aft :
  exec_at (Lit p) bef aft =
  if starts_with p aft
  then Some (MState (rev p ++ bef) (skipn (length p) aft) None)
  else None.
Proof. reflexivity. Qed.

Lemma replace_loop_lit fuel p r bef aft :
  p <> [] ->
  replace_loop (S fuel) (Lit p) r bef aft =
  if starts_with p aft
  then r ++ replace_loop fuel (Lit p) r (rev p ++ bef) (skipn (length p) aft)
  else match aft with
       | [] => []
       | c :: aft' => c :: replace_loop fuel (Lit p) r (c :: bef) aft'
       end.
Proof.
  intro Hp. cbn [replace_loop]. rewrite exec_at_lit.
  destruct (starts_with p aft) eqn:Hs; [| reflexivity].
  unfold shorter. cbn [after].
  apply starts_with_skipn in Hs.
  assert (Hlen : length aft = length p + length (skipn (length p) aft)).
  { rewrite Hs at 1. now rewrite length_app. }
  destruct p; [congruence |]. cbn [length] in *.
  replace (length (skipn (S (length p)) aft) <? length aft)%nat with true
    by (symmetry; apply Nat.ltb_lt; lia).
  reflexivity.
Qed.

(** Replacing every [p] by [r] leaves no [q], when an occurrence of [q]
    overlaps [r] only harmlessly and every [q] of the input starts with a
    [p].  [L] is the output so far. *)
Lemma replace_loop_lit_free q p r :
  q <> [] -> p <> [] -> harmless_overlap q p r ->
  forall fuel aft bef L,
    length aft < fuel ->
    (forall x y, L ++ aft = x ++ q ++ y -> length L <= length x) ->
    (forall t1 t2, aft = t1 ++ t2 -> starts_with q t2 = true ->
                   starts_with p t2 = true) ->
    forall x y, L ++ replace_loop fuel (Lit p) r bef aft <> x ++ q ++ y.
Proof.
  intros Hq Hp Hno. induction fuel as [| fuel IH]; intros aft bef L Hfuel HL HA x y;
    [lia |].
  rewrite replace_loop_lit by exact Hp.
  destruct (starts_with p aft) eqn:Hs.
  - (* a match: [r] is put out *)
    pose proof (starts_with_skipn _ _ Hs) as Eaft.
    set (aft' := skipn (length p) aft) in *.
    rewrite app_assoc. apply IH.
    + apply (f_equal (@length N)) in Eaft. rewrite length_app in Eaft.
      assert (0 < length p) by (destruct p; [congruence | cbn; lia]).
      cbn in Hfuel. lia.
    + intros x' y' E. rewrite <- app_assoc in E.
      destruct (Hno _ _ _ _ E) as [H | [H | [Hlt Hsw]]]; [| rewrite length_app; lia |].
      2:{ (* the occurrence runs into [r], and into [p] all the same *)
        exfalso.
        apply starts_with_spec in Hsw. destruct Hsw as (p' & Ep).
        assert (Hle : length L <= length x').
        { apply (HL x' (p' ++ aft')).
          rewrite Eaft, Ep.
          apply (f_equal (firstn (length L))) in E.
          rewrite firstn_app, firstn_all, Nat.sub_diag in E. cbn in E.
          rewrite app_nil_r in E.
          rewrite firstn_app, firstn_all2 in E by lia.
          rewrite firstn_app in E.
          replace (length L - length x' - length q) with 0 in E by lia.
          cbn in E. rewrite app_nil_r in E.
          rewrite E at 1. rewrite <- !app_assoc. f_equal.
          rewrite !app_assoc. f_equal. f_equal.
          apply firstn_skipn. }
        lia. }
      exfalso.
      pose proof (occurrence_in_left _ _ _ _ _ E H) as EL.
      assert (Hle : length L <= length x').
      { apply (HL x' (skipn (length x' + length q) L ++ aft)).
        rewrite EL at 1. now rewrite <- !app_assoc. }
      destruct q; [congruence | cbn in H; lia].
    + intros t1 t2 E. apply (HA (p ++ t1) t2).
      rewrite Eaft, E. now rewrite app_assoc.
  - destruct aft as [| c aft'].
    + (* the end of the input *)
      rewrite app_nil_r. intro E.
      assert (Hle : length L <= length x) by (apply (HL x y); now rewrite app_nil_r).
      apply (f_equal (@length N)) in E. rewrite !length_app in E.
      destruct q; [congruence | cbn in E; lia].
    + (* no match: the character is copied *)
      replace (L ++ c :: replace_loop fuel (Lit p) r (c :: bef) aft')
        with ((L ++ [c]) ++ replace_loop fuel (Lit p) r (c :: bef) aft')
        by now rewrite <- app_assoc.
      apply IH.
      * cbn in Hfuel. lia.
      * intros x' y' E. rewrite <- app_assoc in E. cbn in E.
        pose proof (HL _ _ E) as Hle. rewrite length_app. cbn.
        destruct (Nat.eq_dec (length L) (length x')) as [Heq | Hne]; [| lia].
        exfalso.
        apply (f_equal (skipn (length L))) in E.
        rewrite skipn_app, skipn_all, Nat.sub_diag in E. cbn in E.
        rewrite Heq, skipn_app, skipn_all, Nat.sub_diag in E. cbn in E.
        assert (Hqs : starts_with q (c :: aft') = true)
          by (apply starts_with_spec; now exists y').
        rewrite (HA [] (c :: aft') eq_refl Hqs) in Hs. discriminate.
      * intros t1 t2 E. apply (HA (c :: t1) t2). now rewrite E.
Qed.

(** After [s.replace(/p/g, r)] the text has no [q], when [q] cannot
    overlap [r] and [s] has no [q] except where a [p] starts. *)
Lemma replace_all_lit_free q p r s :
  q <> [] -> p <> [] -> harmless_overlap q p r ->
  (forall t1 t2, s = t1 ++ t2 -> starts_with q t2 = true ->
                 starts_with p t2 = true) ->
  includes q (replace_all (Lit p) r s) = false.
Proof.
  intros Hq Hp Hno HA. apply includes_false. intros x y.
  apply (@replace_loop_lit_free q p r Hq Hp Hno (S (length s)) s [] []);
    [lia | intros; cbn; lia | exact HA].
Qed.

(** The pattern itself is gone after its replacement. *)
Lemma replace_all_lit_removes p r s :
  p <> [] -> harmless_overlap p p r -> includes p (replace_all (Lit p) r s) = false.
Proof.
  intros Hp Hno. apply replace_all_lit_free; auto.
Qed.

(** What was absent stays absent. *)
Lemma replace_all_lit_keeps_free q p r s :
  q <> [] -> p <> [] -> harmless_overlap q p r ->
  includes q s = false -> includes q (replace_all (Lit p) r s) = false.
Proof.
  intros Hq Hp Hno Hfree. apply replace_all_lit_free; auto.
  intros t1 t2 E Hs. exfalso.
  apply starts_with_spec in Hs. destruct Hs as (rest & ->).
  exact (proj1 (includes_false q s) Hfree t1 rest E).
Qed.

End RegexFacts.

(* ================================================================== *)
(** * ValidatorFacts: what [validate] reports *)
(* ================================================================== *)

Module ValidatorFacts.
Import Validator ValidatorNotions.

Local Open Scope string_scope.

(** Induction over syntax trees, with the hypothesis for every sub-node of
    a list. *)
Lemma node_rect_all (P : node -> Prop) :
  (forall name, P (Identifier name)) ->
  (forall value, P (StringLiteral value)) ->
  (forall object property computed,
      P object -> P property -> P (MemberExpression object property computed)) ->
  (forall specifiers source,
      Forall P specifiers -> P (ImportDeclaration specifiers source)) ->
  (forall type children, Forall P children -> P (Other type children)) ->
  forall n, P n.
Proof.
  intros HI HS HM HD HO.
  fix self 1.
  intros [name | value | object property computed | specifiers source
         | type children].
  - apply HI.
  - apply HS.
  - apply HM; apply self.
  - apply HD. induction specifiers as [| s ss IH]; constructor; [apply self | exact IH].
  - apply HO. induction children as [| c cs IH]; constructor; [apply self | exact IH].
Qed.

Lemma enter_all_app ns1 ns2 v :
  enter_all (ns1 ++ ns2)%list v = enter_all ns2 (enter_all ns1 v).
Proof. apply fold_left_app. Qed.

(** The traversal calls the handlers on the sub-nodes in source order. *)
Lemma traverse_node_enter_all n :
  forall v, traverse_node n v = enter_all (subnodes n) v.
Proof.
  induction n as [name | value | object property computed IHo IHp
                 | specifiers source IH | type children IH]
    using node_rect_all; intro v.
  - reflexivity.
  - reflexivity.
  - cbn [traverse_node subnodes]. rewrite IHo, IHp.
    unfold enter_all at 3. cbn [fold_left]. fold (enter_all (subnodes object ++ subnodes property)%list).
    now rewrite enter_all_app.
  - cbn [traverse_node subnodes]. unfold enter_all at 1. cbn [fold_left].
    fold (enter_all (flat_map subnodes specifiers ++ [StringLiteral source])%list).
    rewrite enter_all_app. cbn.
    generalize (visit_ImportDeclaration source v) as w.
    induction IH as [| s ss Hs _ IHss]; intro w; [reflexivity |].
    cbn [flat_map]. rewrite enter_all_app, <- Hs. apply IHss.
  - cbn [traverse_node subnodes]. unfold enter_all at 1. cbn [fold_left].
    fold (enter_all (flat_map subnodes children)).
    cbn [enter]. generalize v as w.
    induction IH as [| s ss Hs _ IHss]; intro w; [reflexivity |].
    cbn [flat_map]. rewrite enter_all_app, <- Hs. apply IHss.
Qed.

Lemma traverse_enter_all ast v :
  traverse ast v = enter_all (nodes_of ast) v.
Proof.
  unfold traverse, nodes_of.
  revert v. induction (children_of ast) as [| c cs IH]; intro v; [reflexivity |].
  cbn [fold_left flat_map]. rewrite enter_all_app, <- traverse_node_enter_all.
  apply IH.
Qed.

Lemma enter_report n v :
  enter n v = Verdict (safe v && match report n with [] => true | _ => false end)
                (reasons v ++ report n).
Proof.
  destruct v as [s rs]. unfold report.
  destruct n as [name | value | object property computed | specifiers source
                | type children]; cbn [enter].
  - unfold visit_Identifier. destruct (has forbiddenIdentifiers name); cbn.
    + now rewrite andb_false_r.
    + now rewrite andb_true_r, app_nil_r.
  - cbn. now rewrite andb_true_r, app_nil_r.
  - unfold visit_MemberExpression. destruct (name_of property) as [name |].
    + destruct (has forbiddenMembers name); cbn.
      * now rewrite andb_false_r.
      * now rewrite andb_true_r, app_nil_r.
    + cbn. now rewrite andb_true_r, app_nil_r.
  - unfold visit_ImportDeclaration. destruct (negb (has allowedModules source)); cbn.
    + now rewrite andb_false_r.
    + now rewrite andb_true_r, app_nil_r.
  - cbn. now rewrite andb_true_r, app_nil_r.
Qed.

Lemma enter_all_reasons ns :
  forall v, reasons (enter_all ns v) = (reasons v ++ flat_map report ns)%list.
Proof.
  induction ns as [| n ns IH]; intro v; cbn.
  - now rewrite app_nil_r.
  - unfold enter_all in IH. rewrite IH, enter_report. cbn. now rewrite <- app_assoc.
Qed.

Lemma enter_all_safe ns :
  forall v, safe (enter_all ns v) =
            safe v && match flat_map report ns with [] => true | _ => false end.
Proof.
  induction ns as [| n ns IH]; intro v; cbn.
  - now rewrite andb_true_r.
  - unfold enter_all in IH. rewrite IH, enter_report. cbn.
    destruct (report n); cbn.
    + now rewrite andb_true_r.
    + now rewrite andb_false_r.
Qed.

(** The verdict is unsafe exactly when there is a reason. *)
Lemma validate_ast_safe ast :
  safe (validate_ast ast) =
  match reasons (validate_ast ast) with [] => true | _ => false end.
Proof.
  unfold validate_ast. rewrite traverse_enter_all, enter_all_safe, enter_all_reasons.
  reflexivity.
Qed.

Lemma validate_ast_reasons ast :
  reasons (validate_ast ast) = flat_map report (nodes_of ast).
Proof.
  unfold validate_ast. now rewrite traverse_enter_all, enter_all_reasons.
Qed.

Lemma has_In set x : has set x = true <-> In x set.
Proof.
  unfold has. rewrite existsb_exists. split.
  - intros (y & Hy & E). apply String.eqb_eq in E. now subst.
  - intro H. exists x. split; [exact H | apply String.eqb_refl].
Qed.

(** C1.  A source text that parses and has an identifier node with a
    forbidden name is judged unsafe, and the reasons name that
    identifier. *)
Theorem validate_reports_forbidden_identifier
    (parse : string -> outcome node) (code : string) (ast : node) (name : string) :
  parse code = Return ast ->
  In (Identifier name) (nodes_of ast) ->
  In name forbiddenIdentifiers ->
  exists reasons,
    validate parse code = Return (Verdict false reasons) /\
    In ("Forbidden identifier: " ++ name) reasons.
Proof.
  intros Hparse Hnode Hname.
  assert (Hin : In ("Forbidden identifier: " ++ name) (reasons (validate_ast ast))).
  { rewrite validate_ast_reasons. apply in_flat_map.
    exists (Identifier name). split; [exact Hnode |].
    unfold report. cbn [enter]. unfold visit_Identifier.
    rewrite (proj2 (has_In forbiddenIdentifiers name) Hname). cbn. now left. }
  exists (reasons (validate_ast ast)). split; [| exact Hin].
  unfold validate. rewrite Hparse. f_equal.
  pose proof (validate_ast_safe ast) as Hs.
  destruct (validate_ast ast) as [s rs]. cbn in *.
  destruct rs; [contradiction |]. now subst.
Qed.

Lemma validate_reports_forbidden_identifier_witness :
  exists reasons,
    validate example_parse "eval('1')" = Return (Verdict false reasons) /\
    In ("Forbidden identifier: " ++ "eval") reasons.
Proof.
  apply (@validate_reports_forbidden_identifier example_parse "eval('1')"
           ast_eval_call "eval").
  - reflexivity.
  - cbn. tauto.
  - cbn. tauto.
Defined.

(** C2.  A source text the parser rejects makes [validate] throw the parse
    error: it returns no verdict, neither a safe nor an unsafe one. *)
Theorem validate_throws_on_parse_error
    (parse : string -> outcome node) (code : string) (error : string) :
  parse code = Throw error ->
  validate parse code = Throw error /\
  forall safe reasons, validate parse code <> Return (Verdict safe reasons).
Proof.
  intro Hparse. unfold validate. rewrite Hparse. split; [reflexivity |].
  intros s rs. discriminate.
Qed.

Lemma validate_throws_on_parse_error_witness :
  validate example_parse "<div" = Throw "SyntaxError: Unexpected token" /\
  forall safe reasons, validate example_parse "<div" <> Return (Verdict safe reasons).
Proof.
  apply (@validate_throws_on_parse_error example_parse "<div"
           "SyntaxError: Unexpected token").
  reflexivity.
Defined.

Lemma report_member r n :
  In r (report n) ->
  forall name, r = "Forbidden member: " ++ name ->
  In name forbiddenMembers /\
  exists object computed, n = MemberExpression object (Identifier name) computed.
Proof.
  unfold report.
  destruct n as [x | value | object property computed | specifiers source
                | type children]; cbn [enter].
  - unfold visit_Identifier. destruct (has forbiddenIdentifiers x); cbn; [| tauto].
    intros [<- | []] name E. cbn in E. discriminate.
  - cbn. tauto.
  - unfold visit_MemberExpression.
    destruct property as [x | | | |]; cbn [name_of]; try (cbn; tauto).
    destruct (has forbiddenMembers x) eqn:Hx; cbn; [| tauto].
    intros [<- | []] name E. cbn in E. injection E as <-.
    split; [exact (proj1 (has_In forbiddenMembers x) Hx) | eauto].
  - unfold visit_ImportDeclaration.
    destruct (negb (has allowedModules source)); cbn; [| tauto].
    intros [<- | []] name E. cbn in E. discriminate.
  - cbn. tauto.
Qed.

(** C10, as the code has it.  A member access is flagged exactly when its
    property node is an identifier with a forbidden name, computed or not
    and whatever the object; the reasons of [validate] name a member exactly
    when the tree has such an access.  [x["localStorage"]], [window.location]
    and [document.write] pass; [x.window] and [x[window]] are flagged. *)
Theorem member_flagged_iff_property_identifier_forbidden :
  (forall object property computed,
      member_flagged (MemberExpression object property computed) = true <->
      exists name, property = Identifier name /\ In name forbiddenMembers) /\
  (forall ast name,
      In ("Forbidden member: " ++ name) (reasons (validate_ast ast)) <->
      In name forbiddenMembers /\
      exists object computed,
        In (MemberExpression object (Identifier name) computed) (nodes_of ast)) /\
  validate_ast ast_computed_string = Verdict true [] /\
  validate_ast ast_window_location = Verdict true [] /\
  validate_ast ast_document_write = Verdict true [] /\
  validate_ast ast_x_window = Verdict false ["Forbidden member: window"] /\
  validate_ast ast_computed_identifier = Verdict false ["Forbidden member: window"].
Proof.
  split; [| split; [| repeat split; reflexivity]].
  - intros object property computed. cbn [member_flagged enter].
    unfold visit_MemberExpression.
    destruct property as [x | | | |]; cbn [name_of];
      try (cbn; split; [discriminate | intros (name & E & _); discriminate]).
    destruct (has forbiddenMembers x) eqn:Hx; cbn.
    + split; [| reflexivity]. intros _. exists x.
      split; [reflexivity | exact (proj1 (has_In forbiddenMembers x) Hx)].
    + split; [discriminate |]. intros (name & E & Hin). injection E as <-.
      pose proof (proj2 (has_In forbiddenMembers x) Hin). congruence.
  - intros ast name. rewrite validate_ast_reasons, in_flat_map. split.
    + intros (n & Hn & Hr).
      destruct (report_member _ Hr eq_refl) as (Hin & object & computed & ->).
      split; [exact Hin | now exists object, computed].
    + intros (Hin & object & computed & Hn).
      exists (MemberExpression object (Identifier name) computed). split; [exact Hn |].
      unfold report. cbn [enter]. unfold visit_MemberExpression. cbn [name_of].
      rewrite (proj2 (has_In forbiddenMembers name) Hin). cbn. now left.
Qed.

(** C10, as the claim words it, fails on [x[window]]: the access is computed
    and it is flagged. *)
Lemma computed_identifier_access_is_flagged :
  member_flagged (MemberExpression (Identifier "x") (Identifier "window") true) = true /\
  validate_ast ast_computed_identifier = Verdict false ["Forbidden member: window"] /\
  ~ non_computed_forbidden_property
      (MemberExpression (Identifier "x") (Identifier "window") true).
Proof.
  split; [reflexivity | split; [reflexivity |]].
  intros [H _]. discriminate.
Qed.

End ValidatorFacts.

(* ================================================================== *)
(** * HistoryFacts: the snapshot history of [App] *)
(* ================================================================== *)

Module HistoryFacts.
Import Text App HistoryNotions.

Local Open Scope Z_scope.

Lemma at_index_in_range (h : list text) (i : Z) :
  0 <= i < Z.of_nat (length h) ->
  exists s, at_index h i = Str s /\ nth_error h (Z.to_nat i) = Some s.
Proof.
  intro Hi. unfold at_index.
  destruct (i <? 0) eqn:Hneg; [lia |].
  destruct (nth_error h (Z.to_nat i)) as [s |] eqn:Hnth; [now exists s |].
  apply nth_error_None in Hnth. lia.
Qed.

Lemma commitToHistory_cursor index code st :
  historyIndex (commitToHistory index code st) =
  Z.of_nat (length (history (commitToHistory index code st))) - 1.
Proof. reflexivity. Qed.

(** Whatever cursor the function closed over, it leaves the cursor on the
    last entry. *)
Lemma commitToHistory_well_formed index code st :
  editableCode st <> Undefined -> well_formed (commitToHistory index code st).
Proof.
  intro He. split; [right | exact He].
  rewrite commitToHistory_cursor. cbn [commitToHistory history].
  rewrite length_app. cbn [length]. lia.
Qed.

Lemma handleUndo_well_formed st : well_formed st -> well_formed (handleUndo st).
Proof.
  intros [Hc He]. unfold handleUndo.
  destruct (historyIndex st <=? 0) eqn:Hle; [now split |].
  apply Z.leb_gt in Hle.
  destruct Hc as [[_ Hi] | Hi]; [lia |].
  split; cbn.
  - right. lia.
  - destruct (@at_index_in_range (history st) (historyIndex st - 1)) as (s & -> & _);
      [lia | discriminate].
Qed.

Lemma handleRedo_well_formed st : well_formed st -> well_formed (handleRedo st).
Proof.
  intros [Hc He]. unfold handleRedo.
  destruct ((historyIndex st <? 0) ||
            (historyIndex st >=? Z.of_nat (length (history st)) - 1)) eqn:Hstay;
    [now split |].
  apply orb_false_iff in Hstay. destruct Hstay as [H0 H1].
  apply Z.ltb_ge in H0. rewrite Z.geb_leb in H1. apply Z.leb_gt in H1.
  split; cbn.
  - right. lia.
  - destruct (@at_index_in_range (history st) (historyIndex st + 1)) as (s & -> & _);
      [lia | discriminate].
Qed.

Lemma handle_well_formed e st : well_formed st -> well_formed (handle e st).
Proof.
  intros Hwf. destruct e as [index code | index code | | | | s]; cbn [handle].
  - unfold handleGenerate. destruct (is_empty code).
    + destruct Hwf as [Hc _]. split; [exact Hc | discriminate].
    + apply commitToHistory_well_formed. discriminate.
  - unfold handleScreenshotGenerate. destruct (is_empty code); [exact Hwf |].
    apply commitToHistory_well_formed. discriminate.
  - unfold handleCommitSnapshot. destruct (editableCode st) as [| s] eqn:He; [exact Hwf |].
    destruct (is_empty (trim s)); [exact Hwf |].
    apply commitToHistory_well_formed. rewrite He. discriminate.
  - now apply handleUndo_well_formed.
  - now apply handleRedo_well_formed.
  - destruct Hwf as [Hc _]. split; [exact Hc | discriminate].
Qed.

Lemma initial_well_formed : well_formed initial.
Proof. split; [left; split; reflexivity | discriminate]. Qed.

Lemma run_well_formed es : forall st, well_formed st -> well_formed (run es st).
Proof.
  induction es as [| e es IH]; intros st Hwf; [exact Hwf |].
  cbn. apply IH. now apply handle_well_formed.
Qed.

Lemma reachable_well_formed es : well_formed (run es initial).
Proof. apply run_well_formed, initial_well_formed. Qed.

(** C8.  After any sequence of events from the initial state the cursor
    is between [-1] and the last index, and it is an index of the log
    whenever the log is not empty. *)
Theorem history_cursor_within_bounds (es : list event) :
  -1 <= historyIndex (run es initial)
     < Z.of_nat (length (history (run es initial))) /\
  (Z.of_nat (length (history (run es initial))) > 0 ->
   Z.of_nat (length (history (run es initial)))
     >= historyIndex (run es initial) + 1) /\
  (Z.of_nat (length (history (run es initial))) > 0 ->
   0 <= historyIndex (run es initial)
     < Z.of_nat (length (history (run es initial)))).
Proof.
  destruct (reachable_well_formed es) as [[[Hh Hi] | Hi] _].
  - rewrite Hh, Hi. cbn. lia.
  - lia.
Qed.

(** C6, on the input where the code departs from it.  The log is [a; b]
    with the cursor on [b] when Generate is clicked; undo moves the cursor
    to [a] while the request is under way; the response then pushes [c]
    with the [commitToHistory] of the click, which truncates the latest log
    at the cursor [1] it closed over: the log becomes [a; b; c] and [b], the
    entry after the cursor, is not discarded (a push at the cursor on
    screen gives [a; c]).  Likewise two requests made at the same cursor:
    the second response discards what the first one pushed. *)
Theorem stale_push_keeps_redo_branch :
  history (run [Generate (-1) (lit "a"); Generate 0 (lit "b")] initial) =
    [lit "a"; lit "b"] /\
  historyIndex (run [Generate (-1) (lit "a"); Generate 0 (lit "b")] initial) = 1 /\
  historyIndex
    (run [Generate (-1) (lit "a"); Generate 0 (lit "b"); Undo] initial) = 0 /\
  history
    (run [Generate (-1) (lit "a"); Generate 0 (lit "b"); Undo;
          Generate 1 (lit "c")] initial) = [lit "a"; lit "b"; lit "c"] /\
  historyIndex
    (run [Generate (-1) (lit "a"); Generate 0 (lit "b"); Undo;
          Generate 1 (lit "c")] initial) = 2 /\
  history
    (push (lit "c")
       (run [Generate (-1) (lit "a"); Generate 0 (lit "b"); Undo] initial)) =
    [lit "a"; lit "c"] /\
  history
    (run [Generate (-1) (lit "a"); Generate 0 (lit "p");
          ScreenshotGenerate 0 (lit "s")] initial) = [lit "a"; lit "s"].
Proof. repeat split. Qed.

(** C7.  On the empty log [undo] shows nothing and changes nothing; when
    the cursor is past the first entry, [redo] right after [undo] shows the
    snapshot that was at the cursor and puts the cursor back. *)
Theorem redo_after_undo_restores_snapshot (es : list event) :
  (history (run es initial) = [] ->
   undo (run es initial) = (run es initial, None)) /\
  (0 < historyIndex (run es initial) ->
   exists s,
     current (run es initial) = Str s /\
     snd (redo (fst (undo (run es initial)))) = Some (Str s) /\
     historyIndex (fst (redo (fst (undo (run es initial))))) =
       historyIndex (run es initial)).
Proof.
  pose proof (reachable_well_formed es) as Hwf.
  set (st := run es initial) in *.
  destruct Hwf as [Hc _]. split.
  - intro Hh. destruct Hc as [[_ Hi] | Hi]; [| rewrite Hh in Hi; cbn in Hi; lia].
    unfold undo, shown, handleUndo. rewrite Hi. cbn. now rewrite Hi.
  - intro Hpos. destruct Hc as [[_ Hi] | Hi]; [lia |].
    destruct (@at_index_in_range (history st) (historyIndex st)) as (s & Hs & _);
      [lia |].
    exists s. split; [exact Hs |].
    unfold undo, redo, shown. cbn [fst snd]. unfold handleUndo.
    replace (historyIndex st <=? 0) with false by (symmetry; apply Z.leb_gt; lia).
    unfold handleRedo. cbn [historyIndex history].
    replace (historyIndex st - 1 <? 0) with false by (symmetry; apply Z.ltb_ge; lia).
    replace (historyIndex st - 1 >=? Z.of_nat (length (history st)) - 1) with false
      by (symmetry; rewrite Z.geb_leb; apply Z.leb_gt; lia).
    cbn [orb historyIndex editableCode].
    replace (historyIndex st - 1 + 1) with (historyIndex st) by lia.
    replace (historyIndex st =? historyIndex st - 1) with false
      by (symmetry; apply Z.eqb_neq; lia).
    split; [now rewrite Hs | reflexivity].
Qed.

End HistoryFacts.

(* ================================================================== *)
(** * HookFacts: the qualification of hook names in [App] *)
(* ================================================================== *)

Module HookFacts.
Import Text Regex Patterns Notions QualifyNotions TextFacts RegexFacts.

Lemma bare_from_false h s :
  forall L,
    bare_from h L s = false <->
    forall x y, s = x ++ y -> bare h (rev x ++ L) y = false.
Proof.
  induction s as [| c s IH]; intro L; cbn [bare_from].
  - rewrite orb_false_r. split.
    + intros H x y E. destruct x; [| discriminate]. destruct y; [| discriminate].
      exact H.
    + intro H. exact (H [] [] eq_refl).
  - rewrite orb_false_iff, IH. split.
    + intros [H0 H] x y E. destruct x as [| d x].
      * cbn in E. subst y. exact H0.
      * injection E as -> E. cbn [rev]. rewrite <- app_assoc. now apply H.
    + intro H. split.
      * exact (H [] (c :: s) eq_refl).
      * intros x y E. specialize (H (c :: x) y). cbn [rev] in H.
        rewrite <- app_assoc in H. apply H. now rewrite E.
Qed.

Lemma starts_with_firstn p L :
  starts_with p L = starts_with p (firstn (length p) L).
Proof.
  revert L. induction p as [| c p IH]; intro L; [reflexivity |].
  destruct L as [| d L]; [reflexivity |]. cbn. now rewrite IH.
Qed.

(** Only the six characters on the left matter. *)
Lemma bare_left h L1 L2 y :
  firstn 6 L1 = firstn 6 L2 -> bare h L1 y = bare h L2 y.
Proof.
  intro E. unfold bare.
  rewrite (starts_with_firstn (rev react_dot) L1),
    (starts_with_firstn (rev react_dot) L2).
  change (length (rev react_dot)) with 6. rewrite E.
  replace (wordc L2) with (wordc L1); [reflexivity |].
  destruct L1, L2; cbn in E |- *; congruence.
Qed.

Lemma firstn_cons_eq (c : N) n L1 L2 :
  firstn (S n) L1 = firstn (S n) L2 -> firstn (S n) (c :: L1) = firstn (S n) (c :: L2).
Proof.
  intro E. cbn [firstn]. f_equal.
  apply (f_equal (firstn n)) in E.
  now rewrite !firstn_firstn, !Nat.min_l in E by lia.
Qed.

Lemma is_space_not_word c : is_space c = true -> is_word c = false.
Proof.
  unfold is_space, is_word, is_alpha. intro H.
  destruct (N.leb_spec 65 c), (N.leb_spec c 90), (N.leb_spec 97 c),
    (N.leb_spec c 122), (N.leb_spec 48 c), (N.leb_spec c 57),
    (N.eqb_spec c 95); cbn; try reflexivity; exfalso;
    repeat match type of H with
      | context [(?a =? ?b)%N] => destruct (N.eqb_spec a b); try lia
      | context [(?a <=? ?b)%N] => destruct (N.leb_spec a b); try lia
      end; cbn in H; discriminate.
Qed.

Lemma wordc_rev_word w L :
  w <> [] -> forallb is_word w = true -> wordc (rev w ++ L) = true.
Proof.
  intros Hw Hall. destruct (exists_last Hw) as (w' & c & ->).
  rewrite rev_app_distr. cbn. rewrite forallb_app in Hall.
  apply andb_true_iff in Hall. destruct Hall as [_ Hc]. cbn in Hc.
  now rewrite andb_true_r in Hc.
Qed.

Lemma starts_with_app_l p y z :
  starts_with p y = true -> starts_with p (y ++ z) = true.
Proof.
  intro H. apply starts_with_spec in H. destruct H as (r & ->).
  rewrite <- app_assoc. apply starts_with_app.
Qed.

Section HookLike.

Variable h : text.
Hypothesis Hh : hook_like h = true.

Lemma hook_like_length : 6 <= length h.
Proof.
  unfold hook_like in Hh. apply andb_true_iff in Hh. destruct Hh as [H _].
  apply andb_true_iff in H. destruct H as [H _]. now apply Nat.leb_le in H.
Qed.

Lemma hook_like_words : forallb is_word h = true.
Proof.
  unfold hook_like in Hh. apply andb_true_iff in Hh. destruct Hh as [H _].
  apply andb_true_iff in H. now destruct H.
Qed.

Lemma hook_like_head : exists h', h = 117%N :: h'.
Proof.
  unfold hook_like in Hh. apply andb_true_iff in Hh. destruct Hh as [_ H].
  apply starts_with_spec in H. destruct H as (h' & ->). now exists h'.
Qed.

Lemma hook_like_nonempty : h <> [].
Proof. destruct hook_like_head as (h' & ->). discriminate. Qed.

Lemma hook_starts_word y : starts_with h y = true -> wordc y = true.
Proof.
  destruct hook_like_head as (h' & E). rewrite E. destruct y as [| c y]; [discriminate |].
  cbn [starts_with wordc]. intro H. apply andb_true_iff in H. destruct H as [H _].
  apply N.eqb_eq in H. now subst c.
Qed.

Lemma hook_ends_word L : wordc (rev h ++ L) = true.
Proof. apply wordc_rev_word; [apply hook_like_nonempty | apply hook_like_words]. Qed.

(** No bare reference right after a word character. *)
Lemma bare_after_word L y : wordc L = true -> bare h L y = false.
Proof.
  intro H. unfold bare. rewrite H. cbn. now rewrite andb_false_r.
Qed.

(** Inside a word nothing is inserted. *)
Lemma insert_at_bare_word w :
  forallb is_word w = true ->
  forall L s,
    wordc L = true ->
    insert_at_bare h L (w ++ s) = w ++ insert_at_bare h (rev w ++ L) s.
Proof.
  induction w as [| a w IH]; intros Hw L s HL; [reflexivity |].
  cbn [forallb] in Hw. apply andb_true_iff in Hw. destruct Hw as [Ha Hw].
  cbn [app insert_at_bare]. rewrite (bare_after_word _ _ HL). cbn [app].
  rewrite IH by assumption. cbn [rev]. now rewrite <- app_assoc.
Qed.

(** At a bare reference [React.] is inserted, and the name is copied. *)
Lemma insert_at_bare_hook L s :
  bare h L (h ++ s) = true ->
  insert_at_bare h L (h ++ s) =
  react_dot ++ h ++ insert_at_bare h (rev h ++ L) s.
Proof.
  intro Hb. destruct hook_like_head as (h' & E).
  pose proof hook_like_words as Hall. rewrite E in Hall.
  cbn [forallb] in Hall. apply andb_true_iff in Hall. destruct Hall as [Hu Hall].
  assert (Hc : h ++ s = 117%N :: h' ++ s) by now rewrite E.
  rewrite Hc at 1. cbn [insert_at_bare]. rewrite <- Hc, Hb.
  rewrite insert_at_bare_word by assumption.
  replace (rev h ++ L) with (rev h' ++ 117%N :: L)
    by (rewrite E; cbn [rev]; now rewrite <- app_assoc).
  now rewrite E at 2.
Qed.

End HookLike.

(** ** One replacement *)

Section Pass.

Variable hook : string.
Let h : text := lit hook.
Hypothesis Hh : hook_like h = true.

(** The pattern matches exactly at the bare references. *)
Lemma exec_at_hook L y :
  exec_at (hook_re hook) L y =
  if bare h L y then Some (MState (rev h ++ L) (skipn (length h) y) None)
  else None.
Proof.
  unfold exec_at, hook_re, str. fold h.
  rewrite m_Cat, m_NotBehind, m_Cat, m_WordBoundary, m_Cat, m_Lit.
  cbn [before after]. unfold bare. change (lit "React.") with react_dot.
  destruct (starts_with (rev react_dot) L); [reflexivity |].
  unfold word_before, word_after. cbn [before after].
  fold (wordc L). fold (wordc y). cbn [negb andb].
  destruct (starts_with h y) eqn:Hs.
  - rewrite (hook_starts_word h Hh _ Hs), m_WordBoundary.
    unfold word_before, word_after, advance. cbn [before after group1].
    fold (wordc (rev h ++ L)). fold (wordc (skipn (length h) y)).
    rewrite (hook_ends_word h Hh).
    destruct (wordc L), (wordc (skipn (length h) y)); reflexivity.
  - rewrite andb_false_r. now destruct (xorb (wordc L) (wordc y)).
Qed.

Local Abbreviation loop fuel L s :=
  (replace_loop fuel (hook_re hook) (react_dot ++ h) L s).

Lemma loop_eq fuel L s :
  loop (S fuel) L s =
  if bare h L s
  then (react_dot ++ h) ++ loop fuel (rev h ++ L) (skipn (length h) s)
  else match s with
       | [] => []
       | c :: s' => c :: loop fuel (c :: L) s'
       end.
Proof.
  cbn [replace_loop]. rewrite exec_at_hook.
  destruct (bare h L s) eqn:Hb; [| reflexivity].
  unfold shorter. cbn [after].
  assert (Hs : starts_with h s = true).
  { unfold bare in Hb. apply andb_true_iff in Hb. destruct Hb as [Hb _].
    apply andb_true_iff in Hb. now destruct Hb. }
  pose proof (hook_like_length h Hh) as Hlen.
  apply starts_with_skipn in Hs. apply (f_equal (@length N)) in Hs.
  rewrite length_app in Hs.
  replace (length (skipn (length h) s) <? length s)%nat with true
    by (symmetry; apply Nat.ltb_lt; lia).
  reflexivity.
Qed.

(** The replacement loop computes the insertion. *)
Lemma loop_insert_at_bare :
  forall fuel s L, length s < fuel -> loop fuel L s = insert_at_bare h L s.
Proof.
  induction fuel as [| fuel IH]; intros s L Hfuel; [lia |].
  rewrite loop_eq. destruct (bare h L s) eqn:Hb.
  - assert (Hs : starts_with h s = true).
    { unfold bare in Hb. apply andb_true_iff in Hb. destruct Hb as [Hb _].
      apply andb_true_iff in Hb. now destruct Hb. }
    apply starts_with_skipn in Hs.
    pose proof (hook_like_length h Hh) as Hlen.
    rewrite IH
      by (apply (f_equal (@length N)) in Hs; rewrite length_app in Hs; lia).
    rewrite Hs at 2. rewrite insert_at_bare_hook; [| exact Hh | now rewrite <- Hs].
    now rewrite <- app_assoc.
  - destruct s as [| c s]; [reflexivity |].
    cbn [insert_at_bare]. rewrite Hb. cbn [app].
    rewrite IH by (cbn in Hfuel; lia). reflexivity.
Qed.

(** After a word character the scan copies: a word at the front of the
    output is at the front of the input, with the same kind of character
    after it. *)
Lemma loop_copies_word w :
  forallb is_word w = true ->
  forall fuel L s,
    length s < fuel -> wordc L = true ->
    starts_with w (loop fuel L s) = true ->
    starts_with w s = true /\
    wordc (skipn (length w) (loop fuel L s)) = wordc (skipn (length w) s).
Proof.
  induction w as [| a w IH]; intros Hw fuel L s Hfuel HL Hs;
    (destruct fuel as [| fuel]; [lia |]);
    rewrite loop_eq, (bare_after_word h _ _ HL) in *.
  - split; [reflexivity |]. now destruct s.
  - destruct s as [| c s]; [discriminate |].
    cbn [forallb] in Hw. apply andb_true_iff in Hw. destruct Hw as [Ha Hw].
    cbn [starts_with] in Hs |- *. apply andb_true_iff in Hs. destruct Hs as [Hac Hs].
    rewrite Hac. cbn [andb length skipn].
    apply N.eqb_eq in Hac. subst c.
    apply IH; [exact Hw | cbn in Hfuel; lia | exact Ha | exact Hs].
Qed.

Variable g : text.
Hypothesis Hg : hook_like g = true.

(** No position inside a replacement is a bare reference, except its
    start, to be looked at with the text on its left. *)
Lemma no_bare_inside_replacement x l Lout rest :
  react_dot ++ h = x ++ l -> l <> [] -> x <> [] ->
  bare g (rev x ++ Lout) (l ++ rest) = false.
Proof.
  intros E Hl Hx. destruct (hook_like_head g Hg) as (g' & Eg).
  apply app_eq_app in E. destruct E as (l' & [[E1 E2] | [E1 E2]]).
  - (* the position is inside [React.] *)
    destruct l' as [| c l'].
    + rewrite app_nil_r in E1. subst x. unfold bare.
      now rewrite starts_with_app.
    + assert (Hc : c <> 117%N).
      { assert (Hin : In c react_dot) by (rewrite E1; apply in_elt).
        intros ->. vm_compute in Hin. intuition discriminate. }
      unfold bare. subst l. rewrite Eg. cbn [app starts_with].
      apply N.eqb_neq in Hc. rewrite N.eqb_sym, Hc. cbn [andb].
      now rewrite andb_false_r.
  - (* the position is inside the hook name *)
    destruct l' as [| c l'].
    + rewrite app_nil_r in E1. subst x. unfold bare.
      now rewrite starts_with_app.
    + subst x. rewrite rev_app_distr, <- app_assoc.
      apply bare_after_word.
      apply wordc_rev_word; [discriminate |].
      pose proof (hook_like_words h Hh) as Hall. rewrite E2, forallb_app in Hall.
      apply andb_true_iff in Hall. now destruct Hall.
Qed.

(** No bare reference to [g] is left by the replacement of [h], when the
    only bare references to [g] in the input are those to [h] itself.
    [Lin] is the input on the left, [Lout] the output so far. *)
Lemma loop_no_bare :
  forall fuel s Lin Lout,
    length s < fuel ->
    firstn 6 Lin = firstn 6 Lout ->
    (forall x y, s = x ++ y -> bare g (rev x ++ Lin) y = true -> g = h) ->
    forall x y, loop fuel Lin s = x ++ y -> bare g (rev x ++ Lout) y = false.
Proof.
  induction fuel as [| fuel IH]; intros s Lin Lout Hfuel HL Hin x y E; [lia |].
  rewrite loop_eq in E. destruct (bare h Lin s) eqn:Hb.
  - (* a match: the replacement is put out *)
    assert (Hs : starts_with h s = true).
    { unfold bare in Hb. apply andb_true_iff in Hb. destruct Hb as [Hb _].
      apply andb_true_iff in Hb. now destruct Hb. }
    apply starts_with_skipn in Hs.
    set (s' := skipn (length h) s) in *.
    assert (Hnext :
      forall x' y', loop fuel (rev h ++ Lin) s' = x' ++ y' ->
               bare g (rev x' ++ rev (react_dot ++ h) ++ Lout) y' = false).
    { apply IH.
      - pose proof (hook_like_length h Hh). apply (f_equal (@length N)) in Hs.
        rewrite length_app in Hs. lia.
      - rewrite rev_app_distr, <- app_assoc.
        pose proof (hook_like_length h Hh).
        rewrite !(firstn_app 6 (rev h)), length_rev.
        replace (6 - length h) with 0 by lia. reflexivity.
      - intros x' y' E' Hb'. apply (Hin (h ++ x') y').
        + rewrite Hs, E'. now rewrite app_assoc.
        + now rewrite rev_app_distr, <- app_assoc. }
    apply app_eq_app in E. destruct E as (l & [[E1 E2] | [E1 E2]]).
    + destruct l as [| c l].
      * rewrite app_nil_r in E1. subst x y.
        apply (Hnext [] _ eq_refl).
      * destruct x as [| d x].
        -- (* the start of the replacement *)
           cbn [rev app]. subst y.
           vm_compute in E1. injection E1 as <- _.
           destruct (hook_like_head g Hg) as (g' & Eg). unfold bare.
           rewrite Eg. cbn [app starts_with].
           change (117 =? 82)%N with false. cbn [andb].
           now rewrite andb_false_r.
        -- subst y. apply no_bare_inside_replacement; [exact E1 | | ]; discriminate.
    + subst x. rewrite rev_app_distr, <- app_assoc. now apply Hnext.
  - destruct s as [| c s].
    + (* the end of the input *)
      destruct x; [| discriminate]. destruct y; [| discriminate].
      destruct (hook_like_head g Hg) as (g' & ->). unfold bare. cbn.
      now rewrite andb_false_r.
    + destruct x as [| d x].
      * (* the position itself: a bare reference here was one in the input *)
        cbn [app] in E. subst y. cbn [rev app].
        destruct (bare g Lout (c :: loop fuel (c :: Lin) s)) eqn:Hbg; [| reflexivity].
        exfalso.
        assert (Hbin : bare g Lin (c :: s) = true).
        { rewrite (bare_left g _ _ _ HL). unfold bare in Hbg |- *.
          apply andb_true_iff in Hbg. destruct Hbg as [Hbg Hafter].
          apply andb_true_iff in Hbg. destruct Hbg as [Hleft Hsw]. rewrite Hleft.
          destruct (hook_like_head g Hg) as (g' & Eg).
          pose proof (hook_like_words g Hg) as Hall. rewrite Eg in *.
          cbn [forallb] in Hall. apply andb_true_iff in Hall.
          destruct Hall as [Hu Hall].
          cbn [starts_with length skipn] in Hsw, Hafter |- *.
          apply andb_true_iff in Hsw. destruct Hsw as [Hc Hsw]. rewrite Hc.
          apply N.eqb_eq in Hc. subst c.
          destruct (@loop_copies_word g' Hall fuel (117%N :: Lin) s) as [H1 H2];
            [cbn in Hfuel; lia | exact Hu | exact Hsw |].
          rewrite H1, <- H2, Hafter. reflexivity. }
        assert (g = h) by (apply (Hin [] (c :: s) eq_refl); exact Hbin).
        subst g. congruence.
      * injection E as <- E. cbn [rev]. rewrite <- app_assoc. cbn [app].
        apply (IH s (c :: Lin) (c :: Lout)).
        -- cbn in Hfuel. lia.
        -- now apply firstn_cons_eq.
        -- intros x' y' E' Hb'. apply (Hin (c :: x') y').
           ++ now rewrite E'.
           ++ cbn [rev]. now rewrite <- app_assoc.
        -- exact E.
Qed.

End Pass.

(** ** The seven replacements and the final [trim] *)

Lemma qualify_no_bare hook g s :
  hook_like (lit hook) = true -> hook_like g = true ->
  g = lit hook \/ has_bare_reference g s = false ->
  has_bare_reference g (App.qualify hook s) = false.
Proof.
  intros Hh Hg Hin. unfold has_bare_reference. apply bare_from_false.
  intros x y E.
  apply (@loop_no_bare hook Hh g Hg (S (length s)) s [] []);
    [lia | reflexivity | | exact E].
  intros x' y' E' Hb. destruct Hin as [-> | Hfree]; [reflexivity |].
  unfold has_bare_reference in Hfree.
  rewrite (proj1 (bare_from_false g s []) Hfree x' y' E') in Hb. discriminate.
Qed.

Lemma qualify_is_insertion hook code :
  hook_like (lit hook) = true ->
  App.qualify hook code = qualify_spec (lit hook) code.
Proof.
  intro Hh. apply (@loop_insert_at_bare hook Hh (S (length code)) code []). lia.
Qed.

Lemma fold_qualify_no_bare hs :
  Forall (fun hook => hook_like (lit hook) = true) hs ->
  forall code g,
    hook_like (lit g) = true ->
    In g hs \/ has_bare_reference (lit g) code = false ->
    has_bare_reference (lit g)
      (fold_left (fun code hook => App.qualify hook code) hs code) = false.
Proof.
  induction 1 as [| hook hs Hhook _ IH]; intros code g Hg Hin; cbn [fold_left].
  - destruct Hin as [[] | Hfree]. exact Hfree.
  - apply IH; [exact Hg |].
    destruct Hin as [[-> | Hin] | Hfree].
    + right. apply qualify_no_bare; auto.
    + now left.
    + right. apply qualify_no_bare; auto.
Qed.

Lemma qualify_hooks_eq code :
  App.qualify_hooks code =
  fold_left (fun code hook => App.qualify hook code) App.hooks code.
Proof. reflexivity. Qed.

Lemma hooks_hook_like :
  Forall (fun hook => hook_like (lit hook) = true) App.hooks.
Proof. repeat constructor. Qed.

Lemma all_space_rev ws :
  Forall (fun c => is_space c = true) ws ->
  Forall (fun c => is_space c = true) (rev ws).
Proof. intro H. apply Forall_forall. intros c Hc. apply in_rev in Hc.
       revert c Hc. now apply Forall_forall. Qed.

(** [trim] takes white space off both ends. *)
Lemma trim_decompose t :
  exists w1 w2,
    t = w1 ++ trim t ++ w2 /\
    Forall (fun c => is_space c = true) w1 /\
    Forall (fun c => is_space c = true) w2.
Proof.
  exists (take_while is_space t),
    (rev (take_while is_space (rev (drop_while is_space t)))).
  split; [| split].
  - unfold trim. rewrite <- rev_app_distr, take_drop_while, rev_involutive.
    now rewrite take_drop_while.
  - apply take_while_all.
  - apply all_space_rev, take_while_all.
Qed.

Lemma wordc_spaces ws : Forall (fun c => is_space c = true) ws -> wordc ws = false.
Proof. intros [| c ws' Hc _]; [reflexivity |]. now apply is_space_not_word. Qed.

Lemma wordc_app_spaces a ws :
  Forall (fun c => is_space c = true) ws -> wordc (a ++ ws) = wordc a.
Proof. intro H. destruct a; [now apply wordc_spaces | reflexivity]. Qed.

Lemma starts_with_before_spaces p a ws :
  Forall (fun c => is_space c = false) p ->
  Forall (fun c => is_space c = true) ws ->
  starts_with p (a ++ ws) = starts_with p a.
Proof.
  intros Hp Hws. revert a. induction Hp as [| c p Hc _ IH]; intro a; [reflexivity |].
  destruct a as [| d a]; cbn [app starts_with].
  - destruct Hws as [| e ws He _]; [reflexivity |]. cbn [starts_with].
    destruct (N.eqb_spec c e) as [-> |]; [congruence | reflexivity].
  - now rewrite IH.
Qed.

Lemma trim_no_bare g t :
  hook_like g = true ->
  has_bare_reference g t = false -> has_bare_reference g (trim t) = false.
Proof.
  intros Hg Hfree. unfold has_bare_reference in *.
  destruct (trim_decompose t) as (w1 & w2 & Et & H1 & H2).
  apply bare_from_false. intros x y E. rewrite app_nil_r.
  pose proof (proj1 (bare_from_false g t []) Hfree (w1 ++ x) (y ++ w2)) as Hb.
  rewrite app_nil_r in Hb.
  assert (Et' : t = (w1 ++ x) ++ y ++ w2)
    by (rewrite Et at 1; rewrite E; now rewrite <- !app_assoc).
  specialize (Hb Et'). clear Et'.
  destruct (bare g (rev x) y) eqn:Hxy; [| reflexivity].
  rewrite <- Hb. unfold bare in Hxy |- *.
  apply andb_true_iff in Hxy. destruct Hxy as [Hxy Hafter].
  apply andb_true_iff in Hxy. destruct Hxy as [Hxy Hsw].
  apply andb_true_iff in Hxy. destruct Hxy as [Hbehind Hleft].
  rewrite rev_app_distr.
  rewrite (@starts_with_before_spaces (rev react_dot) (rev x) (rev w1)), Hbehind;
    [| repeat constructor | now apply all_space_rev].
  rewrite (wordc_app_spaces (rev x)), Hleft by now apply all_space_rev.
  rewrite (starts_with_app_l _ _ w2 Hsw).
  apply starts_with_skipn in Hsw. rewrite Hsw in *.
  rewrite <- app_assoc, skipn_app, skipn_all, Nat.sub_diag in *. cbn [app skipn] in *.
  set (y' := skipn (length g) y) in *.
  rewrite wordc_app_spaces by exact H2. now rewrite Hafter.
Qed.

(** ** What the replacements cannot make *)

(** Putting [React.] in front of the bare references makes no occurrence
    of a text that no [React.] can overlap.  [Lo] is the output so far. *)
Lemma insert_at_bare_free q h :
  q <> [] -> no_overlap q react_dot ->
  forall s L Lo,
    (forall x y, Lo ++ s = x ++ q ++ y -> length Lo <= length x) ->
    (forall t1 t2, s = t1 ++ t2 -> starts_with q t2 = false) ->
    forall x y, Lo ++ insert_at_bare h L s <> x ++ q ++ y.
Proof.
  intros Hq Hno. induction s as [| c s IH]; intros L Lo HL HA x y.
  - cbn [insert_at_bare]. intro E. pose proof (HL x y E) as Hle.
    rewrite app_nil_r in E. apply (f_equal (@length N)) in E.
    rewrite !length_app in E. destruct q; [congruence | cbn in E; lia].
  - cbn [insert_at_bare].
    assert (Hhere : forall Lo',
               (forall x y, Lo' ++ c :: s = x ++ q ++ y -> length Lo' <= length x) ->
               forall x y, (Lo' ++ [c]) ++ s = x ++ q ++ y ->
                      length (Lo' ++ [c]) <= length x).
    { intros Lo' HL' x' y' E. rewrite <- app_assoc in E. cbn [app] in E.
      pose proof (HL' _ _ E) as Hle. rewrite length_app. cbn [length].
      destruct (Nat.eq_dec (length Lo') (length x')) as [Heq | Hne]; [| lia].
      exfalso. apply (f_equal (skipn (length Lo'))) in E.
      rewrite skipn_app, skipn_all, Nat.sub_diag in E. cbn in E.
      rewrite Heq, skipn_app, skipn_all, Nat.sub_diag in E. cbn in E.
      assert (Hs : starts_with q (c :: s) = true)
        by (apply starts_with_spec; now exists y').
      rewrite (HA [] (c :: s) eq_refl) in Hs. discriminate. }
    assert (HA' : forall t1 t2, s = t1 ++ t2 -> starts_with q t2 = false).
    { intros t1 t2 E. apply (HA (c :: t1) t2). now rewrite E. }
    destruct (bare h L (c :: s)).
    + replace (Lo ++ react_dot ++ c :: insert_at_bare h (c :: L) s)
        with (((Lo ++ react_dot) ++ [c]) ++ insert_at_bare h (c :: L) s)
        by now rewrite <- !app_assoc.
      apply IH; [| exact HA'].
      apply Hhere. intros x' y' E. rewrite <- app_assoc in E.
      destruct (Hno _ _ _ _ E) as [H | H]; [| rewrite length_app; exact H].
      exfalso. pose proof (occurrence_in_left _ _ _ _ _ E H) as EL.
      assert (Hle : length Lo <= length x').
      { apply (HL x' (skipn (length x' + length q) Lo ++ c :: s)).
        rewrite EL at 1. now rewrite <- !app_assoc. }
      destruct q; [congruence | cbn in H; lia].
    + cbn [app].
      replace (Lo ++ c :: insert_at_bare h (c :: L) s)
        with ((Lo ++ [c]) ++ insert_at_bare h (c :: L) s)
        by now rewrite <- app_assoc.
      apply IH; [| exact HA']. now apply Hhere.
Qed.

Lemma qualify_keeps_free q hook s :
  hook_like (lit hook) = true -> q <> [] -> no_overlap q react_dot ->
  includes q s = false -> includes q (App.qualify hook s) = false.
Proof.
  intros Hh Hq Hno Hfree. rewrite qualify_is_insertion by exact Hh.
  apply includes_false. intros x y.
  apply (@insert_at_bare_free q (lit hook) Hq Hno s [] []).
  - intros; cbn; lia.
  - intros t1 t2 E. destruct (starts_with q t2) eqn:Hs; [| reflexivity].
    exfalso. apply starts_with_spec in Hs. destruct Hs as (rest & ->).
    exact (proj1 (includes_false q s) Hfree t1 rest E).
Qed.

Lemma qualify_hooks_keeps_free q code :
  q <> [] -> no_overlap q react_dot ->
  includes q code = false -> includes q (App.qualify_hooks code) = false.
Proof.
  intros Hq Hno. rewrite qualify_hooks_eq.
  pose proof hooks_hook_like as Hall. revert code.
  induction Hall as [| hook hs Hhook _ IH]; intros code Hfree; [exact Hfree |].
  cbn [fold_left]. apply IH. now apply qualify_keeps_free.
Qed.

Lemma trim_keeps_free q t : includes q t = false -> includes q (trim t) = false.
Proof.
  intro Hfree. destruct (includes q (trim t)) eqn:E; [| reflexivity].
  destruct (trim_decompose t) as (w1 & w2 & Et & _ & _).
  rewrite Et, (includes_part q w1 _ w2 E) in Hfree. discriminate.
Qed.

(** ** The seven replacements as one pass *)

(** *** Left contexts *)

Lemma same_left_wordc L' L : same_left L' L -> wordc L' = wordc L.
Proof.
  intros [-> | (a & X' & X & -> & ->)]; [reflexivity |].
  now destruct a.
Qed.

Lemma starts_with_past p u :
  ~ In u p ->
  forall a X, length a < length p -> starts_with p (a ++ u :: X) = false.
Proof.
  induction p as [| x p IH]; intros Hu a X Hlen; [cbn in Hlen; lia |].
  destruct a as [| y a]; cbn [app starts_with].
  - destruct (N.eqb_spec x u) as [-> | Hne]; [exfalso; apply Hu; now left |].
    reflexivity.
  - rewrite IH; [apply andb_false_r | cbn in Hu; tauto | cbn in Hlen; lia].
Qed.

Lemma same_left_react L' L :
  same_left L' L ->
  starts_with (rev react_dot) L' = starts_with (rev react_dot) L.
Proof.
  intros [-> | (a & X' & X & -> & ->)]; [reflexivity |].
  destruct (Nat.le_gt_cases (length (rev react_dot)) (length a)) as [Hle | Hgt].
  - now rewrite !starts_with_long by exact Hle.
  - rewrite !starts_with_past; try exact Hgt; try reflexivity;
      intro H; vm_compute in H; intuition discriminate.
Qed.

Lemma same_left_cons c L' L : same_left L' L -> same_left (c :: L') (c :: L).
Proof.
  intros [-> | (a & X' & X & -> & ->)]; [now left |].
  right. now exists (c :: a), X', X.
Qed.

Lemma same_left_bare g L' L y : same_left L' L -> bare g L' y = bare g L y.
Proof.
  intro H. unfold bare. now rewrite (same_left_wordc H), (same_left_react H).
Qed.

(** *** The test to the right *)

Lemma bare_whole_word g L y :
  bare g L y =
  negb (starts_with (rev react_dot) L) && negb (wordc L) && whole_word_at g y.
Proof. unfold bare, whole_word_at. now rewrite <- !andb_assoc. Qed.

(** Two texts with a common front, neither going on with a word character
    after it, have the same whole words at their start. *)
Lemma whole_word_at_front g :
  forallb is_word g = true ->
  forall w t1 t2,
    wordc t1 = false -> wordc t2 = false ->
    whole_word_at g (w ++ t1) = whole_word_at g (w ++ t2).
Proof.
  intros Hg w. revert g Hg.
  induction w as [| x w IH]; intros g Hg t1 t2 H1 H2.
  - cbn [app]. destruct g as [| a g].
    + unfold whole_word_at. cbn. now rewrite H1, H2.
    + cbn [forallb] in Hg. apply andb_true_iff in Hg. destruct Hg as [Ha _].
      assert (Hf : forall t, wordc t = false -> whole_word_at (a :: g) t = false).
      { intros t Ht. unfold whole_word_at. destruct t as [| d t]; [reflexivity |].
        cbn [wordc] in Ht. cbn [starts_with].
        destruct (N.eqb_spec a d) as [-> | Hne]; [congruence | reflexivity]. }
      now rewrite !Hf.
  - destruct g as [| a g].
    + reflexivity.
    + cbn [forallb] in Hg. apply andb_true_iff in Hg. destruct Hg as [_ Hg].
      unfold whole_word_at. cbn [app starts_with length skipn].
      rewrite <- !andb_assoc. f_equal. exact (IH g Hg t1 t2 H1 H2).
Qed.

(** *** One pass for several names *)

Lemma bare_any_app hs1 hs2 L y :
  bare_any (hs1 ++ hs2) L y = bare_any hs1 L y || bare_any hs2 L y.
Proof. apply existsb_app. Qed.

Lemma bare_any_after_word hs L y : wordc L = true -> bare_any hs L y = false.
Proof.
  intro H. unfold bare_any. induction hs as [| h hs IH]; [reflexivity |].
  cbn [existsb]. rewrite IH. unfold bare. rewrite H. cbn.
  now rewrite andb_false_r.
Qed.

Lemma bare_any_head hs L c s :
  Forall (fun h => hook_like h = true) hs ->
  bare_any hs L (c :: s) = true -> c = 117%N.
Proof.
  intros Hall H. unfold bare_any in H. apply existsb_exists in H.
  destruct H as (h & Hin & Hb).
  pose proof (proj1 (Forall_forall _ _) Hall h Hin) as Hh. cbn beta in Hh.
  destruct (hook_like_head h Hh) as (h' & ->).
  unfold bare in Hb. apply andb_true_iff in Hb. destruct Hb as [Hb _].
  apply andb_true_iff in Hb. destruct Hb as [_ Hs].
  cbn [starts_with] in Hs. apply andb_true_iff in Hs. destruct Hs as [Hc _].
  apply N.eqb_eq in Hc. now subst c.
Qed.

Lemma insert_at_bare_any_nil L s : insert_at_bare_any [] L s = s.
Proof.
  revert L. induction s as [| c s IH]; intro L; [reflexivity |].
  cbn. now rewrite IH.
Qed.

(** Inside a word nothing is inserted. *)
Lemma insert_at_bare_any_word hs w :
  forallb is_word w = true ->
  forall L s,
    wordc L = true ->
    insert_at_bare_any hs L (w ++ s) = w ++ insert_at_bare_any hs (rev w ++ L) s.
Proof.
  induction w as [| a w IH]; intros Hw L s HL; [reflexivity |].
  cbn [forallb] in Hw. apply andb_true_iff in Hw. destruct Hw as [Ha Hw].
  cbn [app insert_at_bare_any]. rewrite (@bare_any_after_word hs L _ HL). cbn [app].
  rewrite IH by assumption. cbn [rev]. now rewrite <- app_assoc.
Qed.

(** After a word character, what is inserted further on does not go on
    with a word character where the text does not. *)
Lemma insert_at_bare_any_wordc hs L t :
  wordc L = true -> wordc t = false -> wordc (insert_at_bare_any hs L t) = false.
Proof.
  intros HL Ht. destruct t as [| d t]; [reflexivity |].
  cbn [insert_at_bare_any]. now rewrite (@bare_any_after_word hs L _ HL).
Qed.

Lemma take_while_word w : forallb is_word (take_while is_word w) = true.
Proof.
  induction w as [| c w IH]; [reflexivity |]. cbn [take_while].
  destruct (is_word c) eqn:Hc; [| reflexivity]. cbn [forallb]. now rewrite Hc.
Qed.

Lemma drop_while_word w : wordc (drop_while is_word w) = false.
Proof.
  induction w as [| c w IH]; [reflexivity |]. cbn [drop_while].
  destruct (is_word c) eqn:Hc; [exact IH | exact Hc].
Qed.

(** The pass for the names [hs] leaves the whole words at a position that
    is not a bare reference to one of them as they are. *)
Lemma whole_word_at_inserted hs g L c s :
  forallb is_word g = true ->
  whole_word_at g (c :: insert_at_bare_any hs (c :: L) s) =
  whole_word_at g (c :: s).
Proof.
  intro Hg. destruct (is_word c) eqn:Hc.
  - rewrite <- (take_drop_while is_word s) at 1 2.
    rewrite insert_at_bare_any_word by (apply take_while_word || exact Hc).
    change (c :: take_while is_word s ++
            insert_at_bare_any hs (rev (take_while is_word s) ++ c :: L)
              (drop_while is_word s))
      with ((c :: take_while is_word s) ++
            insert_at_bare_any hs (rev (take_while is_word s) ++ c :: L)
              (drop_while is_word s)).
    rewrite (@whole_word_at_front g Hg (c :: take_while is_word s)
               (insert_at_bare_any hs (rev (take_while is_word s) ++ c :: L)
                  (drop_while is_word s))
               (drop_while is_word s)).
    + cbn [app]. now rewrite take_drop_while.
    + apply insert_at_bare_any_wordc; [| apply drop_while_word].
      replace (rev (take_while is_word s) ++ c :: L)
        with (rev (c :: take_while is_word s) ++ L)
        by (cbn [rev]; now rewrite <- app_assoc).
      apply wordc_rev_word; [discriminate |].
      cbn [forallb]. now rewrite Hc, take_while_word.
    + apply drop_while_word.
  - apply (@whole_word_at_front g Hg []); [| exact Hc].
    cbn [insert_at_bare_any wordc]. exact Hc.
Qed.

(** The pass for [g] copies an inserted [React.] and the [u] after it. *)
Lemma insert_at_bare_past_react g L R :
  hook_like g = true ->
  insert_at_bare g L (react_dot ++ 117%N :: R) =
  react_dot ++ 117%N :: insert_at_bare g (117%N :: rev react_dot ++ L) R.
Proof.
  intro Hg. destruct (hook_like_head g Hg) as (g' & ->).
  assert (Hno : forall L0 c y, c <> 117%N -> bare (117%N :: g') L0 (c :: y) = false).
  { intros L0 c y Hc. unfold bare. cbn [starts_with].
    destruct (N.eqb_spec 117 c) as [E |]; [congruence |].
    cbn [andb]. now rewrite andb_false_r. }
  change (react_dot ++ 117%N :: R)
    with (82%N :: 101%N :: 97%N :: 99%N :: 116%N :: 46%N :: 117%N :: R).
  cbn [insert_at_bare]. rewrite !Hno by discriminate. cbn [app].
  replace (bare (117%N :: g') (46%N :: 116%N :: 99%N :: 97%N :: 101%N :: 82%N :: L)
             (117%N :: R)) with false; [reflexivity |].
  symmetry. unfold bare.
  change (46%N :: 116%N :: 99%N :: 97%N :: 101%N :: 82%N :: L)
    with (rev react_dot ++ L).
  now rewrite starts_with_app.
Qed.

(** The pass for one more name after the pass for the names [hs] is the
    one pass for all of them. *)
Lemma insert_at_bare_after_any hs g :
  Forall (fun h => hook_like h = true) hs -> hook_like g = true ->
  forall s L' L,
    same_left L' L ->
    insert_at_bare g L' (insert_at_bare_any hs L s) =
    insert_at_bare_any (hs ++ [g]) L s.
Proof.
  intros Hhs Hg. induction s as [| c s IH]; intros L' L HL; [reflexivity |].
  cbn [insert_at_bare_any]. rewrite bare_any_app.
  destruct (bare_any hs L (c :: s)) eqn:Hb.
  - pose proof (bare_any_head L c s Hhs Hb) as ->. cbn [orb].
    rewrite insert_at_bare_past_react by exact Hg. f_equal. f_equal.
    apply IH. right. now exists [], (rev react_dot ++ L'), L.
  - cbn [orb app insert_at_bare bare_any existsb]. rewrite orb_false_r.
    rewrite (@same_left_bare g L' L _ HL), !bare_whole_word.
    rewrite whole_word_at_inserted by (apply hook_like_words; exact Hg).
    f_equal. f_equal. apply IH. now apply same_left_cons.
Qed.

Lemma fold_qualify_one_pass hs :
  Forall (fun hook => hook_like (lit hook) = true) hs ->
  forall done code,
    Forall (fun hook => hook_like (lit hook) = true) done ->
    fold_left (fun code hook => App.qualify hook code) hs
      (insert_at_bare_any (map lit done) [] code) =
    insert_at_bare_any (map lit (done ++ hs)) [] code.
Proof.
  induction 1 as [| hook hs Hhook _ IH]; intros done code Hdone; cbn [fold_left].
  - now rewrite app_nil_r.
  - rewrite qualify_is_insertion by exact Hhook. unfold qualify_spec.
    rewrite (@insert_at_bare_after_any (map lit done) (lit hook)).
    + change (map lit done ++ [lit hook]) with (map lit done ++ map lit [hook]).
      rewrite <- map_app, IH.
      * now rewrite <- app_assoc.
      * apply Forall_app. split; [exact Hdone | now constructor].
    + apply Forall_forall. intros h Hin. apply in_map_iff in Hin.
      destruct Hin as (hook0 & <- & Hin0).
      exact (proj1 (Forall_forall _ _) Hdone hook0 Hin0).
    + exact Hhook.
    + now left.
Qed.

(** The seven replacements together are the one pass of the
    specification. *)
Lemma qualify_hooks_one_pass code :
  App.qualify_hooks code = qualify_all_spec code.
Proof.
  rewrite qualify_hooks_eq.
  rewrite <- (insert_at_bare_any_nil [] code) at 1.
  exact (@fold_qualify_one_pass App.hooks hooks_hook_like [] code (Forall_nil _)).
Qed.

(** C5.  The seven replacements of [normalizeGeneratedCode] are those of
    the seven hook names of the specification, and together they put
    [React.] in front of every bare reference to one of the names and
    change nothing else: the result of [normalizeGeneratedCode] is the
    text left by the line filter and the export replacement, with every
    bare reference so rewritten, and trimmed.  Each single replacement
    does the same for its name; in the result no reference to one of
    the names is bare; and in [reactLiveScope] both [React] and the hook
    name are keys, the hook name bound to that member of [React]. *)
Theorem hooks_are_qualified_for_scope (raw : text) :
  App.hooks = hook_names /\
  (forall code, App.qualify_hooks code = qualify_all_spec code) /\
  App.normalizeGeneratedCode raw =
    (if is_empty raw then []
     else trim (qualify_all_spec (App.strip_exports (App.strip_lines raw)))) /\
  Forall (fun hook =>
            (forall code, App.qualify hook code = qualify_spec (lit hook) code) /\
            has_bare_reference (lit hook) (App.normalizeGeneratedCode raw) = false /\
            In hook App.scope_keys /\
            In (hook, ("React." ++ hook)%string) App.reactLiveScope) hook_names /\
  In "React"%string App.scope_keys.
Proof.
  split; [reflexivity |]. split; [exact qualify_hooks_one_pass |].
  split.
  { unfold App.normalizeGeneratedCode. destruct (is_empty raw); [reflexivity |].
    now rewrite qualify_hooks_one_pass. }
  split; [| now left].
  change hook_names with App.hooks.
  apply Forall_forall. intros hook Hin.
  assert (Hlike : hook_like (lit hook) = true)
    by (revert hook Hin; apply Forall_forall, hooks_hook_like).
  split; [intro code; now apply qualify_is_insertion |].
  split; [| cbn in Hin; intuition (subst; cbn; tauto)].
  unfold App.normalizeGeneratedCode. destruct (is_empty raw).
  - destruct (hook_like_head (lit hook) Hlike) as (h' & E).
    unfold has_bare_reference, bare_from, bare. rewrite E. reflexivity.
  - apply trim_no_bare; [exact Hlike |]. rewrite qualify_hooks_eq.
    apply fold_qualify_no_bare; [apply hooks_hook_like | exact Hlike | now left].
Qed.

End HookFacts.

(* ================================================================== *)
(** * ImportFacts: import lines under the later steps of [App] *)
(* ================================================================== *)

Module ImportFacts.
Import Text Regex Patterns Notions TextFacts HookFacts.

(** ** [trim] and the import test *)

Lemma nonspace_cons c s : nonspace (c :: s) = negb (is_space c) || nonspace s.
Proof. reflexivity. Qed.

Lemma nonspace_false s :
  nonspace s = false -> Forall (fun c => is_space c = true) s.
Proof.
  induction s as [| c s IH]; [constructor |].
  rewrite nonspace_cons. intro H. apply orb_false_iff in H. destruct H as [Hc Hs].
  constructor; [now apply negb_false_iff in Hc | now apply IH].
Qed.

Lemma nonspace_app a b : nonspace (a ++ b) = nonspace a || nonspace b.
Proof. apply existsb_app. Qed.

Lemma nonspace_rev s : nonspace (rev s) = nonspace s.
Proof.
  induction s as [| c s IH]; [reflexivity |].
  cbn [rev]. rewrite nonspace_app, IH, !nonspace_cons. cbn [nonspace existsb].
  rewrite orb_false_r. apply orb_comm.
Qed.

Lemma drop_while_app_nonspace u v :
  nonspace u = true ->
  drop_while is_space (u ++ v) = drop_while is_space u ++ v.
Proof.
  induction u as [| c u IH]; [discriminate |].
  rewrite nonspace_cons. cbn [app drop_while].
  destruct (is_space c); [exact IH | reflexivity].
Qed.

Lemma drop_while_app_spaces u v :
  Forall (fun c => is_space c = true) u ->
  drop_while is_space (u ++ v) = drop_while is_space v.
Proof.
  induction 1 as [| c u Hc _ IH]; [reflexivity |]. cbn. now rewrite Hc.
Qed.

Lemma trim_end_app_nonspace a b :
  nonspace b = true -> trim_end (a ++ b) = a ++ trim_end b.
Proof.
  intro Hb. unfold trim_end. rewrite rev_app_distr.
  rewrite drop_while_app_nonspace by now rewrite nonspace_rev.
  now rewrite rev_app_distr, rev_involutive.
Qed.

Lemma trim_end_app_spaces a b :
  Forall (fun c => is_space c = true) b -> trim_end (a ++ b) = trim_end a.
Proof.
  intro Hb. unfold trim_end. rewrite rev_app_distr.
  now rewrite drop_while_app_spaces by now apply all_space_rev.
Qed.

Lemma trim_end_prefix s :
  exists w, s = trim_end s ++ w.
Proof.
  exists (rev (take_while is_space (rev s))). unfold trim_end.
  now rewrite <- rev_app_distr, take_drop_while, rev_involutive.
Qed.

(** A line is an import line when, after its leading white space, it
    starts with the marker and goes on with something that is no white
    space. *)
Lemma import_line_spec line :
  import_line line =
  starts_with import_marker (drop_while is_space line) &&
  nonspace (skipn 7 (drop_while is_space line)).
Proof.
  unfold import_line. change (trim line) with (trim_end (drop_while is_space line)).
  set (l1 := drop_while is_space line).
  destruct (starts_with import_marker l1) eqn:Hs.
  - apply starts_with_skipn in Hs. change (length import_marker) with 7 in Hs.
    set (r := skipn 7 l1) in *. rewrite Hs. cbn [andb].
    destruct (nonspace r) eqn:Hr.
    + rewrite trim_end_app_nonspace by exact Hr. apply starts_with_app.
    + rewrite trim_end_app_spaces by now apply nonspace_false. reflexivity.
  - cbn [andb]. destruct (starts_with import_marker (trim_end l1)) eqn:Ht;
      [| reflexivity].
    destruct (trim_end_prefix l1) as (w & E).
    rewrite E, (starts_with_app_l _ _ w Ht) in Hs. discriminate.
Qed.

(** ** The insertion of [React.] *)

Lemma inserted_insert_at_bare h :
  hook_like h = true -> forall s L, inserted (insert_at_bare h L s) s.
Proof.
  intros Hh. induction s as [| c s IH]; intro L; cbn [insert_at_bare].
  - constructor.
  - destruct (bare h L (c :: s)) eqn:Hb.
    + apply inserted_block; [constructor; apply IH |].
      unfold bare in Hb. apply andb_true_iff in Hb. destruct Hb as [Hb _].
      apply andb_true_iff in Hb. destruct Hb as [_ Hs].
      destruct (hook_like_head h Hh) as (h' & Eh). rewrite Eh in Hs.
      cbn [starts_with] in Hs. apply andb_true_iff in Hs. destruct Hs as [Hc _].
      apply N.eqb_eq in Hc. now subst c.
    + cbn [app]. constructor. apply IH.
Qed.

Lemma inserted_nonspace s' s :
  inserted s' s -> nonspace s' = true -> nonspace s = true.
Proof.
  induction 1 as [| c s' s _ IH | s' s _ _ Hu]; [discriminate | |].
  - rewrite !nonspace_cons. intro H. apply orb_true_iff in H.
    destruct H as [H | H].
    + now rewrite H.
    + rewrite (IH H). apply orb_true_r.
  - intros _. destruct s as [| c s]; [discriminate |]. injection Hu as ->.
    reflexivity.
Qed.

(** A text without [R] at the front of the output is at the front of the
    input. *)
Lemma inserted_starts_with w :
  ~ In 82%N w ->
  forall s' s,
    inserted s' s -> starts_with w s' = true ->
    starts_with w s = true /\
    (nonspace (skipn (length w) s') = true ->
     nonspace (skipn (length w) s) = true).
Proof.
  induction w as [| a w IH]; intros Hw s' s Hins Hs.
  - split; [reflexivity |]. cbn [length skipn]. now apply inserted_nonspace.
  - destruct Hins as [| c s' s Hins | s' s Hins Hu].
    + discriminate.
    + cbn [starts_with] in Hs |- *. apply andb_true_iff in Hs.
      destruct Hs as [Hac Hs]. rewrite Hac. cbn [andb length skipn].
      apply IH; [| exact Hins | exact Hs]. cbn in Hw. tauto.
    + exfalso. apply Hw. cbn [starts_with react_dot] in Hs.
      change (react_dot ++ s') with (82%N :: skipn 1 react_dot ++ s') in Hs.
      cbn [starts_with] in Hs. apply andb_true_iff in Hs. destruct Hs as [Hac _].
      apply N.eqb_eq in Hac. subst a. now left.
Qed.

Lemma inserted_import_line s' s :
  inserted s' s -> import_line s' = true -> import_line s = true.
Proof.
  rewrite !import_line_spec.
  induction 1 as [| c s' s Hins IH | s' s Hins _ Hu]; [discriminate | |].
  - cbn [drop_while]. destruct (is_space c); [exact IH |].
    intro H. apply andb_true_iff in H. destruct H as [Hs Hn].
    destruct (@inserted_starts_with import_marker) with (s' := c :: s') (s := c :: s)
      as [H1 H2]; [| now constructor | exact Hs |].
    + vm_compute. intuition discriminate.
    + change (length import_marker) with 7 in H2. now rewrite H1, H2.
  - intros H. exfalso.
    change (react_dot ++ s') with (82%N :: skipn 1 react_dot ++ s') in H.
    cbn [drop_while] in H. change (is_space 82) with false in H. cbv iota in H.
    discriminate.
Qed.

Lemma split_cons sep c s :
  split sep (c :: s) =
  if (c =? sep)%N then [] :: split sep s
  else (c :: hd [] (split sep s)) :: tl (split sep s).
Proof. cbn [split]. destruct (c =? sep)%N; [reflexivity |]. now destruct (split sep s). Qed.

Lemma split_not_nil sep s : split sep s <> [].
Proof.
  destruct s as [| c s]; [discriminate |]. rewrite split_cons.
  destruct (c =? sep)%N; discriminate.
Qed.

Lemma split_hd_tl sep s : split sep s = hd [] (split sep s) :: tl (split sep s).
Proof. pose proof (split_not_nil sep s). now destruct (split sep s). Qed.

(** Line by line, the output is the input with insertions. *)
Lemma inserted_split s' s :
  inserted s' s -> Forall2 inserted (split newline s') (split newline s).
Proof.
  induction 1 as [| c s' s Hins IH | s' s Hins IH Hu].
  - repeat constructor.
  - rewrite !split_cons. destruct (c =? newline)%N.
    + constructor; [constructor | exact IH].
    + rewrite (split_hd_tl newline s'), (split_hd_tl newline s) in IH.
      inversion IH; subst. constructor; [now constructor | assumption].
  - destruct s as [| u s]; [discriminate |]. injection Hu as ->.
    assert (E : split newline (react_dot ++ s') =
                (react_dot ++ hd [] (split newline s')) :: tl (split newline s')).
    { unfold react_dot. cbn [lit map list_ascii_of_string app].
      rewrite !split_cons. cbn [N_of_ascii]. reflexivity. }
    rewrite E. rewrite split_cons in IH |- *.
    change (117 =? newline)%N with false in *. cbv iota in *.
    rewrite (split_hd_tl newline s') in IH. inversion IH; subst.
    constructor; [| assumption].
    apply inserted_block; [assumption | reflexivity].
Qed.

Lemma has_import_line_inserted s' s :
  inserted s' s -> has_import_line s' = true -> has_import_line s = true.
Proof.
  intros Hins. apply inserted_split in Hins. unfold has_import_line.
  fold import_line.
  induction Hins as [| l' l ls' ls Hl _ IH]; [discriminate |].
  cbn [existsb]. intro H. apply orb_true_iff in H. destruct H as [H | H].
  - change (starts_with import_marker (trim l')) with (import_line l') in H.
    change (starts_with import_marker (trim l)) with (import_line l).
    now rewrite (inserted_import_line Hl H).
  - rewrite (IH H). apply orb_true_r.
Qed.

Lemma qualify_import_line hook code :
  hook_like (lit hook) = true ->
  has_import_line (App.qualify hook code) = true -> has_import_line code = true.
Proof.
  intros Hh. rewrite (qualify_is_insertion hook code Hh).
  apply has_import_line_inserted. now apply inserted_insert_at_bare.
Qed.

Lemma fold_qualify_import_line hs :
  Forall (fun hook => hook_like (lit hook) = true) hs ->
  forall code,
    has_import_line
      (fold_left (fun code hook => App.qualify hook code) hs code) = true ->
    has_import_line code = true.
Proof.
  intro Hall.
  induction Hall as [| hook hs Hhook _ IH]; intros code H; [exact H |].
  apply (qualify_import_line hook code Hhook). apply IH. exact H.
Qed.

(** ** The final [trim] *)

Lemma import_line_space c l : is_space c = true -> import_line (c :: l) = import_line l.
Proof. intro Hc. rewrite !import_line_spec. cbn [drop_while]. now rewrite Hc. Qed.

(** White space in front of a text makes no import line go away. *)
Lemma has_import_line_after_spaces w t :
  Forall (fun c => is_space c = true) w ->
  has_import_line t = true -> has_import_line (w ++ t) = true.
Proof.
  intros Hw Ht. induction Hw as [| c w Hc _ IH]; [exact Ht |].
  cbn [app]. unfold has_import_line in *. rewrite split_cons.
  destruct (c =? newline)%N.
  - cbn [existsb]. rewrite IH. apply orb_true_r.
  - rewrite (split_hd_tl newline (w ++ t)) in IH. cbn [existsb] in IH |- *.
    fold import_line in *.
    change (starts_with import_marker (trim (c :: hd [] (split newline (w ++ t)))))
      with (import_line (c :: hd [] (split newline (w ++ t)))).
    change (starts_with import_marker (trim (hd [] (split newline (w ++ t)))))
      with (import_line (hd [] (split newline (w ++ t)))) in IH.
    now rewrite import_line_space.
Qed.

Lemma import_line_before_spaces l b :
  import_line l = true -> import_line (l ++ b) = true.
Proof.
  rewrite !import_line_spec. intro H. apply andb_true_iff in H.
  destruct H as [Hs Hn].
  assert (Hl : nonspace l = true).
  { destruct (nonspace l) eqn:E; [reflexivity |]. exfalso.
    apply nonspace_false in E.
    rewrite <- (app_nil_r l), drop_while_app_spaces in Hs by exact E.
    discriminate. }
  rewrite drop_while_app_nonspace by exact Hl.
  rewrite (starts_with_app_l _ _ b Hs).
  now rewrite skipn_app, nonspace_app, Hn.
Qed.

(** Every line of a text is the start of a line of the text with more
    after it. *)
Lemma split_app_lines t w :
  exists b,
    hd [] (split newline (t ++ w)) = hd [] (split newline t) ++ b /\
    forall l, In l (tl (split newline t)) ->
         exists b', In (l ++ b') (tl (split newline (t ++ w))).
Proof.
  induction t as [| c t (b & Hhd & Htl)].
  - exists (hd [] (split newline w)). cbn [app split hd tl]. split; [reflexivity |].
    intros l [].
  - cbn [app]. rewrite !split_cons. destruct (c =? newline)%N.
    + exists []. cbn [hd tl]. split; [reflexivity |].
      intros l Hl. rewrite (split_hd_tl newline t) in Hl.
      rewrite (split_hd_tl newline (t ++ w)). destruct Hl as [<- | Hl].
      * exists b. left. now rewrite Hhd.
      * destruct (Htl l Hl) as (b' & Hb'). exists b'. now right.
    + exists b. cbn [hd tl]. split; [now rewrite Hhd | exact Htl].
Qed.

Lemma has_import_line_before w t :
  has_import_line t = true -> has_import_line (t ++ w) = true.
Proof.
  unfold has_import_line. fold import_line. intro H.
  apply existsb_exists in H. destruct H as (l & Hl & Himp).
  apply existsb_exists.
  destruct (split_app_lines t w) as (b & Hhd & Htl).
  rewrite (split_hd_tl newline t) in Hl.
  rewrite (split_hd_tl newline (t ++ w)). destruct Hl as [<- | Hl].
  - exists (hd [] (split newline t) ++ b). split; [left; now rewrite Hhd |].
    now apply import_line_before_spaces.
  - destruct (Htl l Hl) as (b' & Hb'). exists (l ++ b').
    split; [now right | now apply import_line_before_spaces].
Qed.

Lemma trim_import_line t :
  has_import_line (trim t) = true -> has_import_line t = true.
Proof.
  intro H. destruct (trim_decompose t) as (w1 & w2 & Et & H1 & _).
  rewrite Et. apply has_import_line_after_spaces; [exact H1 |].
  now apply has_import_line_before.
Qed.

End ImportFacts.

(* ================================================================== *)
(** * LineFacts: the line filter and the export replacement of [App] *)
(* ================================================================== *)

Module LineFacts.
Import Text Regex Patterns Notions TextFacts HookFacts ImportFacts.

Lemma split_pieces sep s : Forall (fun l => ~ In sep l) (split sep s).
Proof.
  induction s as [| c s IH]; cbn [split].
  - constructor; [tauto | constructor].
  - destruct (N.eqb_spec c sep) as [-> | Hne].
    + constructor; [tauto | exact IH].
    + destruct (split sep s) as [| l ls]; inversion IH; subst;
        constructor; cbn; try tauto; try constructor; intuition congruence.
Qed.

Lemma split_app_piece sep l s :
  ~ In sep l ->
  split sep (l ++ sep :: s) = l :: split sep s.
Proof.
  induction l as [| c l IH]; intro Hl; cbn [app split].
  - now rewrite N.eqb_refl.
  - destruct (N.eqb_spec c sep) as [-> | Hne]; [cbn in Hl; tauto |].
    rewrite IH by (cbn in Hl; tauto). reflexivity.
Qed.

Lemma split_one sep l : ~ In sep l -> split sep l = [l].
Proof.
  induction l as [| c l IH]; intro Hl; cbn [split]; [reflexivity |].
  destruct (N.eqb_spec c sep) as [-> | Hne]; [cbn in Hl; tauto |].
  rewrite IH by (cbn in Hl; tauto). reflexivity.
Qed.

(** Joining pieces that have no separator and splitting again gives the
    pieces back. *)
Lemma split_join sep ls :
  ls <> [] -> Forall (fun l => ~ In sep l) ls -> split sep (join sep ls) = ls.
Proof.
  intros Hne Hall. induction Hall as [| l ls Hl Hall IH]; [congruence |].
  destruct ls as [| l' ls'].
  - cbn [join]. now apply split_one.
  - cbn [join]. rewrite split_app_piece by exact Hl.
    f_equal. apply IH. discriminate.
Qed.

Lemma keep_line_clean line :
  App.keep_line line = true ->
  negb (starts_with import_marker (trim line)) &&
  negb (starts_with fence_marker (trim line)) = true.
Proof.
  unfold App.keep_line.
  destruct (starts_with fence_marker (trim line)); [discriminate |].
  destruct (starts_with import_marker (trim line)); [discriminate |]. reflexivity.
Qed.

(** C4, as the code has it.  Right after the line filter of
    [normalizeGeneratedCode] no line is an import line or a fence line:
    every line whose trimmed content begins with [import ] or with a fence
    marker is gone.  The steps after the export replacement, the seven
    hook replacements and the final trim, make neither an import line nor
    an [export default]: the output has one only if the text that the
    export replacement leaves has it. *)
Theorem line_filter_leaves_no_import_line (raw : text) :
  lines_clean (App.strip_lines raw) = true /\
  has_import_line (App.strip_lines raw) = false /\
  (has_import_line (App.normalizeGeneratedCode raw) = true ->
   has_import_line (App.strip_exports (App.strip_lines raw)) = true) /\
  (includes (lit "export default") (App.normalizeGeneratedCode raw) = true ->
   includes (lit "export default")
     (App.strip_exports (App.strip_lines raw)) = true).
Proof.
  assert (Hclean : lines_clean (App.strip_lines raw) = true).
  { unfold lines_clean, App.strip_lines.
    destruct (filter App.keep_line (split newline raw)) as [| l ls] eqn:Ef;
      [reflexivity |].
    rewrite split_join.
    - apply forallb_forall. intros line Hin. apply keep_line_clean.
      rewrite <- Ef in Hin. apply filter_In in Hin. now destruct Hin.
    - discriminate.
    - rewrite <- Ef. apply Forall_forall. intros line Hin.
      apply filter_In in Hin. destruct Hin as [Hin _].
      revert line Hin. apply Forall_forall, split_pieces. }
  split; [exact Hclean | split; [| split]].
  - unfold lines_clean in Hclean. unfold has_import_line.
    destruct (existsb _ _) eqn:Ex; [| reflexivity].
    apply existsb_exists in Ex. destruct Ex as (line & Hin & Himp).
    rewrite forallb_forall in Hclean. specialize (Hclean line Hin).
    rewrite Himp in Hclean. discriminate.
  - unfold App.normalizeGeneratedCode. destruct (is_empty raw); [discriminate |].
    intro Hout. apply trim_import_line in Hout.
    rewrite qualify_hooks_eq in Hout.
    exact (fold_qualify_import_line hooks_hook_like _ Hout).
  - unfold App.normalizeGeneratedCode. destruct (is_empty raw); [discriminate |].
    intro Hout.
    destruct (includes (lit "export default")
                (App.strip_exports (App.strip_lines raw))) eqn:Hin; [reflexivity |].
    rewrite trim_keeps_free in Hout; [discriminate |].
    apply qualify_hooks_keeps_free; [| | exact Hin].
    + intro H; vm_compute in H; discriminate H.
    + apply overlapb_no_overlap. vm_compute. reflexivity.
Qed.

(** C4, as the claim words it, fails: deleting [export default ] in front
    of [import x] makes an import line, and [export default] that no
    white space follows is kept. *)
Lemma normalize_can_output_import_line_and_export_default :
  App.normalizeGeneratedCode (lit "export default import x") = lit "import x" /\
  has_import_line (App.normalizeGeneratedCode (lit "export default import x")) = true /\
  App.normalizeGeneratedCode (lit "export default(props) => null") =
    lit "export default(props) => null" /\
  includes (lit "export default")
    (App.normalizeGeneratedCode (lit "export default(props) => null")) = true.
Proof. repeat split; vm_compute; reflexivity. Qed.

End LineFacts.

(* ================================================================== *)
(** * FenceFacts: the fence pattern and the fence extraction *)
(* ================================================================== *)

Module FenceFacts.
Import Text Regex Patterns Notions TextFacts RegexFacts.

(** ** Repetition of a character class *)

Lemma star_loop_class p k n :
  forall bef aft g,
    length aft <= n ->
    star_loop (m (Class p)) k n (MState bef aft g) = greedy_class p k bef aft g.
Proof.
  induction n as [| n IH]; intros bef aft g Hn.
  - destruct aft; [reflexivity | cbn in Hn; lia].
  - destruct aft as [| c aft]; [reflexivity |].
    cbn [star_loop greedy_class]. rewrite m_Class.
    destruct (p c); [| reflexivity].
    unfold shorter. cbn [after length].
    replace (length aft <? S (length aft))%nat with true
      by (symmetry; apply Nat.ltb_lt; lia).
    rewrite IH by (cbn in Hn; lia). reflexivity.
Qed.

Lemma back_fail_run p k :
  back_fail p k ->
  forall aft bef g,
    k (MState (rev (take_while p aft) ++ bef) (drop_while p aft) g) = None ->
    k (MState bef aft g) = None.
Proof.
  intros Hk. induction aft as [| c aft IH]; intros bef g H; [exact H |].
  cbn in H. destruct (p c) eqn:Hc; [| exact H].
  apply Hk; [exact Hc |]. apply IH.
  cbn in H. now rewrite <- app_assoc in H.
Qed.

(** With such a continuation the repetition takes the whole run. *)
Lemma greedy_class_run p k :
  back_fail p k ->
  forall aft bef g,
    greedy_class p k bef aft g =
    k (MState (rev (take_while p aft) ++ bef) (drop_while p aft) g).
Proof.
  intros Hk. induction aft as [| c aft IH]; intros bef g; [reflexivity |].
  cbn [greedy_class take_while drop_while]. destruct (p c) eqn:Hc; [| reflexivity].
  rewrite IH. cbn [rev]. rewrite <- app_assoc. cbn [app].
  destruct (k (MState (rev (take_while p aft) ++ c :: bef) (drop_while p aft) g))
    eqn:E; [reflexivity |].
  apply Hk; [exact Hc |]. now apply (back_fail_run Hk).
Qed.

Lemma any_char_true c : any_char c = true.
Proof. unfold any_char. now destruct (is_space c). Qed.

Lemma lazy_loop_any k n :
  forall bef aft g,
    length aft <= n ->
    lazy_loop (m (Class any_char)) k n (MState bef aft g) = lazy_any k bef aft g.
Proof.
  induction n as [| n IH]; intros bef aft g Hn.
  - destruct aft; [| cbn in Hn; lia]. cbn. now destruct (k _).
  - cbn [lazy_loop]. destruct aft as [| c aft]; cbn [lazy_any];
      destruct (k _); try reflexivity.
    rewrite m_Class, any_char_true.
    unfold shorter. cbn [after length].
    replace (length aft <? S (length aft))%nat with true
      by (symmetry; apply Nat.ltb_lt; lia).
    apply IH. cbn in Hn. lia.
Qed.

(** ** The first occurrence of the fence marker *)

Lemma before_first_skip q c u :
  hd_error q = Some c ->
  forall a, Forall (fun d => d <> c) u ->
       before_first q (u ++ a) = option_map (app u) (before_first q a).
Proof.
  intros Hq a Hu. induction Hu as [| d u Hd _ IH]; cbn [app].
  - now destruct (before_first q a).
  - cbn [before_first].
    replace (starts_with q (d :: u ++ a)) with false.
    + rewrite IH. now destruct (before_first q a).
    + destruct q as [| c' q]; [discriminate |]. injection Hq as ->.
      cbn. apply N.eqb_neq in Hd. rewrite N.eqb_sym, Hd. reflexivity.
Qed.

Lemma before_first_app q u s :
  before_first q (u ++ q ++ s) = before_first q (u ++ q).
Proof.
  induction u as [| c u IH]; cbn [app].
  - destruct q as [| c q]; [now destruct s |].
    pose proof (starts_with_app (c :: q) s) as H1.
    pose proof (starts_with_app (c :: q) []) as H2.
    rewrite app_nil_r in H2. cbn [app] in H1.
    cbn [before_first app]. now rewrite H1, H2.
  - cbn [before_first].
    replace (c :: u ++ q ++ s) with ((c :: u ++ q) ++ s)
      by (cbn [app]; now rewrite <- app_assoc).
    rewrite starts_with_long by (cbn; rewrite length_app; lia).
    now rewrite IH.
Qed.

Lemma before_first_found q u : exists pre, before_first q (u ++ q) = Some pre.
Proof.
  induction u as [| c u (pre & IH)]; cbn [app].
  - exists []. destruct q as [| c q]; [reflexivity |].
    pose proof (starts_with_app (c :: q) []) as H2.
    rewrite app_nil_r in H2. cbn [before_first]. now rewrite H2.
  - cbn [before_first]. destruct (starts_with q (c :: u ++ q)); [now exists [] |].
    rewrite IH. now exists (c :: pre).
Qed.

(** Dropping a run that has no back-tick keeps the search for the marker. *)
Lemma before_first_drop_while (p : N -> bool) s :
  (forall c, p c = true -> c <> 96%N) ->
  before_first fence_marker s =
  option_map (app (take_while p s)) (before_first fence_marker (drop_while p s)).
Proof.
  intro Hp. rewrite <- (take_drop_while p s) at 1.
  apply (@before_first_skip fence_marker 96%N _ eq_refl).
  eapply Forall_impl; [| apply take_while_all]. exact Hp.
Qed.

Lemma is_space_not_backtick c : is_space c = true -> c <> 96%N.
Proof. intros H ->. discriminate. Qed.

Lemma is_alpha_not_backtick c : is_alpha c = true -> c <> 96%N.
Proof. intros H ->. discriminate. Qed.

(** ** The fence pattern *)

Lemma close_fence_eq a0 bef aft g :
  close_fence a0 (MState bef aft g) =
  if starts_with fence_marker aft
  then Some (MState (rev fence_marker ++ bef) (skipn 3 aft)
               (Some (firstn (length a0 - length aft) a0)))
  else None.
Proof. reflexivity. Qed.

Lemma lazy_any_fence a0 bef0 g :
  forall aft u,
    a0 = u ++ aft ->
    lazy_any (close_fence a0) (rev u ++ bef0) aft g =
    match before_first fence_marker aft with
    | Some pre =>
        Some (MState (rev fence_marker ++ rev pre ++ rev u ++ bef0)
                (skipn (length pre + 3) aft) (Some (u ++ pre)))
    | None => None
    end.
Proof.
  induction aft as [| c aft IH]; intros u E.
  - reflexivity.
  - cbn [lazy_any before_first]. rewrite close_fence_eq.
    destruct (starts_with fence_marker (c :: aft)) eqn:Hs.
    + cbn [rev app length plus]. repeat f_equal.
      subst a0. rewrite length_app. cbn [length].
      replace (length u + S (length aft) - S (length aft)) with (length u) by lia.
      now rewrite firstn_app, firstn_all, Nat.sub_diag.
    + specialize (IH (u ++ [c])). rewrite rev_app_distr in IH. cbn [rev app] in IH.
      rewrite IH by (subst a0; now rewrite <- app_assoc).
      destruct (before_first fence_marker aft) as [pre |]; [| reflexivity].
      cbn [option_map rev length plus skipn]. rewrite <- !app_assoc. cbn [app].
      reflexivity.
Qed.

Lemma m_content bef aft g :
  m content_re (fun st => Some st) (MState bef aft g) =
  match before_first fence_marker aft with
  | Some pre =>
      Some (MState (rev fence_marker ++ rev pre ++ bef)
              (skipn (length pre + 3) aft) (Some pre))
  | None => None
  end.
Proof.
  unfold content_re. rewrite m_Cat, m_Group, m_LazyStar. cbn [after].
  rewrite lazy_loop_any by reflexivity.
  exact (@lazy_any_fence aft bef g aft [] eq_refl).
Qed.

Lemma m_content_none bef aft g :
  m content_re (fun st => Some st) (MState bef aft g) = None <->
  before_first fence_marker aft = None.
Proof.
  rewrite m_content. destruct (before_first fence_marker aft); split; congruence.
Qed.

Lemma back_fail_content (p : N -> bool) :
  (forall c, p c = true -> c <> 96%N) ->
  back_fail p (m content_re (fun st => Some st)).
Proof.
  intros Hp bef c aft g Hc H. apply m_content_none in H. apply m_content_none.
  change (c :: aft) with ([c] ++ aft).
  rewrite (@before_first_skip fence_marker 96%N [c] eq_refl aft).
  - cbn [app]. now rewrite H.
  - constructor; [now apply Hp | constructor].
Qed.

(** [\s*([\s\S]*?)```]: the white space is skipped, whole. *)
Lemma m_ws_content bef aft g :
  m (Star ws >> content_re) (fun st => Some st) (MState bef aft g) =
  m content_re (fun st => Some st)
    (MState (rev (take_while is_space aft) ++ bef) (drop_while is_space aft) g).
Proof.
  rewrite m_Cat, m_Star. unfold ws. cbn [after].
  rewrite star_loop_class by reflexivity.
  apply greedy_class_run, back_fail_content, is_space_not_backtick.
Qed.

Lemma back_fail_ws_content :
  back_fail is_alpha (m (Star ws >> content_re) (fun st => Some st)).
Proof.
  intros bef c aft g Hc H. rewrite m_ws_content in *.
  apply m_content_none in H. apply m_content_none.
  assert (Hc' : is_space c = false).
  { unfold is_alpha in Hc. unfold is_space.
    destruct (N.leb_spec 9 c), (N.leb_spec c 13), (N.eqb_spec c 32),
      (N.eqb_spec c 160), (N.leb_spec 65 c), (N.leb_spec c 90),
      (N.leb_spec 97 c), (N.leb_spec c 122); cbn in Hc |- *;
      try discriminate; try lia;
      repeat match goal with
        | |- context [(?a =? ?b)%N] => destruct (N.eqb_spec a b); try lia
        | |- context [(?a <=? ?b)%N] => destruct (N.leb_spec a b); try lia
        end; reflexivity. }
  cbn [drop_while]. rewrite Hc'.
  change (c :: aft) with ([c] ++ aft).
  rewrite (@before_first_skip fence_marker 96%N [c] eq_refl aft).
  - rewrite (before_first_drop_while is_space aft) by apply is_space_not_backtick.
    now rewrite H.
  - constructor; [now apply is_alpha_not_backtick | constructor].
Qed.

(** [(?:[a-zA-Z]+)?\s*([\s\S]*?)```]: the tag is skipped, whole. *)
Lemma m_tag_ws_content bef aft g :
  m (Opt (Plus (Class is_alpha)) >> Star ws >> content_re) (fun st => Some st)
    (MState bef aft g) =
  m (Star ws >> content_re) (fun st => Some st)
    (MState (rev (take_while is_alpha aft) ++ bef) (drop_while is_alpha aft) g).
Proof.
  rewrite m_Cat, m_Opt, m_Plus.
  destruct aft as [| c aft]; [reflexivity |].
  rewrite m_Class. cbn [take_while drop_while].
  destruct (is_alpha c) eqn:Hc; [| reflexivity].
  cbn [after]. rewrite star_loop_class by reflexivity.
  rewrite (greedy_class_run back_fail_ws_content).
  cbn [rev]. rewrite <- app_assoc. cbn [app].
  destruct (m (Star ws >> content_re) (fun st => Some st)
              (MState (rev (take_while is_alpha aft) ++ c :: bef)
                 (drop_while is_alpha aft) g)) eqn:E; [reflexivity |].
  apply back_fail_ws_content; [exact Hc |].
  now apply (back_fail_run back_fail_ws_content).
Qed.

(** The pattern at one position: the opening marker, then the text up to
    the next marker. *)
Lemma exec_at_fence bef aft :
  exec_at fence_re bef aft =
  if starts_with fence_marker aft then
    match before_first fence_marker (after_tag (skipn 3 aft)) with
    | Some pre =>
        Some (MState
                (rev fence_marker ++ rev pre ++
                 rev (take_while is_space (drop_while is_alpha (skipn 3 aft))) ++
                 rev (take_while is_alpha (skipn 3 aft)) ++ rev fence_marker ++ bef)
                (skipn (length pre + 3) (after_tag (skipn 3 aft))) (Some pre))
    | None => None
    end
  else None.
Proof.
  unfold exec_at, fence_re. rewrite m_Cat. unfold str at 1. rewrite m_Lit.
  change (lit "```") with fence_marker. cbn [after].
  destruct (starts_with fence_marker aft); [| reflexivity].
  unfold advance. cbn [before after group1].
  change (Group (LazyStar (Class any_char)) >> str "```") with content_re.
  rewrite m_tag_ws_content, m_ws_content, m_content.
  unfold after_tag. reflexivity.
Qed.

(** ** The search for the first fenced block *)

Lemma first_fence_after_cons c prefix :
  first_fence_after (c :: prefix) ->
  starts_with fence_marker (c :: prefix ++ fence_marker) = false /\
  first_fence_after prefix.
Proof.
  unfold first_fence_after. cbn [app before_first].
  destruct (starts_with fence_marker (c :: prefix ++ fence_marker)); [discriminate |].
  destruct (before_first fence_marker (prefix ++ fence_marker)); cbn; [| discriminate].
  intro E. injection E as ->. now split.
Qed.

Lemma search_from_fence prefix :
  forall bef rest pre,
    first_fence_after prefix ->
    before_first fence_marker (after_tag rest) = Some pre ->
    exists res,
      search_from fence_re bef (prefix ++ fence_marker ++ rest) = Some res /\
      m_group res = Some pre.
Proof.
  induction prefix as [| c prefix IH]; intros bef rest pre Hfirst Hpre.
  - cbn [app]. rewrite search_from_eq, exec_at_fence, starts_with_app.
    change (skipn 3 (fence_marker ++ rest)) with rest. rewrite Hpre.
    eexists; split; reflexivity.
  - apply first_fence_after_cons in Hfirst. destruct Hfirst as [Hs Hfirst].
    cbn [app]. rewrite search_from_eq, exec_at_fence.
    replace (c :: prefix ++ fence_marker ++ rest)
      with ((c :: prefix ++ fence_marker) ++ rest)
      by (cbn [app]; now rewrite <- app_assoc).
    rewrite starts_with_long, Hs
      by (cbn [length]; rewrite length_app; cbn; lia).
    now apply IH.
Qed.

Lemma after_tag_app body suffix :
  after_tag (body ++ fence_marker ++ suffix) =
  after_tag body ++ fence_marker ++ suffix.
Proof.
  unfold after_tag. change (fence_marker ++ suffix) with (96%N :: 96%N :: 96%N :: suffix).
  now rewrite !drop_while_app by reflexivity.
Qed.

Lemma normalizeGeneratedCode_fenced prefix body suffix :
  first_fence_after prefix ->
  ThemedApp.normalizeGeneratedCode
    (prefix ++ fence_marker ++ body ++ fence_marker ++ suffix) =
  ThemedApp.clean (fence_content body).
Proof.
  intro Hfirst. unfold ThemedApp.normalizeGeneratedCode.
  replace (is_empty (prefix ++ fence_marker ++ body ++ fence_marker ++ suffix))
    with false by now destruct prefix.
  unfold fence_content.
  destruct (before_first_found fence_marker (after_tag body)) as (pre & Hpre).
  destruct (@search_from_fence prefix [] (body ++ fence_marker ++ suffix) pre Hfirst)
    as (res & Hres & Hg).
  { now rewrite after_tag_app, before_first_app. }
  unfold search. rewrite Hres, Hpre. unfold ThemedApp.capture. now rewrite Hg.
Qed.

(** C3, for the build that has the fence pattern.  A text with a fenced
    block after [prefix], the first marker of the text being the one that
    opens the block, is normalised to what the line filter, the export
    replacement and [trim] make of the block's content; so two such texts
    with the same block ([body]: tag, code) and any prefixes and suffixes
    have the same normal form. *)
Theorem fence_extraction_ignores_prefix_and_suffix
    (prefix1 prefix2 body suffix1 suffix2 : text) :
  first_fence_after prefix1 ->
  first_fence_after prefix2 ->
  ThemedApp.normalizeGeneratedCode
    (prefix1 ++ fence_marker ++ body ++ fence_marker ++ suffix1) =
  ThemedApp.clean (fence_content body) /\
  ThemedApp.normalizeGeneratedCode
    (prefix1 ++ fence_marker ++ body ++ fence_marker ++ suffix1) =
  ThemedApp.normalizeGeneratedCode
    (prefix2 ++ fence_marker ++ body ++ fence_marker ++ suffix2).
Proof.
  intros H1 H2. split.
  - now apply normalizeGeneratedCode_fenced.
  - now rewrite !normalizeGeneratedCode_fenced.
Qed.

Lemma fence_extraction_ignores_prefix_and_suffix_witness :
  ThemedApp.normalizeGeneratedCode
    (lit "Here you go: " ++ fence_marker ++ (lit "jsx" ++ newline :: lit "<b>hi</b>")
       ++ fence_marker ++ lit " Enjoy!") =
  ThemedApp.clean (fence_content (lit "jsx" ++ newline :: lit "<b>hi</b>")) /\
  ThemedApp.normalizeGeneratedCode
    (lit "Here you go: " ++ fence_marker ++ (lit "jsx" ++ newline :: lit "<b>hi</b>")
       ++ fence_marker ++ lit " Enjoy!") =
  ThemedApp.normalizeGeneratedCode
    ([] ++ fence_marker ++ (lit "jsx" ++ newline :: lit "<b>hi</b>")
       ++ fence_marker ++ []).
Proof.
  apply (@fence_extraction_ignores_prefix_and_suffix
           (lit "Here you go: ") [] (lit "jsx" ++ newline :: lit "<b>hi</b>")
           (lit " Enjoy!") []); reflexivity.
Defined.

(** The [normalizeGeneratedCode] of [App] has no extraction step.  Its line
    filter drops each line that begins with a marker; text in front of a
    marker on the same line stays, and so does a line between two blocks. *)
Remark App_normalize_keeps_text_around_fence :
  App.normalizeGeneratedCode
    (lit "Here you go: " ++ fence_marker ++ lit "jsx" ++ newline ::
     lit "<b>hi</b>" ++ newline :: fence_marker ++ newline :: lit "Enjoy!") =
  lit "Here you go: " ++ fence_marker ++ lit "jsx" ++ newline ::
  lit "<b>hi</b>" ++ newline :: lit "Enjoy!".
Proof. vm_compute. reflexivity. Qed.

(** C3, as the claim words it, fails of [App]: two texts with the same
    fenced block, one of them with a prefix and a suffix around it, have
    different normal forms there, the prefix being kept. *)
Lemma App_normalize_depends_on_prefix_and_suffix :
  App.normalizeGeneratedCode
    (lit "Here you go: " ++ fence_marker ++ lit "jsx" ++ newline ::
     lit "<b>hi</b>" ++ newline :: fence_marker ++ lit " Enjoy!") =
  lit "Here you go: " ++ fence_marker ++ lit "jsx" ++ newline :: lit "<b>hi</b>" /\
  App.normalizeGeneratedCode
    ([] ++ fence_marker ++ lit "jsx" ++ newline ::
     lit "<b>hi</b>" ++ newline :: fence_marker ++ []) =
  lit "<b>hi</b>" /\
  App.normalizeGeneratedCode
    (lit "Here you go: " ++ fence_marker ++ lit "jsx" ++ newline ::
     lit "<b>hi</b>" ++ newline :: fence_marker ++ lit " Enjoy!") <>
  App.normalizeGeneratedCode
    ([] ++ fence_marker ++ lit "jsx" ++ newline ::
     lit "<b>hi</b>" ++ newline :: fence_marker ++ []).
Proof.
  split; [vm_compute; reflexivity |]. split; [vm_compute; reflexivity |].
  intro E. vm_compute in E. discriminate E.
Qed.

End FenceFacts.

(* ================================================================== *)
(** * ThemeFacts: the theme adaptation of [ThemedApp] *)
(* ================================================================== *)

Module ThemeFacts.
Import Text Regex Patterns Notions TextFacts RegexFacts ThemedApp.

(** The side conditions on the literals are decided by evaluation. *)
Ltac literal_nonempty := let H := fresh in intro H; vm_compute in H; discriminate H.
Ltac literal_no_overlap :=
  first [ apply overlapb_no_overlap | apply harmfulb_harmless_overlap ];
  vm_compute; reflexivity.

(** Dark theme: no [text-black] and no [bg-white] is left. *)
Lemma adaptCodeForTheme_dark code :
  includes (lit "text-black") (adaptCodeForTheme code true) = false /\
  includes (lit "bg-white") (adaptCodeForTheme code true) = false.
Proof.
  unfold adaptCodeForTheme. destruct code as [| c code]; [split; reflexivity |].
  cbn [is_empty]. unfold str. split.
  - apply replace_all_lit_keeps_free;
      [literal_nonempty | literal_nonempty | literal_no_overlap |].
    apply replace_all_lit_removes; [literal_nonempty | literal_no_overlap].
  - apply replace_all_lit_removes; [literal_nonempty | literal_no_overlap].
Qed.

(** Light theme: no [text-white] and no [bg-slate-900] is left. *)
Lemma adaptCodeForTheme_light code :
  includes (lit "text-white") (adaptCodeForTheme code false) = false /\
  includes (lit "bg-slate-900") (adaptCodeForTheme code false) = false.
Proof.
  unfold adaptCodeForTheme. destruct code as [| c code]; [split; reflexivity |].
  cbn [is_empty]. unfold str. split.
  - apply replace_all_lit_keeps_free;
      [literal_nonempty | literal_nonempty | literal_no_overlap |].
    apply replace_all_lit_removes; [literal_nonempty | literal_no_overlap].
  - apply replace_all_lit_removes; [literal_nonempty | literal_no_overlap].
Qed.

Lemma previewCode_free q editableCode isDark :
  q <> [] ->
  no_overlap q (newline :: newline :: lit "<GeneratedComponent />") ->
  (forall code, includes q (adaptCodeForTheme code isDark) = false) ->
  includes q (previewCode editableCode isDark) = false.
Proof.
  intros Hq Hno Hfree. unfold previewCode.
  destruct (is_empty (trim editableCode)).
  - destruct q; [congruence | reflexivity].
  - apply includes_app_false; auto.
Qed.

(** C9, for the build that has the theme step.  For every text in the
    editor, the snippet for the dark theme has neither the pure-black text
    literal nor the pure-white background literal, and the snippet for the
    light theme has neither the pure-white text literal nor the dark-slate
    background literal; so neither snippet has a low-contrast combination
    of these literals.  The same holds of [adaptCodeForTheme] on any
    code. *)
Theorem theme_literals_are_substituted_away (editableCode : text) :
  (includes (lit "text-black") (previewCode editableCode true) = false /\
   includes (lit "bg-white") (previewCode editableCode true) = false) /\
  (includes (lit "text-white") (previewCode editableCode false) = false /\
   includes (lit "bg-slate-900") (previewCode editableCode false) = false) /\
  (leaves_low_contrast (previewCode editableCode true) = false /\
   leaves_low_contrast (previewCode editableCode false) = false) /\
  (forall code,
      includes (lit "text-black") (adaptCodeForTheme code true) = false /\
      includes (lit "bg-white") (adaptCodeForTheme code true) = false /\
      includes (lit "text-white") (adaptCodeForTheme code false) = false /\
      includes (lit "bg-slate-900") (adaptCodeForTheme code false) = false).
Proof.
  assert (Hd1 : includes (lit "text-black") (previewCode editableCode true) = false)
    by (apply previewCode_free;
        [literal_nonempty | literal_no_overlap | intro; apply adaptCodeForTheme_dark]).
  assert (Hd2 : includes (lit "bg-white") (previewCode editableCode true) = false)
    by (apply previewCode_free;
        [literal_nonempty | literal_no_overlap | intro; apply adaptCodeForTheme_dark]).
  assert (Hl1 : includes (lit "text-white") (previewCode editableCode false) = false)
    by (apply previewCode_free;
        [literal_nonempty | literal_no_overlap | intro; apply adaptCodeForTheme_light]).
  assert (Hl2 : includes (lit "bg-slate-900") (previewCode editableCode false) = false)
    by (apply previewCode_free;
        [literal_nonempty | literal_no_overlap | intro; apply adaptCodeForTheme_light]).
  repeat split; try assumption;
    try (unfold leaves_low_contrast;
         rewrite ?Hd1, ?Hd2, ?Hl1, ?Hl2, ?andb_false_r; reflexivity);
    first [ apply adaptCodeForTheme_dark | apply adaptCodeForTheme_light ].
Qed.

(** C9, as the claim words it, fails of [App]: its [previewCode] has no
    theme step, so dark text on a dark background stays in the preview,
    whatever the theme. *)
Lemma App_preview_keeps_low_contrast_literals :
  App.previewCode (lit "<p className='text-black bg-slate-900'>x</p>") =
    lit "<p className='text-black bg-slate-900'>x</p>" ++ newline ::
    lit "render(<GeneratedComponent />);" /\
  includes (lit "text-black")
    (App.previewCode (lit "<p className='text-black bg-slate-900'>x</p>")) = true /\
  includes (lit "bg-slate-900")
    (App.previewCode (lit "<p className='text-black bg-slate-900'>x</p>")) = true /\
  leaves_low_contrast
    (App.previewCode (lit "<p className='text-black bg-slate-900'>x</p>")) = true.
Proof. repeat split; vm_compute; reflexivity. Qed.

End ThemeFacts.

(* ================================================================== *)
(** * PolicyFacts: the verdict of [validate] as a function of the tree *)
(* ================================================================== *)

Module PolicyFacts.
Import Validator ValidatorNotions PolicyNotions ValidatorFacts.

Local Open Scope string_scope.

Lemma report_violation n :
  report n = if violation n then [message n] else [].
Proof.
  unfold report.
  destruct n as [name | value | object property computed | specifiers source
                | type children]; cbn [enter violation message].
  - unfold visit_Identifier. now destruct (has forbiddenIdentifiers name).
  - reflexivity.
  - unfold visit_MemberExpression.
    destruct property as [x | | | |]; cbn [name_of]; try reflexivity.
    now destruct (has forbiddenMembers x).
  - unfold visit_ImportDeclaration, allowedModules, has. cbn [existsb].
    rewrite orb_false_r. now destruct (String.eqb source "react").
  - reflexivity.
Qed.

Lemma flat_map_report ns :
  flat_map report ns = map message (filter violation ns).
Proof.
  induction ns as [| n ns IH]; [reflexivity |].
  cbn [flat_map filter]. rewrite report_violation, IH.
  now destruct (violation n).
Qed.

(** X1.  The reasons are the messages of the offending nodes, in source order:
    one for each such node, so a name used twice is reported twice. *)
Theorem reasons_list_offending_nodes_in_order (ast : node) :
  reasons (validate_ast ast) = map message (filter violation (nodes_of ast)) /\
  length (reasons (validate_ast ast)) = length (filter violation (nodes_of ast)).
Proof.
  assert (E : reasons (validate_ast ast) =
              map message (filter violation (nodes_of ast)))
    by now rewrite validate_ast_reasons, flat_map_report.
  split; [exact E |]. now rewrite E, length_map.
Qed.

(** X2.  The verdict is [safe] exactly when no node of the tree breaks the
    policy: text inside string literals, computed string keys, calls and
    any other construct that is none of the three node kinds never make
    code unsafe. *)
Theorem safe_iff_no_offending_node (ast : node) :
  safe (validate_ast ast) = true <->
  Forall (fun n => violation n = false) (nodes_of ast).
Proof.
  rewrite validate_ast_safe, validate_ast_reasons, flat_map_report.
  induction (nodes_of ast) as [| n ns IH]; cbn [filter map].
  - split; [constructor | reflexivity].
  - destruct (violation n) eqn:Hv; cbn [map].
    + split; [discriminate |]. intro H. inversion H; congruence.
    + rewrite IH. split; [now constructor | intro H; now inversion H].
Qed.

(** X3.  [validate] returns [safe = true] exactly with an empty list of
    reasons. *)
Theorem verdict_safe_iff_no_reasons
    (parse : string -> outcome node) (code : string) (v : verdict) :
  validate parse code = Return v ->
  (safe v = true <-> reasons v = []).
Proof.
  unfold validate. destruct (parse code) as [e | ast]; [discriminate |].
  intro E. injection E as <-. rewrite validate_ast_safe.
  destruct (reasons (validate_ast ast)); split; congruence.
Qed.

Lemma verdict_safe_iff_no_reasons_witness :
  safe (Verdict false ["Forbidden member: window"]) = true <->
  reasons (Verdict false ["Forbidden member: window"]) = [].
Proof.
  apply (@verdict_safe_iff_no_reasons example_parse "x.window"
           (Verdict false ["Forbidden member: window"])).
  reflexivity.
Defined.

(** X4.  An import is reported exactly when its module is not [react]: the
    reasons name a module if and only if the tree has an import
    declaration from it and it is another module than [react]. *)
Theorem import_reported_iff_not_react (ast : node) (source : string) :
  In ("Forbidden import: " ++ source) (reasons (validate_ast ast)) <->
  source <> "react" /\
  exists specifiers, In (ImportDeclaration specifiers source) (nodes_of ast).
Proof.
  rewrite validate_ast_reasons, flat_map_report, in_map_iff. split.
  - intros (n & E & Hn). apply filter_In in Hn. destruct Hn as [Hn Hv].
    destruct n as [x | value | object property computed | specifiers s
                  | type children]; cbn [violation message] in *;
      try discriminate.
    + destruct property; discriminate.
    + injection E as ->. split; [| now exists specifiers].
      intros ->. cbn in Hv. discriminate.
  - intros (Hne & specifiers & Hn).
    exists (ImportDeclaration specifiers source). split; [reflexivity |].
    apply filter_In. split; [exact Hn |]. cbn [violation].
    destruct (String.eqb_spec source "react"); [contradiction | reflexivity].
Qed.

End PolicyFacts.

(* ================================================================== *)
(** * LogFacts: more on the snapshot history of [App] *)
(* ================================================================== *)

Module LogFacts.
Import Text App Controls HistoryNotions LogNotions HistoryFacts.

Local Open Scope Z_scope.

(** X5.  [history[newIdx]] is never read outside the log: after any sequence of
    events the editor holds a string, so the [editableCode.trim()] of
    [handleCommitSnapshot] and [previewCode] has a string to work on. *)
Theorem editor_always_holds_a_string (es : list event) :
  exists s, editableCode (run es initial) = Str s.
Proof.
  destruct (reachable_well_formed es) as [_ He].
  destruct (editableCode (run es initial)) as [| s]; [contradiction | now exists s].
Qed.

Lemma handle_keeps_log e st : keeps_log e = true -> history (handle e st) = history st.
Proof.
  destruct e as [index code | index code | | | | s]; cbn [keeps_log handle];
    try discriminate; intros _.
  - unfold handleUndo. now destruct (historyIndex st <=? 0).
  - unfold handleRedo.
    now destruct ((historyIndex st <? 0) ||
                  (historyIndex st >=? Z.of_nat (length (history st)) - 1)).
  - reflexivity.
Qed.

(** X6.  Undo, redo and typing in the editor never change the log, from any
    state and however many of them follow each other. *)
Theorem undo_redo_edit_keep_the_log (es : list event) (st : state) :
  forallb keeps_log es = true -> history (run es st) = history st.
Proof.
  revert st. induction es as [| e es IH]; intros st H; [reflexivity |].
  cbn [forallb] in H. apply andb_prop in H. destruct H as [He Hes].
  cbn [run fold_left]. change (history (run es (handle e st)) = history st).
  now rewrite IH, handle_keeps_log.
Qed.

Lemma undo_redo_edit_keep_the_log_witness :
  history (run [Undo; Edit (lit "x"); Redo; Undo]
             (State [lit "a"; lit "b"] 1 (Str (lit "b")))) =
  history (State [lit "a"; lit "b"] 1 (Str (lit "b"))).
Proof.
  apply (@undo_redo_edit_keep_the_log [Undo; Edit (lit "x"); Redo; Undo]
           (State [lit "a"; lit "b"] 1 (Str (lit "b")))).
  reflexivity.
Defined.

(** X7.  An event in step with the screen (one handled at once, or a
    response whose request was made at the cursor now on screen) rewrites
    no entry up to the cursor: after it the log still begins with them.
    And no event at all, in step or not, empties a log that has an
    entry. *)
Theorem entries_up_to_cursor_are_kept (es : list event) (e : event) :
  (in_step e (run es initial) = true ->
   exists rest,
     history (handle e (run es initial)) =
     firstn (Z.to_nat (historyIndex (run es initial) + 1))
       (history (run es initial)) ++ rest) /\
  (history (run es initial) <> [] -> history (handle e (run es initial)) <> []).
Proof.
  pose proof (reachable_well_formed es) as Hwf.
  set (st := run es initial) in *.
  assert (Hcommit : forall code st0,
             history st0 = history st ->
             history (commitToHistory (historyIndex st) code st0) =
             firstn (Z.to_nat (historyIndex st + 1)) (history st) ++ [code]).
  { intros code st0 Eh. unfold commitToHistory. cbn [history]. rewrite Eh.
    destruct Hwf as [[[Hh Hi] | Hi] _].
    - rewrite Hh, Hi. reflexivity.
    - replace (historyIndex st >=? 0) with true
        by (symmetry; rewrite Z.geb_leb; apply Z.leb_le; lia).
      replace (historyIndex st <? Z.of_nat (length (history st))) with true
        by (symmetry; apply Z.ltb_lt; lia).
      reflexivity. }
  assert (Hsame : exists rest,
             history st =
             firstn (Z.to_nat (historyIndex st + 1)) (history st) ++ rest).
  { exists (skipn (Z.to_nat (historyIndex st + 1)) (history st)).
    now rewrite firstn_skipn. }
  assert (Hpush : forall index code st0,
             history (commitToHistory index code st0) <> []).
  { intros index code st0 E. cbn [commitToHistory history] in E.
    apply app_eq_nil in E. destruct E as [_ E]. discriminate. }
  split.
  - intro Hstep. destruct e as [index code | index code | | | | s];
      cbn [handle in_step] in *.
    + apply Z.eqb_eq in Hstep. subst index.
      unfold handleGenerate. destruct (is_empty code); cbn [history].
      * exact Hsame.
      * rewrite Hcommit by reflexivity. now exists [code].
    + apply Z.eqb_eq in Hstep. subst index.
      unfold handleScreenshotGenerate. destruct (is_empty code).
      * exact Hsame.
      * rewrite Hcommit by reflexivity. now exists [code].
    + unfold handleCommitSnapshot. destruct (editableCode st) as [| s].
      * exact Hsame.
      * destruct (is_empty (trim s)); [exact Hsame |].
        rewrite Hcommit by reflexivity. now exists [s].
    + pose proof (@handle_keeps_log Undo st eq_refl) as E. cbn [handle] in E.
      rewrite E. exact Hsame.
    + pose proof (@handle_keeps_log Redo st eq_refl) as E. cbn [handle] in E.
      rewrite E. exact Hsame.
    + exact Hsame.
  - intro Hne. destruct e as [index code | index code | | | | s]; cbn [handle].
    + unfold handleGenerate. destruct (is_empty code); [exact Hne | apply Hpush].
    + unfold handleScreenshotGenerate.
      destruct (is_empty code); [exact Hne | apply Hpush].
    + unfold handleCommitSnapshot. destruct (editableCode st) as [| s]; [exact Hne |].
      destruct (is_empty (trim s)); [exact Hne | apply Hpush].
    + pose proof (@handle_keeps_log Undo st eq_refl) as E. cbn [handle] in E.
      now rewrite E.
    + pose proof (@handle_keeps_log Redo st eq_refl) as E. cbn [handle] in E.
      now rewrite E.
    + exact Hne.
Qed.

(** X8.  When redo moves the cursor, undo right after it shows the snapshot
    that was at the cursor and puts the cursor back. *)
Theorem undo_after_redo_restores_snapshot (es : list event) :
  0 <= historyIndex (run es initial)
    < Z.of_nat (length (history (run es initial))) - 1 ->
  exists s,
    current (run es initial) = Str s /\
    snd (undo (fst (redo (run es initial)))) = Some (Str s) /\
    historyIndex (fst (undo (fst (redo (run es initial))))) =
      historyIndex (run es initial).
Proof.
  set (st := run es initial). intro Hi.
  destruct (@at_index_in_range (history st) (historyIndex st)) as (s & Hs & _);
    [lia |].
  exists s. split; [exact Hs |].
  unfold undo, redo, shown. cbn [fst snd]. unfold handleRedo.
  replace (historyIndex st <? 0) with false by (symmetry; apply Z.ltb_ge; lia).
  replace (historyIndex st >=? Z.of_nat (length (history st)) - 1) with false
    by (symmetry; rewrite Z.geb_leb; apply Z.leb_gt; lia).
  cbn [orb]. unfold handleUndo. cbn [historyIndex history].
  replace (historyIndex st + 1 <=? 0) with false by (symmetry; apply Z.leb_gt; lia).
  cbn [historyIndex editableCode].
  replace (historyIndex st + 1 - 1) with (historyIndex st) by lia.
  replace (historyIndex st =? historyIndex st + 1) with false
    by (symmetry; apply Z.eqb_neq; lia).
  split; [now rewrite Hs | reflexivity].
Qed.

Lemma undo_after_redo_restores_snapshot_witness :
  exists s,
    current (run [Generate (-1) (lit "a"); Generate 0 (lit "b"); Undo] initial) = Str s /\
    snd (undo (fst (redo (run [Generate (-1) (lit "a"); Generate 0 (lit "b"); Undo] initial))))
      = Some (Str s) /\
    historyIndex
      (fst (undo (fst (redo (run [Generate (-1) (lit "a"); Generate 0 (lit "b"); Undo] initial)))))
      = historyIndex (run [Generate (-1) (lit "a"); Generate 0 (lit "b"); Undo] initial).
Proof.
  apply (@undo_after_redo_restores_snapshot
           [Generate (-1) (lit "a"); Generate 0 (lit "b"); Undo]).
  vm_compute. split; [discriminate | reflexivity].
Defined.

(** A push leaves the cursor on the pushed entry, whatever cursor the
    function closed over. *)
Lemma commitToHistory_current index code st :
  current (commitToHistory index code st) = Str code.
Proof.
  unfold current. rewrite commitToHistory_cursor. cbn [commitToHistory history].
  set (base := if (index >=? 0) && (index <? Z.of_nat (length (history st)))
               then firstn (Z.to_nat (index + 1)) (history st)
               else history st).
  rewrite length_app. cbn [length]. unfold at_index.
  replace (Z.of_nat (length base + 1) - 1 <? 0) with false
    by (symmetry; apply Z.ltb_ge; lia).
  replace (Z.to_nat (Z.of_nat (length base + 1) - 1)) with (length base) by lia.
  rewrite nth_error_app2 by lia. now rewrite Nat.sub_diag.
Qed.

(** A push in step: with the cursor of the state it is applied to. *)
Lemma commitToHistory_at_cursor code st :
  (history st = [] /\ historyIndex st = -1) \/
  0 <= historyIndex st < Z.of_nat (length (history st)) ->
  history (commitToHistory (historyIndex st) code st) =
    firstn (Z.to_nat (historyIndex st + 1)) (history st) ++ [code] /\
  historyIndex (commitToHistory (historyIndex st) code st) = historyIndex st + 1 /\
  current (commitToHistory (historyIndex st) code st) = Str code.
Proof.
  intro Hc.
  assert (Hh : history (commitToHistory (historyIndex st) code st) =
               firstn (Z.to_nat (historyIndex st + 1)) (history st) ++ [code]).
  { unfold commitToHistory. cbn [history].
    destruct Hc as [[Hh0 Hi] | Hi].
    - rewrite Hh0, Hi. reflexivity.
    - replace (historyIndex st >=? 0) with true
        by (symmetry; rewrite Z.geb_leb; apply Z.leb_le; lia).
      replace (historyIndex st <? Z.of_nat (length (history st))) with true
        by (symmetry; apply Z.ltb_lt; lia).
      reflexivity. }
  assert (Hlen : length (firstn (Z.to_nat (historyIndex st + 1)) (history st)) =
                 Z.to_nat (historyIndex st + 1)).
  { apply firstn_length_le. destruct Hc as [[Hh0 Hi] | Hi].
    - rewrite Hh0, Hi. cbn. lia.
    - lia. }
  split; [exact Hh | split; [| apply commitToHistory_current]].
  rewrite commitToHistory_cursor, Hh, length_app, Hlen. cbn [length].
  destruct Hc as [[_ Hi] | Hi]; lia.
Qed.

(** X9.  When the response of a prompt request brings code that is not
    empty, the code becomes the last entry of the log, the entry at the
    cursor and the text of the editor, and redo then has nothing to show,
    whatever the cursor was when the request was made.  When the cursor
    has not moved since then, undo shows the snapshot that was at the
    cursor before, when there was one. *)
Theorem generated_code_is_pushed_and_shown
    (es : list event) (index : Z) (code : text) :
  is_empty code = false ->
  current (handleGenerate index code (run es initial)) = Str code /\
  editableCode (handleGenerate index code (run es initial)) = Str code /\
  redo (handleGenerate index code (run es initial)) =
    (handleGenerate index code (run es initial), None) /\
  (index = historyIndex (run es initial) ->
   0 <= historyIndex (run es initial) ->
   snd (undo (handleGenerate index code (run es initial))) =
     Some (current (run es initial))).
Proof.
  intro Hne.
  pose proof (reachable_well_formed es) as Hwf.
  set (st := run es initial) in *.
  unfold handleGenerate. rewrite Hne.
  set (st1 := State (history st) (historyIndex st) (Str code)).
  split; [apply commitToHistory_current |]. split; [reflexivity |]. split.
  - unfold redo, shown, handleRedo.
    replace (historyIndex (commitToHistory index code st1) >=?
             Z.of_nat (length (history (commitToHistory index code st1))) - 1)
      with true
      by (symmetry; rewrite Z.geb_leb; apply Z.leb_le;
          rewrite commitToHistory_cursor; lia).
    rewrite orb_true_r, Z.eqb_refl. reflexivity.
  - intros -> Hpos. destruct Hwf as [Hc _].
    destruct (@commitToHistory_at_cursor code st1 Hc) as (Hh & Hidx & _).
    change (historyIndex st1) with (historyIndex st) in *.
    change (history st1) with (history st) in *.
    assert (Hlen : length (firstn (Z.to_nat (historyIndex st + 1)) (history st)) =
                   Z.to_nat (historyIndex st + 1)).
    { apply firstn_length_le. destruct Hc as [[_ Hi] | Hi]; lia. }
    unfold undo, shown, handleUndo. cbn [snd]. rewrite Hidx.
    replace (historyIndex st + 1 <=? 0) with false by (symmetry; apply Z.leb_gt; lia).
    cbn [historyIndex editableCode].
    replace (historyIndex st + 1 - 1 =? historyIndex st + 1) with false
      by (symmetry; apply Z.eqb_neq; lia).
    f_equal. unfold current. rewrite Hh.
    replace (historyIndex st + 1 - 1) with (historyIndex st) by lia.
    unfold at_index.
    replace (historyIndex st <? 0) with false by (symmetry; apply Z.ltb_ge; lia).
    destruct Hc as [[_ Hi] | Hi]; [lia |].
    rewrite nth_error_app1 by (rewrite Hlen; lia).
    rewrite nth_error_firstn.
    replace (Z.to_nat (historyIndex st) <? Z.to_nat (historyIndex st + 1))%nat
      with true by (symmetry; apply Nat.ltb_lt; lia).
    reflexivity.
Qed.

Lemma generated_code_is_pushed_and_shown_witness :
  current (handleGenerate 0 (lit "b") (run [Generate (-1) (lit "a")] initial)) = Str (lit "b") /\
  editableCode (handleGenerate 0 (lit "b") (run [Generate (-1) (lit "a")] initial))
    = Str (lit "b") /\
  redo (handleGenerate 0 (lit "b") (run [Generate (-1) (lit "a")] initial)) =
    (handleGenerate 0 (lit "b") (run [Generate (-1) (lit "a")] initial), None) /\
  (0 = historyIndex (run [Generate (-1) (lit "a")] initial) ->
   0 <= historyIndex (run [Generate (-1) (lit "a")] initial) ->
   snd (undo (handleGenerate 0 (lit "b") (run [Generate (-1) (lit "a")] initial))) =
     Some (current (run [Generate (-1) (lit "a")] initial))).
Proof.
  apply (@generated_code_is_pushed_and_shown [Generate (-1) (lit "a")] 0 (lit "b")).
  reflexivity.
Defined.

(** X10.  Saving a snapshot does nothing while the editor is blank; otherwise
    it pushes the text of the editor as it is typed, neither trimmed nor
    normalised, and leaves the editor as it is. *)
Theorem commit_snapshot_saves_editor_text (es : list event) :
  exists s,
    editableCode (run es initial) = Str s /\
    (is_empty (trim s) = true ->
     handleCommitSnapshot (run es initial) = run es initial) /\
    (is_empty (trim s) = false ->
     history (handleCommitSnapshot (run es initial)) =
       firstn (Z.to_nat (historyIndex (run es initial) + 1))
         (history (run es initial)) ++ [s] /\
     current (handleCommitSnapshot (run es initial)) = Str s /\
     editableCode (handleCommitSnapshot (run es initial)) = Str s).
Proof.
  pose proof (reachable_well_formed es) as Hwf.
  set (st := run es initial) in *. destruct Hwf as [Hc He].
  destruct (editableCode st) as [| s] eqn:E; [contradiction |].
  exists s. split; [reflexivity |].
  unfold handleCommitSnapshot. rewrite E. split; intros ->; [reflexivity |].
  destruct (@commitToHistory_at_cursor s st Hc) as (Hh & _ & Hcur).
  split; [exact Hh | split; [exact Hcur | exact E]].
Qed.

(** X11.  Text typed into the editor and not saved is lost by undo: redo
    brings back the snapshot of the log, not the typed text. *)
Theorem unsaved_edit_is_lost_by_undo (es : list event) (typed : text) :
  0 < historyIndex (run es initial) ->
  editableCode (run [Edit typed; Undo; Redo] (run es initial)) =
    current (run es initial) /\
  historyIndex (run [Edit typed; Undo; Redo] (run es initial)) =
    historyIndex (run es initial) /\
  history (run [Edit typed; Undo; Redo] (run es initial)) =
    history (run es initial).
Proof.
  pose proof (reachable_well_formed es) as Hwf.
  set (st := run es initial) in *. intro Hpos.
  destruct Hwf as [[[_ Hi] | Hi] _]; [lia |].
  cbn [run fold_left handle]. unfold handleEdit, handleUndo. cbn [historyIndex history].
  replace (historyIndex st <=? 0) with false by (symmetry; apply Z.leb_gt; lia).
  unfold handleRedo. cbn [historyIndex history].
  replace (historyIndex st - 1 <? 0) with false by (symmetry; apply Z.ltb_ge; lia).
  replace (historyIndex st - 1 >=? Z.of_nat (length (history st)) - 1) with false
    by (symmetry; rewrite Z.geb_leb; apply Z.leb_gt; lia).
  cbn [orb historyIndex editableCode history].
  replace (historyIndex st - 1 + 1) with (historyIndex st) by lia.
  repeat split.
Qed.

Lemma unsaved_edit_is_lost_by_undo_witness :
  editableCode (run [Edit (lit "typed"); Undo; Redo]
                  (run [Generate (-1) (lit "a"); Generate 0 (lit "b")] initial)) =
    current (run [Generate (-1) (lit "a"); Generate 0 (lit "b")] initial) /\
  historyIndex (run [Edit (lit "typed"); Undo; Redo]
                  (run [Generate (-1) (lit "a"); Generate 0 (lit "b")] initial)) =
    historyIndex (run [Generate (-1) (lit "a"); Generate 0 (lit "b")] initial) /\
  history (run [Edit (lit "typed"); Undo; Redo]
             (run [Generate (-1) (lit "a"); Generate 0 (lit "b")] initial)) =
    history (run [Generate (-1) (lit "a"); Generate 0 (lit "b")] initial).
Proof.
  apply (@unsaved_edit_is_lost_by_undo
           [Generate (-1) (lit "a"); Generate 0 (lit "b")] (lit "typed")).
  reflexivity.
Defined.

(** X28.  The history buttons are disabled exactly when their handler would do
    nothing: in every reachable state, undo, redo and save leave the state
    as it is if and only if the button's [disabled] attribute holds. *)
Theorem buttons_disabled_iff_handler_does_nothing (es : list event) :
  (undo_disabled (run es initial) = true <->
   handleUndo (run es initial) = run es initial) /\
  (redo_disabled (run es initial) = true <->
   handleRedo (run es initial) = run es initial) /\
  exists s,
    editableCode (run es initial) = Str s /\
    (save_disabled s = true <->
     handleCommitSnapshot (run es initial) = run es initial).
Proof.
  pose proof (reachable_well_formed es) as Hwf.
  set (st := run es initial) in *. destruct Hwf as [Hc He].
  split; [| split].
  - unfold undo_disabled, handleUndo.
    destruct (historyIndex st <=? 0); split; try reflexivity; try discriminate.
    intro E. apply (f_equal historyIndex) in E. cbn in E. lia.
  - unfold redo_disabled, handleRedo.
    destruct ((historyIndex st <? 0) ||
              (historyIndex st >=? Z.of_nat (length (history st)) - 1));
      split; try reflexivity; try discriminate.
    intro E. apply (f_equal historyIndex) in E. cbn in E. lia.
  - destruct (editableCode st) as [| s] eqn:E; [contradiction |].
    exists s. split; [reflexivity |].
    unfold save_disabled, handleCommitSnapshot. rewrite E.
    destruct (is_empty (trim s)); split; try reflexivity; try discriminate.
    intro Eq. apply (f_equal historyIndex) in Eq.
    destruct (@commitToHistory_at_cursor s st Hc) as (_ & Hidx & _).
    rewrite Hidx in Eq. lia.
Qed.

(** X29.  A push in step with the screen (the save button, or a response
    whose request was made at the cursor now on screen) discards the redo
    branch: it keeps the entries up to the cursor, appends the snapshot
    and moves the cursor to the new last index.  From the empty log, with
    pushes in step, [push(A); push(B); undo()] shows [A], and after
    [push(C)] the log is [A; C] and [redo()] shows nothing. *)
Theorem push_in_step_discards_redo_branch :
  (forall (es : list event) (snapshot : text),
      history (push snapshot (run es initial)) =
        firstn (Z.to_nat (historyIndex (run es initial) + 1))
          (history (run es initial)) ++ [snapshot] /\
      historyIndex (push snapshot (run es initial)) =
        Z.of_nat (length (history (push snapshot (run es initial)))) - 1) /\
  (forall A B C : text,
      snd (undo (push B (push A initial))) = Some (Str A) /\
      history (push C (fst (undo (push B (push A initial))))) = [A; C] /\
      snd (redo (push C (fst (undo (push B (push A initial)))))) = None /\
      fst (redo (push C (fst (undo (push B (push A initial)))))) =
        push C (fst (undo (push B (push A initial))))).
Proof.
  split.
  - intros es snapshot. split; [| reflexivity].
    destruct (reachable_well_formed es) as [Hc _].
    now destruct (@commitToHistory_at_cursor snapshot (run es initial) Hc).
  - intros A B C. repeat split.
Qed.

End LogFacts.

(* ================================================================== *)
(** * EdgeFacts: [trim], [split] and patterns that find nothing *)
(* ================================================================== *)

Module EdgeFacts.
Import Text Regex Patterns Notions TextFacts RegexFacts HookFacts ImportFacts.

(** ** [trim] *)

Lemma drop_while_length (p : N -> bool) s : length (drop_while p s) <= length s.
Proof.
  induction s as [| c s IH]; [apply le_n |]. cbn [drop_while].
  destruct (p c); cbn [length]; lia.
Qed.

Lemma drop_while_head (p : N -> bool) s :
  match drop_while p s with
  | [] => True
  | c :: _ => p c = false
  end.
Proof.
  induction s as [| c s IH]; [exact I |]. cbn [drop_while].
  destruct (p c) eqn:Hc; [exact IH | exact Hc].
Qed.

Lemma drop_while_fixed (p : N -> bool) s :
  match s with [] => True | c :: _ => p c = false end -> drop_while p s = s.
Proof. destruct s as [| c s]; [reflexivity |]. cbn. now intros ->. Qed.

Lemma drop_while_idempotent (p : N -> bool) s :
  drop_while p (drop_while p s) = drop_while p s.
Proof. apply drop_while_fixed, drop_while_head. Qed.

Lemma trim_trim_end s : trim s = trim_end (drop_while is_space s).
Proof. reflexivity. Qed.

Lemma trim_end_head c s : is_space c = false -> exists s', trim_end (c :: s) = c :: s'.
Proof.
  intro Hc. destruct (nonspace s) eqn:Hs.
  - exists (trim_end s). change (c :: s) with ([c] ++ s).
    now rewrite (@trim_end_app_nonspace [c] s Hs).
  - exists []. change (c :: s) with ([c] ++ s).
    rewrite (@trim_end_app_spaces [c] s (nonspace_false s Hs)).
    unfold trim_end. cbn. now rewrite Hc.
Qed.

(** A trimmed text has no white space at either end. *)
Lemma trim_edges t :
  drop_while is_space (trim t) = trim t /\
  drop_while is_space (rev (trim t)) = rev (trim t).
Proof.
  split.
  - apply drop_while_fixed. rewrite trim_trim_end.
    pose proof (drop_while_head is_space t) as Hd.
    destruct (drop_while is_space t) as [| c d]; [exact I |].
    destruct (@trim_end_head c d Hd) as (s' & ->). exact Hd.
  - unfold trim. rewrite rev_involutive. apply drop_while_idempotent.
Qed.

Lemma trim_idempotent t : trim (trim t) = trim t.
Proof.
  destruct (trim_edges t) as [H1 H2].
  unfold trim at 1. now rewrite H1, H2, rev_involutive.
Qed.

Lemma trim_blank t : nonspace t = false -> trim t = [].
Proof.
  intro H. apply nonspace_false in H. unfold trim.
  rewrite <- (app_nil_r t), (@drop_while_app_spaces t [] H). reflexivity.
Qed.

Lemma trim_nonblank t : nonspace t = true -> trim t <> [].
Proof.
  intros H E. destruct (trim_decompose t) as (w1 & w2 & Et & H1 & H2).
  rewrite E in Et. cbn in Et. rewrite Et, nonspace_app in H.
  assert (Hf : forall w, Forall (fun c => is_space c = true) w -> nonspace w = false).
  { induction 1 as [| c w Hc _ IH]; [reflexivity |].
    rewrite nonspace_cons, Hc, IH. reflexivity. }
  rewrite (Hf _ H1), (Hf _ H2) in H. discriminate.
Qed.

(** ** [split] and [join] *)

Lemma join_cons sep l ls :
  ls <> [] -> join sep (l :: ls) = l ++ sep :: join sep ls.
Proof. destruct ls; [congruence | reflexivity]. Qed.

Lemma join_split sep s : join sep (split sep s) = s.
Proof.
  induction s as [| c s IH]; [reflexivity |].
  rewrite split_cons. destruct (N.eqb_spec c sep) as [-> | Hne].
  - rewrite join_cons by apply split_not_nil. now rewrite IH.
  - rewrite (split_hd_tl sep s) in IH.
    destruct (tl (split sep s)) as [| l ls] eqn:Et.
    + cbn [join] in *. now rewrite IH.
    + rewrite join_cons in * by discriminate. cbn [app]. now rewrite IH.
Qed.

Lemma filter_all (A : Type) (f : A -> bool) (l : list A) :
  forallb f l = true -> filter f l = l.
Proof.
  induction l as [| a l IH]; [reflexivity |]. cbn.
  intro H. apply andb_prop in H. destruct H as [-> H]. now rewrite IH.
Qed.

Lemma filter_idempotent (A : Type) (f : A -> bool) (l : list A) :
  filter f (filter f l) = filter f l.
Proof.
  apply filter_all, forallb_forall. intros a Ha.
  apply filter_In in Ha. now destruct Ha.
Qed.

(** ** Patterns that match nowhere *)

(** No attempt succeeds at any position of [aft], with [bef] on the left. *)
Lemma search_from_none r :
  forall aft bef,
    (forall pre post, aft = pre ++ post -> exec_at r (rev pre ++ bef) post = None) ->
    search_from r bef aft = None.
Proof.
  induction aft as [| c aft IH]; intros bef H; rewrite search_from_eq.
  - pose proof (H [] [] eq_refl) as H0. cbn [rev app] in H0. now rewrite H0.
  - pose proof (H [] (c :: aft) eq_refl) as H0. cbn [rev app] in H0. rewrite H0.
    apply IH.
    intros pre post E. specialize (H (c :: pre) post). cbn [rev] in H.
    rewrite <- app_assoc in H. apply H. now rewrite E.
Qed.

Lemma replace_loop_none r by_ :
  forall fuel aft bef,
    length aft < fuel ->
    (forall pre post, aft = pre ++ post -> exec_at r (rev pre ++ bef) post = None) ->
    replace_loop fuel r by_ bef aft = aft.
Proof.
  induction fuel as [| fuel IH]; intros aft bef Hlen H; [lia |].
  cbn [replace_loop]. pose proof (H [] aft eq_refl) as H0. cbn [rev app] in H0.
  rewrite H0. destruct aft as [| c aft]; [reflexivity |]. f_equal.
  apply IH; [cbn in Hlen; lia |].
  intros pre post E. specialize (H (c :: pre) post). cbn [rev] in H.
  rewrite <- app_assoc in H. apply H. now rewrite E.
Qed.

(** A pattern that begins with a literal fails where the literal does not
    start. *)
Lemma exec_at_head_lit p r bef aft :
  starts_with p aft = false -> exec_at (Lit p >> r) bef aft = None.
Proof. intro H. unfold exec_at. rewrite m_Cat, m_Lit. cbn [after]. now rewrite H. Qed.

Lemma includes_false_at q pre post :
  includes q (pre ++ post) = false -> starts_with q post = false.
Proof.
  intro H. destruct (starts_with q post) eqn:Hs; [| reflexivity].
  apply starts_with_spec in Hs. destruct Hs as (rest & ->).
  exfalso. exact (proj1 (includes_false q _) H pre rest eq_refl).
Qed.

(** Without the literal in the text, a pattern that begins with it finds
    nothing and replaces nothing. *)
Lemma search_head_lit_absent p r s :
  includes p s = false -> search (Lit p >> r) s = None.
Proof.
  intro H. apply search_from_none. intros pre post ->.
  apply exec_at_head_lit. exact (@includes_false_at p pre post H).
Qed.

Lemma replace_head_lit_absent p r by_ s :
  includes p s = false -> replace (Lit p >> r) by_ s = s.
Proof. intro H. unfold replace. now rewrite search_head_lit_absent. Qed.

Lemma replace_all_head_lit_absent p r by_ s :
  includes p s = false -> replace_all (Lit p >> r) by_ s = s.
Proof.
  intro H. apply replace_loop_none; [lia |]. intros pre post ->.
  apply exec_at_head_lit. exact (@includes_false_at p pre post H).
Qed.

Lemma replace_all_lit_absent p by_ s :
  includes p s = false -> replace_all (Lit p) by_ s = s.
Proof.
  intro H. apply replace_loop_none; [lia |]. intros pre post ->.
  rewrite exec_at_lit. now rewrite (@includes_false_at p pre post H).
Qed.

(** ** Hook references *)

(** Where nothing is bare, nothing is inserted. *)
Lemma insert_at_bare_none h :
  forall s L, bare_from h L s = false -> insert_at_bare h L s = s.
Proof.
  induction s as [| c s IH]; intros L H; [reflexivity |].
  cbn [bare_from] in H. apply orb_false_iff in H. destruct H as [H0 H].
  cbn [insert_at_bare]. rewrite H0. cbn [app]. now rewrite IH.
Qed.

Lemma qualify_none hook code :
  hook_like (lit hook) = true ->
  has_bare_reference (lit hook) code = false -> App.qualify hook code = code.
Proof.
  intros Hh H. rewrite qualify_is_insertion by exact Hh.
  now apply insert_at_bare_none.
Qed.

Lemma fold_qualify_none hs :
  Forall (fun hook => hook_like (lit hook) = true) hs ->
  forall code,
    Forall (fun hook => has_bare_reference (lit hook) code = false) hs ->
    fold_left (fun code hook => App.qualify hook code) hs code = code.
Proof.
  induction 1 as [| hook hs Hhook _ IH]; intros code Hfree; [reflexivity |].
  inversion Hfree as [| ? ? H0 Hrest]; subst. cbn [fold_left].
  rewrite qualify_none by assumption. now apply IH.
Qed.

End EdgeFacts.

(* ================================================================== *)
(** * NormalizeFacts: more on [normalizeGeneratedCode] and [previewCode] *)
(* ================================================================== *)

Module NormalizeFacts.
Import Text Regex Patterns Notions TextFacts RegexFacts HookFacts ImportFacts
  LineFacts EdgeFacts.

(** X12.  The result of [normalizeGeneratedCode] has no white space at either
    end, in both builds: trimming it again changes nothing. *)
Theorem normalized_code_is_trimmed (raw : text) :
  trim (App.normalizeGeneratedCode raw) = App.normalizeGeneratedCode raw /\
  trim (ThemedApp.normalizeGeneratedCode raw) = ThemedApp.normalizeGeneratedCode raw.
Proof.
  split.
  - unfold App.normalizeGeneratedCode. destruct (is_empty raw); [reflexivity |].
    apply trim_idempotent.
  - unfold ThemedApp.normalizeGeneratedCode. destruct (is_empty raw); [reflexivity |].
    unfold ThemedApp.clean. apply trim_idempotent.
Qed.

(** X13.  Qualifying the hooks a second time changes nothing: no [React.] is
    put in front of a reference that has one. *)
Theorem hook_qualification_is_idempotent (code : text) :
  App.qualify_hooks (App.qualify_hooks code) = App.qualify_hooks code.
Proof.
  rewrite (qualify_hooks_eq (App.qualify_hooks code)).
  rewrite (qualify_hooks_eq code).
  apply fold_qualify_none; [apply hooks_hook_like |].
  apply Forall_forall. intros hook Hin.
  apply fold_qualify_no_bare; [apply hooks_hook_like | | now left].
  revert hook Hin. apply Forall_forall, hooks_hook_like.
Qed.

Lemma keep_line_lines_clean line :
  negb (starts_with import_marker (trim line)) &&
  negb (starts_with fence_marker (trim line)) = true ->
  App.keep_line line = true.
Proof.
  unfold App.keep_line. intro H. apply andb_prop in H. destruct H as [Hi Hf].
  apply negb_true_iff in Hi, Hf. now rewrite Hf, Hi.
Qed.

Lemma strip_lines_clean raw : lines_clean raw = true -> App.strip_lines raw = raw.
Proof.
  unfold lines_clean, App.strip_lines. intro H.
  rewrite filter_all; [apply join_split |].
  apply forallb_forall. intros line Hin.
  apply keep_line_lines_clean. revert line Hin. now apply forallb_forall.
Qed.

(** X14.  Code that has no import or fence line, no [export] and no bare hook
    reference is left as it is, apart from the white space at its ends. *)
Theorem clean_code_is_only_trimmed (raw : text) :
  lines_clean raw = true ->
  includes (lit "export") raw = false ->
  Forall (fun hook => has_bare_reference (lit hook) raw = false) App.hooks ->
  App.normalizeGeneratedCode raw = trim raw.
Proof.
  intros Hlines Hexport Hhooks. unfold App.normalizeGeneratedCode.
  destruct (is_empty raw) eqn:He; [now destruct raw |].
  rewrite (strip_lines_clean raw Hlines). unfold App.strip_exports.
  unfold export_default_function_re, export_default_re, str.
  rewrite replace_head_lit_absent by exact Hexport.
  rewrite replace_all_head_lit_absent by exact Hexport.
  rewrite qualify_hooks_eq.
  now rewrite (fold_qualify_none hooks_hook_like raw Hhooks).
Qed.

Lemma clean_code_is_only_trimmed_witness :
  App.normalizeGeneratedCode
    (lit "  function GeneratedComponent() { return React.useState(0)[0] }  ") =
  trim (lit "  function GeneratedComponent() { return React.useState(0)[0] }  ").
Proof.
  apply (@clean_code_is_only_trimmed
           (lit "  function GeneratedComponent() { return React.useState(0)[0] }  "));
    [reflexivity | reflexivity | repeat constructor].
Defined.

(** X15.  The line filter is idempotent: its result has no line left to drop. *)
Theorem line_filter_is_idempotent (raw : text) :
  App.strip_lines (App.strip_lines raw) = App.strip_lines raw.
Proof.
  unfold App.strip_lines.
  destruct (filter App.keep_line (split newline raw)) as [| l ls] eqn:Ef;
    [reflexivity |].
  rewrite split_join.
  - now rewrite <- Ef, filter_idempotent.
  - discriminate.
  - rewrite <- Ef. apply Forall_forall. intros line Hin.
    apply filter_In in Hin. destruct Hin as [Hin _].
    revert line Hin. apply Forall_forall, split_pieces.
Qed.

(** X16.  [previewCode] of [App]: nothing for a blank editor; otherwise the
    normalised code, a line break and the [render] call, or the [render]
    call alone when normalisation leaves nothing.  So the preview is
    empty exactly when the editor is blank. *)
Theorem preview_is_code_then_render_call (editableCode : text) :
  App.previewCode editableCode =
    (if is_empty (trim editableCode) then []
     else if is_empty (App.normalizeGeneratedCode editableCode)
          then lit "render(<GeneratedComponent />);"
          else App.normalizeGeneratedCode editableCode ++
               newline :: lit "render(<GeneratedComponent />);") /\
  (App.previewCode editableCode = [] <-> trim editableCode = []).
Proof.
  assert (E : App.previewCode editableCode =
              if is_empty (trim editableCode) then []
              else if is_empty (App.normalizeGeneratedCode editableCode)
                   then lit "render(<GeneratedComponent />);"
                   else App.normalizeGeneratedCode editableCode ++
                        newline :: lit "render(<GeneratedComponent />);").
  { unfold App.previewCode. destruct (is_empty (trim editableCode)); [reflexivity |].
    destruct (normalized_code_is_trimmed editableCode) as [Ht _].
    destruct (trim_edges (App.normalizeGeneratedCode editableCode)) as [Hd _].
    rewrite Ht in Hd.
    destruct (App.normalizeGeneratedCode editableCode) as [| c cleaned];
      [reflexivity |].
    cbn [is_empty]. rewrite trim_trim_end.
    change ((c :: cleaned) ++ newline :: lit "render(<GeneratedComponent />);")
      with (c :: cleaned ++ newline :: lit "render(<GeneratedComponent />);").
    assert (Hc : is_space c = false).
    { cbn [drop_while] in Hd. destruct (is_space c); [| reflexivity].
      pose proof (drop_while_length is_space cleaned) as Hl.
      rewrite Hd in Hl. cbn in Hl. lia. }
    cbn [drop_while]. rewrite Hc.
    replace (c :: cleaned ++ newline :: lit "render(<GeneratedComponent />);")
      with ((c :: cleaned ++ [newline]) ++ lit "render(<GeneratedComponent />);")
      by (cbn [app]; now rewrite <- app_assoc).
    rewrite trim_end_app_nonspace by reflexivity.
    replace (trim_end (lit "render(<GeneratedComponent />);"))
      with (lit "render(<GeneratedComponent />);") by (vm_compute; reflexivity).
    cbn [app]. now rewrite <- app_assoc. }
  split; [exact E |]. rewrite E.
  destruct (trim editableCode) as [| c t]; cbn [is_empty].
  - split; reflexivity.
  - destruct (App.normalizeGeneratedCode editableCode) as [| d cleaned];
      cbn [is_empty]; split; discriminate.
Qed.

(** ** The export replacement on the usual declaration *)

(** No [export] starts in a part of the text that has none and that an
    [export] follows: the word does not overlap itself. *)
Lemma export_not_before pre rest :
  includes (lit "export") pre = false ->
  forall a u, pre = a ++ u -> u <> [] ->
         starts_with (lit "export") (u ++ lit "export" ++ rest) = false.
Proof.
  intros H a u E Hu. rewrite E in H.
  destruct (Nat.le_gt_cases 6 (length u)) as [Hle | Hgt].
  - rewrite starts_with_long by exact Hle.
    exact (@includes_false_at (lit "export") a u H).
  - destruct u as [| c1 [| c2 [| c3 [| c4 [| c5 [| c6 u]]]]]];
      [congruence | | | | | | cbn in Hgt; lia];
      cbn; rewrite ?andb_false_r; reflexivity.
Qed.

Lemma search_exported_component pre post :
  includes (lit "export") pre = false ->
  forall u a bef,
    pre = a ++ u ->
    exists res,
      search_from export_default_function_re bef
        (u ++ lit "export default function GeneratedComponent(" ++ post) = Some res /\
      m_pre res = rev bef ++ u /\ m_post res = post.
Proof.
  intro H. induction u as [| c u IH]; intros a bef E; rewrite search_from_eq.
  - cbn [app]. unfold exec_at, export_default_function_re, str, ws. cbn.
    eexists. split; [reflexivity |]. cbn. now rewrite app_nil_r.
  - replace (exec_at export_default_function_re bef
               ((c :: u) ++ lit "export default function GeneratedComponent(" ++ post))
      with (@None mstate).
    + cbn [app]. destruct (IH (a ++ [c]) (c :: bef)) as (res & Hres & Hpre & Hpost).
      { now rewrite <- app_assoc. }
      exists res. split; [exact Hres | split; [| exact Hpost]].
      rewrite Hpre. cbn [rev]. now rewrite <- app_assoc.
    + symmetry. apply exec_at_head_lit.
      change (lit "export default function GeneratedComponent(")
        with (lit "export" ++ lit " default function GeneratedComponent(").
      rewrite <- app_assoc.
      apply (@export_not_before pre _ H a (c :: u) E). discriminate.
Qed.

Lemma includes_around q a r b :
  q <> [] -> no_overlap q r ->
  includes q a = false -> includes q b = false ->
  includes q (a ++ r ++ b) = false.
Proof.
  intros Hq Hno Ha Hb. apply includes_false. intros x y E.
  destruct (Hno _ _ _ _ E) as [H | H].
  - exact (proj1 (includes_false q a) Ha x _ (occurrence_in_left _ _ _ _ _ E H)).
  - apply (f_equal (skipn (length (a ++ r)))) in E.
    rewrite app_assoc, skipn_app, skipn_all, Nat.sub_diag in E.
    cbn [skipn app] in E.
    rewrite skipn_app in E.
    replace (length (a ++ r) - length x) with 0 in E by (rewrite length_app; lia).
    cbn [skipn] in E.
    exact (proj1 (includes_false q b) Hb _ y E).
Qed.

(** X17.  The declaration the generator is asked for loses its [export default]:
    with no other [export] in the text, [export default function
    GeneratedComponent(] becomes [function GeneratedComponent(] and the
    rest of the text stays. *)
Theorem exported_component_becomes_plain_declaration (pre post : text) :
  includes (lit "export") pre = false ->
  includes (lit "export") post = false ->
  App.strip_exports
    (pre ++ lit "export default function GeneratedComponent(" ++ post) =
  pre ++ lit "function GeneratedComponent(" ++ post.
Proof.
  intros Hpre Hpost. unfold App.strip_exports, replace, search.
  destruct (@search_exported_component pre post Hpre pre [] [] eq_refl)
    as (res & -> & -> & ->).
  cbn [rev app]. unfold export_default_re, str.
  apply replace_all_head_lit_absent.
  apply includes_around; [discriminate | | exact Hpre | exact Hpost].
  apply overlapb_no_overlap. vm_compute. reflexivity.
Qed.

Lemma exported_component_becomes_plain_declaration_witness :
  App.strip_exports
    ((lit "// card" ++ [newline]) ++
     lit "export default function GeneratedComponent(" ++ lit ") { return null }") =
  (lit "// card" ++ [newline]) ++
  lit "function GeneratedComponent(" ++ lit ") { return null }".
Proof.
  apply (@exported_component_becomes_plain_declaration
           (lit "// card" ++ [newline]) (lit ") { return null }"));
    reflexivity.
Defined.

End NormalizeFacts.

(* ================================================================== *)
(** * ThemedFacts: more on the build with fence extraction and themes *)
(* ================================================================== *)

Module ThemedFacts.
Import Text Regex Patterns Notions FenceNotions TextFacts RegexFacts LineFacts
  FenceFacts ThemeFacts EdgeFacts ThemedApp.

(** X18.  The theme pass changes nothing in code that has none of the two
    literals of the theme. *)
Theorem theme_pass_keeps_code_without_literals (code : text) (isDark : bool) :
  (if isDark
   then includes (lit "text-black") code || includes (lit "bg-white") code
   else includes (lit "text-white") code || includes (lit "bg-slate-900") code)
  = false ->
  adaptCodeForTheme code isDark = code.
Proof.
  unfold adaptCodeForTheme, str. destruct (is_empty code); [reflexivity |].
  destruct isDark; intro H; apply orb_false_iff in H; destruct H as [H1 H2];
    rewrite (@replace_all_lit_absent _ _ _ H1);
    now rewrite (@replace_all_lit_absent _ _ _ H2).
Qed.

Lemma theme_pass_keeps_code_without_literals_witness :
  adaptCodeForTheme (lit "<p className='text-white bg-slate-900'>x</p>") true =
  lit "<p className='text-white bg-slate-900'>x</p>".
Proof.
  apply (@theme_pass_keeps_code_without_literals
           (lit "<p className='text-white bg-slate-900'>x</p>") true).
  reflexivity.
Defined.

(** X19.  The theme pass is idempotent: run again with the same theme, it
    changes nothing. *)
Theorem theme_pass_is_idempotent (code : text) (isDark : bool) :
  adaptCodeForTheme (adaptCodeForTheme code isDark) isDark =
  adaptCodeForTheme code isDark.
Proof.
  assert (Hfree :
    if isDark
    then includes (lit "text-black") (adaptCodeForTheme code true) = false /\
         includes (lit "bg-white") (adaptCodeForTheme code true) = false
    else includes (lit "text-white") (adaptCodeForTheme code false) = false /\
         includes (lit "bg-slate-900") (adaptCodeForTheme code false) = false).
  { destruct isDark; [apply adaptCodeForTheme_dark | apply adaptCodeForTheme_light]. }
  destruct isDark; destruct Hfree as [H1 H2];
    [set (out := adaptCodeForTheme code true) in * |
     set (out := adaptCodeForTheme code false) in *];
    unfold adaptCodeForTheme, str; destruct (is_empty out); try reflexivity;
    rewrite (@replace_all_lit_absent _ _ _ H1);
    now rewrite (@replace_all_lit_absent _ _ _ H2).
Qed.

Lemma before_first_absent q s : includes q s = false -> before_first q s = None.
Proof.
  induction s as [| c s IH]; cbn [includes before_first]; intro H;
    apply orb_false_iff in H; destruct H as [-> H]; [reflexivity |].
  now rewrite IH.
Qed.

Lemma includes_suffix_false q pre post :
  includes q (pre ++ post) = false -> includes q post = false.
Proof.
  intro H. destruct (includes q post) eqn:E; [| reflexivity].
  pose proof (@includes_part q pre post [] E) as E'.
  rewrite app_nil_r in E'. congruence.
Qed.

Lemma after_tag_suffix rest : exists pre, rest = pre ++ after_tag rest.
Proof.
  exists (take_while is_alpha rest ++
          take_while is_space (drop_while is_alpha rest)).
  unfold after_tag. now rewrite <- app_assoc, !take_drop_while.
Qed.

Lemma has_fenced_block_false s :
  has_fenced_block s = false ->
  forall pre post,
    s = pre ++ post -> starts_with fence_marker post = true ->
    includes fence_marker (skipn 3 post) = false.
Proof.
  induction s as [| c s IH]; intros H pre post E Hs.
  - destruct pre; [| discriminate]. cbn in E. subst post. discriminate.
  - cbn [has_fenced_block] in H. apply orb_false_iff in H. destruct H as [H0 H].
    destruct pre as [| d pre].
    + cbn in E. subst post. rewrite Hs in H0. exact H0.
    + injection E as _ E. exact (IH H pre post E Hs).
Qed.

(** Without a marker that another marker follows, the pattern matches
    nowhere. *)
Lemma search_fence_unclosed raw :
  has_fenced_block raw = false -> search fence_re raw = None.
Proof.
  intro H. apply search_from_none. intros pre post E.
  rewrite exec_at_fence.
  destruct (starts_with fence_marker post) eqn:Hs; [| reflexivity].
  pose proof (@has_fenced_block_false raw H pre post E Hs) as Hb.
  destruct (after_tag_suffix (skipn 3 post)) as (u & Eb).
  rewrite before_first_absent; [reflexivity |].
  apply (@includes_suffix_false fence_marker u). now rewrite <- Eb.
Qed.

(** X20.  A text with no fenced block, be it without any marker or with
    markers none of which is followed by a closing one, is used whole:
    nothing is extracted, and the line filter, the export replacement
    and [trim] run on all of it. *)
Theorem unfenced_text_is_used_whole (raw : text) :
  has_fenced_block raw = false ->
  normalizeGeneratedCode raw = clean raw.
Proof.
  intro H. unfold normalizeGeneratedCode.
  destruct raw as [| c raw]; [reflexivity |]. cbn [is_empty].
  now rewrite (@search_fence_unclosed _ H).
Qed.

Lemma unfenced_text_is_used_whole_witness :
  normalizeGeneratedCode (lit "Sure: ```jsx" ++ newline :: lit "<b>hi</b>") =
  clean (lit "Sure: ```jsx" ++ newline :: lit "<b>hi</b>").
Proof.
  apply (@unfenced_text_is_used_whole
           (lit "Sure: ```jsx" ++ newline :: lit "<b>hi</b>")).
  reflexivity.
Defined.

(** X21.  The line filter of this build leaves no line it drops: in the text it
    makes, no line begins, after its leading white space, with a fence
    marker, with [import ] or with [export {]. *)
Theorem themed_line_filter_leaves_no_dropped_line (code : text) :
  Forall (fun line =>
            starts_with fence_marker (trim line) = false /\
            starts_with import_marker (trim line) = false /\
            starts_with (lit "export {") (trim line) = false)
    (split newline (join newline (filter keep_line (split newline code)))).
Proof.
  assert (Hkeep : forall line,
             keep_line line = true ->
             starts_with fence_marker (trim line) = false /\
             starts_with import_marker (trim line) = false /\
             starts_with (lit "export {") (trim line) = false).
  { intro line. unfold keep_line.
    destruct (starts_with fence_marker (trim line)); [discriminate |].
    destruct (starts_with import_marker (trim line)); [discriminate |].
    destruct (starts_with (lit "export {") (trim line)); [discriminate |].
    now repeat split. }
  destruct (filter keep_line (split newline code)) as [| l ls] eqn:Ef.
  - cbn. constructor; [now apply Hkeep | constructor].
  - rewrite split_join.
    + rewrite <- Ef. apply Forall_forall. intros line Hin.
      apply filter_In in Hin. destruct Hin as [_ Hk]. now apply Hkeep.
    + discriminate.
    + rewrite <- Ef. apply Forall_forall. intros line Hin.
      apply filter_In in Hin. destruct Hin as [Hin _].
      revert line Hin. apply Forall_forall, split_pieces.
Qed.

End ThemedFacts.

(* ================================================================== *)
(** * ExpressionFacts: the normaliser that hands over an expression *)
(* ================================================================== *)

Module ExpressionFacts.
Import Text Regex Patterns Notions TextFacts RegexFacts HookFacts ImportFacts
  FenceFacts ThemeFacts EdgeFacts ExpressionApp.

(** ** Replacements *)

Lemma replace_all_lit_nonempty p r s :
  p <> [] -> r <> [] -> s <> [] -> replace_all (Lit p) r s <> [].
Proof.
  intros Hp Hr Hs. unfold replace_all. rewrite replace_loop_lit by exact Hp.
  destruct (starts_with p s).
  - destruct r; [congruence | discriminate].
  - destruct s; [congruence | discriminate].
Qed.

Lemma includes_refl q : includes q q = true.
Proof. apply includes_spec. exists [], []. now rewrite app_nil_r. Qed.

(** Replacing by [q] keeps a text that has [q] a text that has [q]. *)
Lemma replace_keeps_replacement r q s :
  includes q s = true -> includes q (replace r q s) = true.
Proof.
  intro H. unfold replace. destruct (search r s) as [res |]; [| exact H].
  apply includes_part, includes_refl.
Qed.

(** ** Where a pattern matches, the search finds a match *)

Lemma search_from_some r :
  forall pre bef post,
    exec_at r (rev pre ++ bef) post <> None ->
    search_from r bef (pre ++ post) <> None.
Proof.
  induction pre as [| c pre IH]; intros bef post H; rewrite search_from_eq.
  - cbn [rev app] in *. destruct (exec_at r bef post); [| congruence].
    discriminate.
  - cbn [app]. destruct (exec_at r bef (c :: pre ++ post)); [discriminate |].
    apply IH. cbn [rev] in H. now rewrite <- app_assoc in H.
Qed.

Lemma exec_at_component bef y :
  exec_at component_re bef (lit "function GeneratedComponent(" ++ y) <> None.
Proof. unfold exec_at, component_re, str, ws. cbn. discriminate. Qed.

Lemma test_component code :
  includes (lit "function GeneratedComponent(") code = true ->
  test component_re code = true.
Proof.
  intro H. apply includes_spec in H. destruct H as (x & y & ->).
  unfold test, search.
  pose proof (@search_from_some component_re x []
                (lit "function GeneratedComponent(" ++ y)
                (@exec_at_component _ y)) as Hs.
  now destruct (search_from component_re []
                  (x ++ lit "function GeneratedComponent(" ++ y)).
Qed.

(** ** White space at the ends *)

Lemma includes_drop_while q s :
  match q with [] => False | c :: _ => is_space c = false end ->
  includes q s = true -> includes q (drop_while is_space s) = true.
Proof.
  destruct q as [| f q]; [contradiction |]. intro Hf.
  induction s as [| c s IH]; [trivial |].
  cbn [drop_while]. destruct (is_space c) eqn:Hc; [| trivial].
  cbn [includes starts_with].
  destruct (N.eqb_spec f c) as [-> | Hne]; [congruence |].
  cbn [andb orb]. exact IH.
Qed.

Lemma includes_nonspace q s :
  nonspace q = true -> includes q s = true -> nonspace s = true.
Proof.
  intros Hq H. apply includes_spec in H. destruct H as (x & y & ->).
  now rewrite !nonspace_app, Hq, orb_true_r.
Qed.

(** ** The four ways out of [normalizeGeneratedCode] *)

(** X22.  The result is never empty: there is always something for the
    preview to run. *)
Theorem normalized_snippet_is_never_empty (raw : text) :
  normalizeGeneratedCode raw <> [].
Proof.
  unfold normalizeGeneratedCode.
  destruct (is_empty raw); [discriminate |].
  set (code := replace export_default_function_re
                 (lit "function GeneratedComponent(") (first_block raw)).
  destruct (test component_re code).
  - apply trim_nonblank. rewrite nonspace_app.
    replace (nonspace (newline :: newline :: lit "(() => <GeneratedComponent />)" ++
                       newline :: lit "    ")) with true by reflexivity.
    apply orb_true_r.
  - destruct (negb (starts_with (lit "(") code) &&
              negb (starts_with (lit "() =>") code) && includes (lit "<") code).
    + discriminate.
    + destruct code; [discriminate | discriminate].
Qed.

(** X23.  Input that is empty or all white space gives the default snippet. *)
Theorem blank_input_gives_default_snippet (raw : text) :
  nonspace raw = false -> normalizeGeneratedCode raw = DEFAULT_SNIPPET.
Proof.
  intro H. unfold normalizeGeneratedCode.
  destruct (is_empty raw); [reflexivity |].
  unfold first_block. rewrite (@trim_blank raw H). reflexivity.
Qed.

Lemma blank_input_gives_default_snippet_witness :
  normalizeGeneratedCode (lit "  " ++ newline :: lit "   ") = DEFAULT_SNIPPET.
Proof.
  apply (@blank_input_gives_default_snippet (lit "  " ++ newline :: lit "   ")).
  reflexivity.
Defined.

(** X24.  When the text the first step keeps declares the component, with or
    without [export default] in front, the result is code that declares
    it followed by the expression that renders it. *)
Theorem declared_component_is_rendered (raw : text) :
  includes (lit "function GeneratedComponent(") (first_block raw) = true ->
  exists body,
    normalizeGeneratedCode raw =
      body ++ newline :: newline :: lit "(() => <GeneratedComponent />)" /\
    includes (lit "function GeneratedComponent(") body = true.
Proof.
  intro H. unfold normalizeGeneratedCode.
  assert (Hraw : is_empty raw = false)
    by (destruct raw; [discriminate H | reflexivity]).
  rewrite Hraw.
  set (code := replace export_default_function_re
                 (lit "function GeneratedComponent(") (first_block raw)).
  assert (Hc : includes (lit "function GeneratedComponent(") code = true)
    by now apply replace_keeps_replacement.
  rewrite (@test_component code Hc).
  exists (drop_while is_space code). split.
  - rewrite trim_trim_end.
    rewrite drop_while_app_nonspace
      by (apply (@includes_nonspace (lit "function GeneratedComponent("));
          [reflexivity | exact Hc]).
    replace (drop_while is_space code ++
             newline :: newline :: lit "(() => <GeneratedComponent />)" ++
             newline :: lit "    ")
      with ((drop_while is_space code ++
             newline :: newline :: lit "(() => <GeneratedComponent />)") ++
            newline :: lit "    ")
      by (rewrite <- app_assoc; reflexivity).
    rewrite trim_end_app_spaces by (repeat constructor).
    rewrite trim_end_app_nonspace by reflexivity.
    reflexivity.
  - apply includes_drop_while; [reflexivity | exact Hc].
Qed.

Lemma declared_component_is_rendered_witness :
  exists body,
    normalizeGeneratedCode
      (lit "export default function GeneratedComponent() { return <b/> }") =
      body ++ newline :: newline :: lit "(() => <GeneratedComponent />)" /\
    includes (lit "function GeneratedComponent(") body = true.
Proof.
  apply (@declared_component_is_rendered
           (lit "export default function GeneratedComponent() { return <b/> }")).
  reflexivity.
Defined.

(** X25.  Plain markup, with no [export] and no [function] in it, is wrapped
    into an arrow function. *)
Theorem plain_markup_is_wrapped (raw : text) :
  starts_with (lit "<") (first_block raw) = true ->
  includes (lit "export") (first_block raw) = false ->
  includes (lit "function") (first_block raw) = false ->
  normalizeGeneratedCode raw =
  lit "() => (" ++ newline :: first_block raw ++ newline :: lit ")".
Proof.
  intros Hlt Hexport Hfunction. unfold normalizeGeneratedCode.
  assert (Hraw : is_empty raw = false)
    by (destruct raw; [discriminate Hlt | reflexivity]).
  rewrite Hraw.
  unfold export_default_function_re, component_re, str.
  rewrite replace_head_lit_absent by exact Hexport.
  unfold test. rewrite search_head_lit_absent by exact Hfunction.
  apply starts_with_spec in Hlt. destruct Hlt as (rest & ->).
  reflexivity.
Qed.

Lemma plain_markup_is_wrapped_witness :
  normalizeGeneratedCode (lit " <b>hi</b> ") =
  lit "() => (" ++ newline :: first_block (lit " <b>hi</b> ") ++ newline :: lit ")".
Proof.
  apply (@plain_markup_is_wrapped (lit " <b>hi</b> ")); reflexivity.
Defined.

(** X26.  An expression in parentheses, with no [export] and no [function] in
    it, is handed over as the first step leaves it. *)
Theorem parenthesised_expression_is_kept (raw : text) :
  starts_with (lit "(") (first_block raw) = true ->
  includes (lit "export") (first_block raw) = false ->
  includes (lit "function") (first_block raw) = false ->
  normalizeGeneratedCode raw = first_block raw.
Proof.
  intros Hp Hexport Hfunction. unfold normalizeGeneratedCode.
  assert (Hraw : is_empty raw = false)
    by (destruct raw; [discriminate Hp | reflexivity]).
  rewrite Hraw.
  unfold export_default_function_re, component_re, str.
  rewrite replace_head_lit_absent by exact Hexport.
  unfold test. rewrite search_head_lit_absent by exact Hfunction.
  rewrite Hp. cbn [negb andb].
  destruct (first_block raw); [discriminate Hp | reflexivity].
Qed.

Lemma parenthesised_expression_is_kept_witness :
  normalizeGeneratedCode (lit "() => <b>hi</b>") = first_block (lit "() => <b>hi</b>").
Proof.
  apply (@parenthesised_expression_is_kept (lit "() => <b>hi</b>")); reflexivity.
Defined.

(** ** The contrast fix *)

(** X27.  After the contrast fix the dark preview has no [text-black] and the
    light preview no [text-white], and the preview is never empty. *)
Theorem contrast_fix_removes_invisible_text (code generatedCode : text) :
  includes (lit "text-black") (applyThemeContrastFix code true) = false /\
  includes (lit "text-white") (applyThemeContrastFix code false) = false /\
  includes (lit "text-black") (previewCode generatedCode true) = false /\
  includes (lit "text-white") (previewCode generatedCode false) = false /\
  (forall isDark, previewCode generatedCode isDark <> []).
Proof.
  assert (Hd : forall c, includes (lit "text-black") (applyThemeContrastFix c true) = false).
  { intro c. unfold applyThemeContrastFix, str. destruct c as [| x c]; [reflexivity |].
    cbn [is_empty].
    apply replace_all_lit_removes; [literal_nonempty | literal_no_overlap]. }
  assert (Hl : forall c, includes (lit "text-white") (applyThemeContrastFix c false) = false).
  { intro c. unfold applyThemeContrastFix, str. destruct c as [| x c]; [reflexivity |].
    cbn [is_empty].
    apply replace_all_lit_removes; [literal_nonempty | literal_no_overlap]. }
  repeat split; try apply Hd; try apply Hl.
  intro isDark. unfold previewCode, applyThemeContrastFix, str.
  pose proof (@normalized_snippet_is_never_empty generatedCode) as Hne.
  destruct (normalizeGeneratedCode generatedCode) as [| x c]; [congruence |].
  cbn [is_empty].
  destruct isDark; apply replace_all_lit_nonempty;
    solve [literal_nonempty | discriminate].
Qed.

End ExpressionFacts.
